(** * Microvium: snapshot decoding, slot assignment and IL lowering

    A shallow embedding of three parts of the Microvium tool chain:

    - [Decoder]: [decodeSnapshot] and its helpers (src/lib.ts, second part);
    - [Pass2]: the slot computation of the scope analysis
      (src/lib/src-to-il/analyze-scopes/pass-2-compute-slots.ts, first part);
    - [SrcToIL]: the stack-machine lowering (same file, second part).

    Stateful code is written in a small state-and-error monad; the mutable
    objects of the source that are shared (blocks, labels, bindings, scopes)
    live in explicit stores and are referred to by handle. *)

From Stdlib Require Import ZArith QArith List Ascii String Strings.Byte Lia Bool.
From stdpp Require Import base option list strings gmap pretty.

Set Default Proof Using "Type".

(** ** A state-and-error monad *)

Inductive Result (E A : Type) : Type :=
| OK (a : A)
| Err (e : E).
Arguments OK {E A} a.
Arguments Err {E A} e.

Definition M (E S A : Type) : Type := S → Result E (A * S).

Definition ret {E S A} (a : A) : M E S A := λ s, OK (a, s).

Definition bind {E S A B} (c : M E S A) (k : A → M E S B) : M E S B :=
  λ s, match c s with
       | OK (a, s') => k a s'
       | Err e => Err e
       end.

Definition throw {E S A} (e : E) : M E S A := λ _, Err e.
Definition get {E S} : M E S S := λ s, OK (s, s).
Definition gets {E S A} (f : S → A) : M E S A := λ s, OK (f s, s).
Definition modify {E S} (f : S → S) : M E S unit := λ s, OK (tt, f s).

Notation "'let*' x ':=' c 'in' k" := (bind c (λ x, k))
  (at level 10, x pattern, c at level 100, k at level 200).
Notation "c ';;' k" := (bind c (λ _, k))
  (at level 100, k at level 200, right associativity).


(** A [for (const x of xs)] loop whose body updates [a]. *)
Definition foldM {E S A B} (f : A → B → M E S A) : list B → A → M E S A :=
  fix go (xs : list B) (a : A) : M E S A :=
    match xs with
    | [] => ret a
    | x :: xs' => bind (f a x) (go xs')
    end.

(** [raises P c]: every error of the computation [c] satisfies [P]. *)
Definition raises {E S A} (P : E → Prop) (c : M E S A) : Prop :=
  ∀ s e, c s = Err e → P e.

(** [ensures R Q c]: when [c] returns, the states before and after it are
    related by [R] and the result satisfies [Q]. *)
Definition ensures {E S A} (R : S → S → Prop) (Q : A → Prop) (c : M E S A) : Prop :=
  ∀ s a s', c s = OK (a, s') → R s s' ∧ Q a.
(** ** IL values (the part of [IL] that the decoder and the compiler share) *)

Module IL.

(** JavaScript numbers as far as the modelled code produces them: integers,
    [NaN] and negative zero. *)
Inductive Number : Type :=
| Int (z : Z)
| NaN
| NegZero.

Definition AllocationID := nat.
Definition FunctionID := string.

Inductive Value : Type :=
| UndefinedValue
| NullValue
| BooleanValue (value : bool)
| NumberValue (value : Number)
| StringValue (value : string)
| FunctionValue (value : FunctionID)
| ReferenceValue (value : AllocationID).

Definition undefinedValue : Value := UndefinedValue.
Definition nullValue : Value := NullValue.
Definition trueValue : Value := BooleanValue true.
Definition falseValue : Value := BooleanValue false.

End IL.

(** ** The snapshot decoder (src/lib.ts, [decodeSnapshot]) *)

Module Decoder.

Import IL.
Local Open Scope Z_scope.

(** *** Constants of the runtime *)

(** The decoder imports [HEADER_SIZE], [BYTECODE_VERSION] and
    [ENGINE_VERSION] from [./snapshot-info], and the enumerations
    [vm_TeWellKnownValues] and [TeTypeCode] from [./runtime-types]. Their
    values are not part of the sources at hand, so they are parameters. *)
Record Constants : Type := {
  HEADER_SIZE : Z;
  BYTECODE_VERSION : Z;
  ENGINE_VERSION : Z;
  VM_VALUE_UNDEFINED : Z;
  VM_VALUE_NULL : Z;
  VM_VALUE_TRUE : Z;
  VM_VALUE_FALSE : Z;
  VM_VALUE_NAN : Z;
  VM_VALUE_NEG_ZERO : Z;
  VM_VALUE_DELETED : Z;
  VM_VALUE_WELLKNOWN_END : Z;
  TC_REF_ARRAY : Z
}.

(** Modelled from the spec: the enumeration [vm_TeValueTag] of
    [./runtime-types] is missing; the spec partitions the 16-bit logical
    address space by the top two bits into integers ([0x0000]), the GC heap
    ([0x4000]), initial data ([0x8000]) and program ROM ([0xC000]). *)
Definition VM_TAG_INT : Z := 0x0000.
Definition VM_TAG_GC_P : Z := 0x4000.
Definition VM_TAG_DATA_P : Z := 0x8000.
Definition VM_TAG_PGM_P : Z := 0xC000.

(** *** CRC *)

Definition byte_to_Z (b : byte) : Z := Z.of_N (Byte.to_N b).

(** Modelled from the spec: [crc16ccitt] comes from the package [crc]; the
    spec fixes it as CRC-16-CCITT with polynomial [0x1021] and initial value
    [0xFFFF], processed most significant bit first. *)
Definition crc16_shift (crc : Z) : Z :=
  if Z.testbit crc 15
  then Z.land (Z.lxor (Z.shiftl crc 1) 0x1021) 0xFFFF
  else Z.land (Z.shiftl crc 1) 0xFFFF.

Definition crc16_update (crc : Z) (b : byte) : Z :=
  Nat.iter 8 crc16_shift (Z.lxor crc (Z.shiftl (byte_to_Z b) 8)).

Definition crc16ccitt (bytes : list byte) : Z :=
  fold_left crc16_update bytes 0xFFFF.

(** *** Errors *)

(** The messages passed to [invalidOperation]. *)
Inductive Message : Type :=
| BytecodeSizeMismatch
| HeaderSizeUnexpected
| CRCMismatch
| BytecodeVersionNotSupported (bytecodeVersion : Z)
| EngineVersionNotSupported (requiredEngineVersion : Z).

Inductive Error : Type :=
| InvalidOperation (message : Message)   (* [invalidOperation(...)] *)
| ReadBeyondBounds                       (* a [SmartBuffer] read or seek outside the data *)
| Unexpected                             (* [unexpected()] *)
| NotImplemented                         (* [notImplemented()] *)
| AssertionFailed.                       (* [assert(...)] *)

(** *** The mapping *)

Inductive SnapshotMappingComponent : Type :=
| Region (regionName : string) (value : list MappingEntry)
| Reference (value : IL.Value) (label : string) (address : Z)
| Value (label : string) (value : IL.Value)
| Allocation
| Attribute (label : string) (value : Q)
| Annotation (text : string)
| HeaderField (name : string) (value : Z) (isOffset : bool)
| DeletedValue
| UnusedSpace
| OverlapWarning (addressStart addressEnd : Z)
with MappingEntry : Type :=
| Entry (offset size logicalAddress : option Z) (content : SnapshotMappingComponent).

Definition SnapshotMappingComponents := list MappingEntry.

Record SnapshotMapping : Type := {
  bytecodeSize : Z;
  components : SnapshotMappingComponents
}.

Record GlobalSlot : Type := {
  value : option IL.Value;     (* [decodeValue(...)!] can be undefined *)
  indexHint : nat
}.

(** The fields of [SnapshotInfo] that [decodeSnapshot] fills in
    ([functions], [exports] and [allocations] stay empty). *)
Record SnapshotInfo : Type := {
  globalSlots : list (string * GlobalSlot);
  flags : list nat
}.

(** *** The local state of [decodeSnapshot] *)

Record State : Type := {
  readOffset : Z;                      (* [buffer.readOffset] *)
  region : SnapshotMappingComponents;
  regionStack : list (SnapshotMappingComponents * option string * Z);
  regionName : option string;
  regionStart : Z;
  dataAllocationsMapping : SnapshotMappingComponents;
  gcAllocationsMapping : SnapshotMappingComponents;
  processedAllocations : gset Z;
  nextAllocationID : nat;
  allocationIDByAddress : gmap Z nat;
  snapshotInfo : SnapshotInfo
}.

Definition initialState : State := {|
  readOffset := 0;
  region := [];
  regionStack := [];
  regionName := None;
  regionStart := 0;
  dataAllocationsMapping := [];
  gcAllocationsMapping := [];
  processedAllocations := ∅;
  nextAllocationID := 1;
  allocationIDByAddress := ∅;
  snapshotInfo := {| globalSlots := []; flags := [] |}
|}.

Definition set_readOffset (o : Z) (s : State) : State :=
  {| readOffset := o; region := region s; regionStack := regionStack s;
     regionName := regionName s; regionStart := regionStart s;
     dataAllocationsMapping := dataAllocationsMapping s;
     gcAllocationsMapping := gcAllocationsMapping s;
     processedAllocations := processedAllocations s;
     nextAllocationID := nextAllocationID s;
     allocationIDByAddress := allocationIDByAddress s;
     snapshotInfo := snapshotInfo s |}.

Definition set_region (r : SnapshotMappingComponents) (s : State) : State :=
  {| readOffset := readOffset s; region := r; regionStack := regionStack s;
     regionName := regionName s; regionStart := regionStart s;
     dataAllocationsMapping := dataAllocationsMapping s;
     gcAllocationsMapping := gcAllocationsMapping s;
     processedAllocations := processedAllocations s;
     nextAllocationID := nextAllocationID s;
     allocationIDByAddress := allocationIDByAddress s;
     snapshotInfo := snapshotInfo s |}.

Definition set_regions (r : SnapshotMappingComponents)
    (stack : list (SnapshotMappingComponents * option string * Z))
    (name : option string) (start : Z) (s : State) : State :=
  {| readOffset := readOffset s; region := r; regionStack := stack;
     regionName := name; regionStart := start;
     dataAllocationsMapping := dataAllocationsMapping s;
     gcAllocationsMapping := gcAllocationsMapping s;
     processedAllocations := processedAllocations s;
     nextAllocationID := nextAllocationID s;
     allocationIDByAddress := allocationIDByAddress s;
     snapshotInfo := snapshotInfo s |}.

Definition set_gcAllocationsMapping (m : SnapshotMappingComponents) (s : State) : State :=
  {| readOffset := readOffset s; region := region s; regionStack := regionStack s;
     regionName := regionName s; regionStart := regionStart s;
     dataAllocationsMapping := dataAllocationsMapping s;
     gcAllocationsMapping := m;
     processedAllocations := processedAllocations s;
     nextAllocationID := nextAllocationID s;
     allocationIDByAddress := allocationIDByAddress s;
     snapshotInfo := snapshotInfo s |}.

Definition set_processedAllocations (p : gset Z) (s : State) : State :=
  {| readOffset := readOffset s; region := region s; regionStack := regionStack s;
     regionName := regionName s; regionStart := regionStart s;
     dataAllocationsMapping := dataAllocationsMapping s;
     gcAllocationsMapping := gcAllocationsMapping s;
     processedAllocations := p;
     nextAllocationID := nextAllocationID s;
     allocationIDByAddress := allocationIDByAddress s;
     snapshotInfo := snapshotInfo s |}.

Definition set_allocationIDs (next : nat) (m : gmap Z nat) (s : State) : State :=
  {| readOffset := readOffset s; region := region s; regionStack := regionStack s;
     regionName := regionName s; regionStart := regionStart s;
     dataAllocationsMapping := dataAllocationsMapping s;
     gcAllocationsMapping := gcAllocationsMapping s;
     processedAllocations := processedAllocations s;
     nextAllocationID := next;
     allocationIDByAddress := m;
     snapshotInfo := snapshotInfo s |}.

Definition set_snapshotInfo (i : SnapshotInfo) (s : State) : State :=
  {| readOffset := readOffset s; region := region s; regionStack := regionStack s;
     regionName := regionName s; regionStart := regionStart s;
     dataAllocationsMapping := dataAllocationsMapping s;
     gcAllocationsMapping := gcAllocationsMapping s;
     processedAllocations := processedAllocations s;
     nextAllocationID := nextAllocationID s;
     allocationIDByAddress := allocationIDByAddress s;
     snapshotInfo := i |}.

Definition D (A : Type) : Type := M Error State A.

(** [region.push(entry)] *)
Definition pushComponent (e : MappingEntry) : D unit :=
  modify (λ s, set_region (region s ++ [e]) s).

(** [address.toString(16).padStart(4, '0')] of [stringifyAddress], for an
    address that is defined and not negative. *)
Definition hexDigit (d : Z) : string :=
  String (nth (Z.to_nat d) (list_ascii_of_string "0123456789abcdef") "?"%char) "".

(** The digits of [n.toString(16)] before [acc], at most [fuel] of them. *)
Fixpoint hexDigits (fuel : nat) (n : Z) (acc : string) : string :=
  match fuel with
  | O => acc
  | S fuel' =>
      let acc' := (hexDigit (n `mod` 16) +:+ acc)%string in
      if n / 16 =? 0 then acc' else hexDigits fuel' (n / 16) acc'
  end.

Definition toString16 (n : Z) : string :=
  hexDigits (S (Z.to_nat (Z.log2 n))) n "".

Fixpoint zeros (n : nat) : string :=
  match n with
  | O => ""
  | S n' => String "0"%char (zeros n')
  end.

Definition padStart4 (s : string) : string :=
  (zeros (4 - String.length s) +:+ s)%string.

Definition stringifyAddress (address : Z) : string :=
  padStart4 (toString16 address).

Section WithSnapshot.

Variable K : Constants.
Variable data : list byte.            (* [snapshot.data] *)

Definition bufferLength : Z := Z.of_nat (length data).

(** *** [SmartBuffer] reads

    A read that does not fit into the data raises; so does moving the read
    offset behind the end. *)
Definition byteAt (offset : Z) : Z :=
  match data !! Z.to_nat offset with
  | Some b => byte_to_Z b
  | None => 0
  end.

Definition readableAt (offset size : Z) : bool :=
  (0 <=? offset) && (offset + size <=? bufferLength).

Definition uint8At (offset : Z) : Z := byteAt offset.
Definition uint16LEAt (offset : Z) : Z :=
  byteAt offset + 256 * byteAt (offset + 1).
Definition uint32LEAt (offset : Z) : Z :=
  byteAt offset + 256 * byteAt (offset + 1) +
  65536 * byteAt (offset + 2) + 16777216 * byteAt (offset + 3).

(** [buffer.readUInt8()], [buffer.readUInt16LE()], [buffer.readUInt32LE()]:
    read at the read offset and advance it. *)
Definition readNext (size : Z) (decode : Z → Z) : D Z :=
  let* o := gets readOffset in
  if readableAt o size
  then modify (set_readOffset (o + size)) ;; ret (decode o)
  else throw ReadBeyondBounds.

Definition readUInt8 : D Z := readNext 1 uint8At.
Definition readUInt16LE : D Z := readNext 2 uint16LEAt.
Definition readUInt32LE : D Z := readNext 4 uint32LEAt.

(** [buffer.readUInt16LE(offset)]: read at [offset], the read offset stays. *)
Definition readUInt16LE_at (offset : Z) : D Z :=
  if readableAt offset 2 then ret (uint16LEAt offset) else throw ReadBeyondBounds.

(** [buffer.readOffset = offset] *)
Definition seek (offset : Z) : D unit :=
  if (0 <=? offset) && (offset <=? bufferLength)
  then modify (set_readOffset offset)
  else throw ReadBeyondBounds.

(** *** Header fields *)

Definition readHeaderField8 (name : string) : D Z :=
  let* address := gets readOffset in
  let* value := readUInt8 in
  pushComponent (Entry (Some address) (Some 1) None (HeaderField name value false)) ;;
  ret value.

Definition readHeaderField16 (name : string) (isOffset : bool) : D Z :=
  let* address := gets readOffset in
  let* value := readUInt16LE in
  pushComponent (Entry (Some address) (Some 2) None (HeaderField name value isOffset)) ;;
  ret value.

Definition readHeaderField32 (name : string) (isOffset : bool) : D Z :=
  let* address := gets readOffset in
  let* value := readUInt32LE in
  pushComponent (Entry (Some address) (Some 4) None (HeaderField name value isOffset)) ;;
  ret value.

(** *** Regions

    [beginRegion] pushes a [Region] entry whose [value] is the array that
    becomes the current region; the entries pushed until [endRegion] land
    in that array. Here the parent keeps the entry with an empty [value]
    as its last element, and [endRegion] stores the finished array in it. *)
Definition beginRegion (name : string) : D unit :=
  modify (λ s,
    let parent :=
      region s ++ [Entry (Some (readOffset s)) None None (Region name [])] in
    set_regions [] ((parent, regionName s, regionStart s) :: regionStack s)
                (Some name) (readOffset s) s).

Definition closeRegion (parent child : SnapshotMappingComponents)
  : SnapshotMappingComponents :=
  match last parent with
  | Some (Entry o sz la (Region name _)) =>
      removelast parent ++ [Entry o sz la (Region name child)]
  | _ => parent
  end.

Definition endRegion (name : string) : D unit :=
  let* s := get in
  if negb (bool_decide (regionName s = Some name)) then throw AssertionFailed else
  match regionStack s with
  | [] => throw AssertionFailed
  | (parent, parentName, parentStart) :: stack =>
      modify (set_regions (closeRegion parent (region s)) stack parentName parentStart)
  end.

(** *** Allocations *)

Definition addressToAllocationID (address : Z) : D IL.AllocationID :=
  let* s := get in
  match allocationIDByAddress s !! address with
  | Some allocationID => ret allocationID
  | None =>
      let allocationID := nextAllocationID s in
      modify (set_allocationIDs (S allocationID)
                (<[address := allocationID]> (allocationIDByAddress s))) ;;
      ret allocationID
  end.

Definition arrayRegionName (allocationID : nat) (address : Z) : string :=
  ("allocation " +:+ pretty allocationID +:+ " (&" +:+ stringifyAddress address
   +:+ "): Array")%string.

(** [initialHeapOffset] is the header field of that name, a variable of
    the enclosing [decodeSnapshot]. *)
Definition decodeAllocation (initialHeapOffset : Z) (address : Z) : D unit :=
  let* s := get in
  if bool_decide (address ∈ processedAllocations s) then ret tt else
  modify (set_processedAllocations ({[address]} ∪ processedAllocations s)) ;;
  let sectionCode := Z.land address 0xC000 in
  if sectionCode =? VM_TAG_INT then throw Unexpected
  else if sectionCode =? VM_TAG_GC_P then
    let offset := initialHeapOffset + (address - VM_TAG_GC_P) in
    let startOffset := offset - 2 in
    let* headerWord := readUInt16LE_at startOffset in
    let allocationSize := Z.land headerWord 0xFFF in
    let typeCode := Z.shiftr headerWord 12 in
    if typeCode =? TC_REF_ARRAY K then
      let startOffset := startOffset - 2 in
      let* length := readUInt16LE_at startOffset in
      let capacity := (allocationSize # 2)%Q in
      let* allocationID := addressToAllocationID address in
      if 0 <? length then throw NotImplemented else
      modify (λ s, set_gcAllocationsMapping
        (gcAllocationsMapping s ++
           [Entry (Some offset) (Some 2) None
              (Region (arrayRegionName allocationID address)
                 [Entry (Some startOffset) (Some 2) None
                    (Attribute "length" (inject_Z length));
                  Entry (Some (startOffset + 2)) (Some 2) None
                    (Attribute "capacity" capacity);
                  Entry (Some offset) (Some 0) None
                    (Annotation "<no array items>")])]) s)
    else
      modify (λ s, set_gcAllocationsMapping
        (gcAllocationsMapping s ++ [Entry (Some offset) (Some 2) None Allocation]) s)
  else ret tt.

(** *** Values *)

Definition wellKnownValue (u16 : Z) : D (option IL.Value) :=
  if u16 =? VM_VALUE_UNDEFINED K then ret (Some IL.undefinedValue)
  else if u16 =? VM_VALUE_NULL K then ret (Some IL.nullValue)
  else if u16 =? VM_VALUE_TRUE K then ret (Some IL.trueValue)
  else if u16 =? VM_VALUE_FALSE K then ret (Some IL.falseValue)
  else if u16 =? VM_VALUE_NAN K then ret (Some (NumberValue NaN))
  else if u16 =? VM_VALUE_NEG_ZERO K then ret (Some (NumberValue NegZero))
  else if u16 =? VM_VALUE_DELETED K then ret None
  else throw Unexpected.

Definition valueComponent (label : string) (u16 : Z) (value : option IL.Value)
  : SnapshotMappingComponent :=
  match value with
  | Some (ReferenceValue _ as v) => Reference v label u16
  | Some v => Value label v
  | None => DeletedValue
  end.

Definition decodeValue (initialHeapOffset : Z) (label : string)
  : D (option IL.Value) :=
  let* address := gets readOffset in
  let* u16 := readUInt16LE in
  let* value :=
    if Z.land u16 0xC000 =? 0 then
      ret (Some (NumberValue (Int (if 0x2000 <? u16 then u16 - 0x4000 else u16))))
    else if (Z.land u16 0xC000 =? VM_TAG_PGM_P) && (u16 <? VM_VALUE_WELLKNOWN_END K) then
      wellKnownValue u16
    else
      let* allocationID := addressToAllocationID u16 in
      decodeAllocation initialHeapOffset u16 ;;
      ret (Some (ReferenceValue allocationID)) in
  pushComponent (Entry (Some address) (Some 2) None (valueComponent label u16 value)) ;;
  ret value.

(** *** The snapshot *)

Definition decodeFlags (requiredFeatureFlags : Z) : D unit :=
  modify (λ s, set_snapshotInfo
    {| globalSlots := globalSlots (snapshotInfo s);
       flags := flags (snapshotInfo s) ++
                filter (λ i, Z.testbit requiredFeatureFlags (Z.of_nat i) = true)
                       (seq 0 32) |} s).

Definition setGlobalSlot (i : nat) (v : option IL.Value) : D unit :=
  modify (λ s, set_snapshotInfo
    {| globalSlots := globalSlots (snapshotInfo s) ++
         [(("global" +:+ pretty i)%string, {| value := v; indexHint := i |})];
       flags := flags (snapshotInfo s) |} s).

(** The loop [for (let i = 0; i < globalVariableCount; i++)], with [n]
    iterations left. *)
Fixpoint decodeGlobalSlots_from (initialHeapOffset : Z) (n i : nat) : D unit :=
  match n with
  | O => ret tt
  | S n' =>
      let* v := decodeValue initialHeapOffset ("[" +:+ pretty i +:+ "]")%string in
      setGlobalSlot i v ;;
      decodeGlobalSlots_from initialHeapOffset n' (S i)
  end.

Definition decodeGlobalSlots (initialDataOffset globalVariableCount initialHeapOffset : Z)
  : D unit :=
  seek initialDataOffset ;;
  beginRegion "Globals" ;;
  decodeGlobalSlots_from initialHeapOffset (Z.to_nat globalVariableCount) 0%nat ;;
  endRegion "Globals".

(** The body of [decodeSnapshot]. The result carries the mapping as it is
    when [finalizeRegions] is called; [finalizeRegions] (sorting, gap and
    overlap markers) raises nowhere and is not part of the model. *)
Definition decodeSnapshot_body : D (SnapshotInfo * SnapshotMapping) :=
  beginRegion "Header" ;;
  let* bytecodeVersion := readHeaderField8 "bytecodeVersion" in
  let* headerSize := readHeaderField8 "headerSize" in
  let* bytecodeSize := readHeaderField16 "bytecodeSize" false in
  let* expectedCRC := readHeaderField16 "expectedCRC" true in
  if negb (bytecodeSize =? bufferLength) then
    throw (InvalidOperation BytecodeSizeMismatch)
  else if negb (headerSize =? HEADER_SIZE K) then
    throw (InvalidOperation HeaderSizeUnexpected)
  else
  let actualCRC := crc16ccitt (drop 6 data) in
  if negb (actualCRC =? expectedCRC) then
    throw (InvalidOperation CRCMismatch)
  else if negb (bytecodeVersion =? BYTECODE_VERSION K) then
    throw (InvalidOperation (BytecodeVersionNotSupported bytecodeVersion))
  else
  let* requiredEngineVersion := readHeaderField16 "requiredEngineVersion" false in
  let* requiredFeatureFlags := readHeaderField32 "requiredFeatureFlags" false in
  let* globalVariableCount := readHeaderField16 "globalVariableCount" false in
  let* initialDataOffset := readHeaderField16 "initialDataOffset" true in
  let* initialDataSize := readHeaderField16 "initialDataSize" false in
  let* initialHeapOffset := readHeaderField16 "initialHeapOffset" true in
  let* initialHeapSize := readHeaderField16 "initialHeapSize" false in
  let* gcRootsOffset := readHeaderField16 "gcRootsOffset" true in
  let* gcRootsCount := readHeaderField16 "gcRootsCount" false in
  let* importTableOffset := readHeaderField16 "importTableOffset" true in
  let* importTableSize := readHeaderField16 "importTableSize" false in
  let* exportTableOffset := readHeaderField16 "exportTableOffset" true in
  let* exportTableSize := readHeaderField16 "exportTableSize" false in
  let* shortCallTableOffset := readHeaderField16 "shortCallTableOffset" true in
  let* shortCallTableSize := readHeaderField16 "shortCallTableSize" false in
  let* stringTableOffset := readHeaderField16 "stringTableOffset" true in
  let* stringTableSize := readHeaderField16 "stringTableSize" false in
  endRegion "Header" ;;
  if negb (requiredEngineVersion =? ENGINE_VERSION K) then
    throw (InvalidOperation (EngineVersionNotSupported requiredEngineVersion))
  else
  decodeFlags requiredFeatureFlags ;;
  decodeGlobalSlots initialDataOffset globalVariableCount initialHeapOffset ;;
  let* s := get in
  pushComponent (Entry (Some (readOffset s)) None None
                   (Region "Data allocations" (dataAllocationsMapping s))) ;;
  pushComponent (Entry None None None
                   (Region "GC allocations" (gcAllocationsMapping s))) ;;
  let* s := get in
  if negb (bool_decide (regionStack s = [])) then throw AssertionFailed else
  ret (snapshotInfo s,
       {| bytecodeSize := bufferLength; components := region s |}).

Definition decodeSnapshot : Result Error (SnapshotInfo * SnapshotMapping) :=
  match decodeSnapshot_body initialState with
  | OK (r, _) => OK r
  | Err e => Err e
  end.

End WithSnapshot.

(** Constants used to run the decoder on concrete images: the header read
    by [decodeSnapshot] is 42 bytes long; the well-known values are
    consecutive words at the start of the program-ROM section. *)
Definition sampleConstants : Constants := {|
  HEADER_SIZE := 42;
  BYTECODE_VERSION := 1;
  ENGINE_VERSION := 0;
  VM_VALUE_UNDEFINED := 0xC000;
  VM_VALUE_NULL := 0xC001;
  VM_VALUE_TRUE := 0xC002;
  VM_VALUE_FALSE := 0xC003;
  VM_VALUE_NAN := 0xC004;
  VM_VALUE_NEG_ZERO := 0xC005;
  VM_VALUE_DELETED := 0xC006;
  VM_VALUE_WELLKNOWN_END := 0xC007;
  TC_REF_ARRAY := 0x4
|}.

(** The seven well-known words are pairwise distinct and lie in the
    reserved prefix of the program-ROM section. This is what the enumeration
    [vm_TeWellKnownValues] has to satisfy for the [switch] of [decodeValue]
    to tell them apart. *)
Definition wellKnownWords (K : Constants) : list Z :=
  [VM_VALUE_UNDEFINED K; VM_VALUE_NULL K; VM_VALUE_TRUE K; VM_VALUE_FALSE K;
   VM_VALUE_NAN K; VM_VALUE_NEG_ZERO K; VM_VALUE_DELETED K].

Definition wellKnownPrefix (K : Constants) : Prop :=
  NoDup (wellKnownWords K) ∧
  Forall (λ w, Z.land w 0xC000 = VM_TAG_PGM_P ∧ w < VM_VALUE_WELLKNOWN_END K)
         (wellKnownWords K).

(** The state after [decodeValue] has read a word at the read offset and
    recorded [c] for it. *)
Definition recorded (c : SnapshotMappingComponent) (s : State) : State :=
  set_region (region s ++ [Entry (Some (readOffset s)) (Some 2) None c])
             (set_readOffset (readOffset s + 2) s).

(** *** The checked header fields *)

Definition bytecodeVersionOf (data : list byte) : Z := uint8At data 0.
Definition headerSizeOf (data : list byte) : Z := uint8At data 1.
Definition bytecodeSizeOf (data : list byte) : Z := uint16LEAt data 2.
Definition expectedCRCOf (data : list byte) : Z := uint16LEAt data 4.
Definition requiredEngineVersionOf (data : list byte) : Z := uint16LEAt data 6.

(** The first three checks of [decodeSnapshot] pass. *)
Definition integrityChecksPass (K : Constants) (data : list byte) : Prop :=
  6 ≤ bufferLength data ∧
  bytecodeSizeOf data = bufferLength data ∧
  headerSizeOf data = HEADER_SIZE K ∧
  crc16ccitt (drop 6 data) = expectedCRCOf data.

(** All five checks of [decodeSnapshot] pass. *)
Definition allChecksPass (K : Constants) (data : list byte) : Prop :=
  integrityChecksPass K data ∧
  bytecodeVersionOf data = BYTECODE_VERSION K ∧
  42 ≤ bufferLength data ∧
  requiredEngineVersionOf data = ENGINE_VERSION K.

(** The errors other than those raised through [invalidOperation]. *)
Definition structuralError (e : Error) : Prop :=
  match e with
  | InvalidOperation _ => False
  | _ => True
  end.

(** The state of [decodeSnapshot] while it reads the header: the read
    offset is [o] and the current region is the one opened by
    [beginRegion('Header')]. *)
Definition readingHeader (s : State) (o : Z) : Prop :=
  readOffset s = o ∧ regionName s = Some "Header"%string ∧
  ∃ parent, regionStack s = [(parent, None, 0)].

(** The outcome of [decodeSnapshot], check by check. *)
Inductive Outcome (K : Constants) (data : list byte)
  : Result Error (SnapshotInfo * SnapshotMapping) → Prop :=
| TooShortForChecks :
    bufferLength data < 6 → Outcome K data (Err ReadBeyondBounds)
| SizeMismatch :
    6 ≤ bufferLength data → bytecodeSizeOf data ≠ bufferLength data →
    Outcome K data (Err (InvalidOperation BytecodeSizeMismatch))
| HeaderSizeMismatch :
    6 ≤ bufferLength data → bytecodeSizeOf data = bufferLength data →
    headerSizeOf data ≠ HEADER_SIZE K →
    Outcome K data (Err (InvalidOperation HeaderSizeUnexpected))
| CRCFailure :
    6 ≤ bufferLength data → bytecodeSizeOf data = bufferLength data →
    headerSizeOf data = HEADER_SIZE K →
    crc16ccitt (drop 6 data) ≠ expectedCRCOf data →
    Outcome K data (Err (InvalidOperation CRCMismatch))
| VersionMismatch :
    integrityChecksPass K data →
    bytecodeVersionOf data ≠ BYTECODE_VERSION K →
    Outcome K data
      (Err (InvalidOperation (BytecodeVersionNotSupported (bytecodeVersionOf data))))
| TooShortForHeader :
    integrityChecksPass K data →
    bytecodeVersionOf data = BYTECODE_VERSION K →
    bufferLength data < 42 →
    Outcome K data (Err ReadBeyondBounds)
| EngineMismatch :
    integrityChecksPass K data →
    bytecodeVersionOf data = BYTECODE_VERSION K →
    42 ≤ bufferLength data →
    requiredEngineVersionOf data ≠ ENGINE_VERSION K →
    Outcome K data
      (Err (InvalidOperation
              (EngineVersionNotSupported (requiredEngineVersionOf data))))
| ChecksPassed r :
    allChecksPass K data →
    (∀ e, r = Err e → structuralError e) →
    Outcome K data r.

(** *** Undoing a CRC shift *)

Definition crc16_unshift (crc : Z) : Z :=
  if Z.testbit crc 0
  then Z.lor (Z.shiftr (Z.lxor crc 0x1021) 1) 0x8000
  else Z.shiftr crc 1.

(** [P] holds for the [n] integers from [x] on. *)
Fixpoint holdsFrom (n : nat) (x : Z) (P : Z → bool) : bool :=
  match n with
  | O => true
  | S n' => P x && holdsFrom n' (x + 1) P
  end.

(** *** Concrete images *)

Definition byte_of_Z (z : Z) : byte :=
  match Byte.of_N (Z.to_N (z `mod` 256)) with
  | Some b => b
  | None => x00
  end.

Definition u16le (z : Z) : list byte := [byte_of_Z z; byte_of_Z (z / 256)].

(** Puts the first six bytes (version, header size, image size, CRC) in
    front of the bytes [rest] that follow them. *)
Definition sealImage (K : Constants) (rest : list byte) : list byte :=
  [byte_of_Z (BYTECODE_VERSION K); byte_of_Z (HEADER_SIZE K)] ++
  u16le (Z.of_nat (length rest) + 6) ++ u16le (crc16ccitt rest) ++ rest.

(** The header fields from offset 6 on, for an image without tables. *)
Definition headerRest (K : Constants) (requiredFeatureFlags : list byte)
    (globalVariableCount initialDataOffset : Z) : list byte :=
  u16le (ENGINE_VERSION K) ++ requiredFeatureFlags ++
  u16le globalVariableCount ++ u16le initialDataOffset ++
  u16le (2 * globalVariableCount) ++
  concat (replicate 12 (u16le 0)).

(** An image with no globals that requires all 32 feature flags. *)
Definition imageAllFlags : list byte :=
  sealImage sampleConstants
    (headerRest sampleConstants [xff; xff; xff; xff] 0 42).

(** An image that announces one global at offset 42 and ends after the
    header. *)
Definition imageMissingGlobal : list byte :=
  sealImage sampleConstants
    (headerRest sampleConstants [x00; x00; x00; x00] 1 42).

(** An image with one global whose word is [0x2000]. *)
Definition imageGlobal0x2000 : list byte :=
  sealImage sampleConstants
    (headerRest sampleConstants [x00; x00; x00; x00] 1 42 ++ u16le 0x2000).

(** *** What a decoded image holds *)

(** The allocation identifiers that have been given out are below the next
    one, and no two addresses share one. *)
Definition idsWellFormed (s : State) : Prop :=
  (∀ a i, allocationIDByAddress s !! a = Some i → (i < nextAllocationID s)%nat) ∧
  (∀ a a' i, allocationIDByAddress s !! a = Some i →
             allocationIDByAddress s !! a' = Some i → a = a').

(** What looking up an allocation leaves as it is: the read offset, the
    regions and the snapshot information. *)
Definition sameRegions (s s' : State) : Prop :=
  readOffset s' = readOffset s ∧ region s' = region s ∧
  regionStack s' = regionStack s ∧ regionName s' = regionName s ∧
  regionStart s' = regionStart s ∧ snapshotInfo s' = snapshotInfo s ∧
  dataAllocationsMapping s' = dataAllocationsMapping s.

(** From [s] to [s'] allocations have been looked up: the identifiers that
    were given out stay, and they stay well formed. *)
Definition allocated (s s' : State) : Prop :=
  sameRegions s s' ∧
  (idsWellFormed s → idsWellFormed s') ∧
  (∀ a i, allocationIDByAddress s !! a = Some i →
          allocationIDByAddress s' !! a = Some i).

(** The entry that [decodeValue] records for the word at [offset] that it
    has decoded as [v]. *)
Definition valueEntry (data : list byte) (offset : Z) (label : string)
    (v : option IL.Value) : MappingEntry :=
  Entry (Some offset) (Some 2) None
        (valueComponent label (uint16LEAt data offset) v).

(** The entries of the region [Globals] for the values [values] of the
    globals from number [i] on, whose words start at [offset]; and the
    global slots with these values. *)
Definition globalEntries (data : list byte) (offset : Z) (i : nat)
    (values : list (option IL.Value)) : SnapshotMappingComponents :=
  imap (λ k v, valueEntry data (offset + 2 * Z.of_nat k)
                 ("[" +:+ pretty (i + k)%nat +:+ "]")%string v) values.

Definition globalSlotsOf (i : nat) (values : list (option IL.Value))
  : list (string * GlobalSlot) :=
  imap (λ k v, (("global" +:+ pretty (i + k)%nat)%string,
                {| value := v; indexHint := (i + k)%nat |})) values.

(** The value that a word stands for by itself, when it is not a pointer:
    an integer of 14 bits or one of the well-known values. *)
Definition isPointer (K : Constants) (u16 : Z) : bool :=
  negb (Z.land u16 0xC000 =? 0) &&
  negb ((Z.land u16 0xC000 =? VM_TAG_PGM_P) && (u16 <? VM_VALUE_WELLKNOWN_END K)).

(** The header, field by field. *)
Definition headerField16 (data : list byte) (name : string) (offset : Z)
    (isOffset : bool) : MappingEntry :=
  Entry (Some offset) (Some 2) None (HeaderField name (uint16LEAt data offset) isOffset).

Definition headerFields (data : list byte) : SnapshotMappingComponents :=
  [Entry (Some 0) (Some 1) None (HeaderField "bytecodeVersion" (uint8At data 0) false);
   Entry (Some 1) (Some 1) None (HeaderField "headerSize" (uint8At data 1) false);
   headerField16 data "bytecodeSize" 2 false;
   headerField16 data "expectedCRC" 4 true;
   headerField16 data "requiredEngineVersion" 6 false;
   Entry (Some 8) (Some 4) None
     (HeaderField "requiredFeatureFlags" (uint32LEAt data 8) false);
   headerField16 data "globalVariableCount" 12 false;
   headerField16 data "initialDataOffset" 14 true;
   headerField16 data "initialDataSize" 16 false;
   headerField16 data "initialHeapOffset" 18 true;
   headerField16 data "initialHeapSize" 20 false;
   headerField16 data "gcRootsOffset" 22 true;
   headerField16 data "gcRootsCount" 24 false;
   headerField16 data "importTableOffset" 26 true;
   headerField16 data "importTableSize" 28 false;
   headerField16 data "exportTableOffset" 30 true;
   headerField16 data "exportTableSize" 32 false;
   headerField16 data "shortCallTableOffset" 34 true;
   headerField16 data "shortCallTableSize" 36 false;
   headerField16 data "stringTableOffset" 38 true;
   headerField16 data "stringTableSize" 40 false].

Definition requiredFeatureFlagsOf (data : list byte) : Z := uint32LEAt data 8.
Definition globalVariableCountOf (data : list byte) : Z := uint16LEAt data 12.
Definition initialDataOffsetOf (data : list byte) : Z := uint16LEAt data 14.
Definition initialHeapOffsetOf (data : list byte) : Z := uint16LEAt data 18.

(** The state of [decodeSnapshot] after the header has been read and its
    region closed. *)
Definition afterHeader (data : list byte) : State :=
  {| readOffset := 42;
     region := [Entry (Some 0) None None (Region "Header" (headerFields data))];
     regionStack := [];
     regionName := None;
     regionStart := 0;
     dataAllocationsMapping := [];
     gcAllocationsMapping := [];
     processedAllocations := ∅;
     nextAllocationID := 1;
     allocationIDByAddress := ∅;
     snapshotInfo := {| globalSlots := []; flags := [] |} |}.

(** The feature flags of an image: the bits that are set in the field
    [requiredFeatureFlags], in increasing order. *)
Definition flagsOf (data : list byte) : list nat :=
  filter (λ i, Z.testbit (requiredFeatureFlagsOf data) (Z.of_nat i) = true) (seq 0 32).

(** What [decodeSnapshot] returns for the image [imageGlobal0x2000]. *)
Definition sampleDecoded : SnapshotInfo * SnapshotMapping :=
  match decodeSnapshot sampleConstants imageGlobal0x2000 with
  | OK r => r
  | Err _ => ({| globalSlots := []; flags := [] |},
              {| bytecodeSize := 0; components := [] |})
  end.

(** [getLogicalAddress], for an offset and a size that are defined. The
    offsets and sizes of the heap and of the data are the header fields of
    these names, variables of the enclosing [decodeSnapshot]. *)
Definition getLogicalAddress (K : Constants)
    (initialHeapOffset initialHeapSize initialDataOffset initialDataSize : Z)
    (offset size : Z) : option Z :=
  let assumedOffset := if size =? 0 then offset - 1 else offset in
  if (initialHeapOffset <=? assumedOffset) &&
     (assumedOffset <? initialHeapOffset + initialHeapSize) then
    Some (0x4000 + offset - initialHeapOffset)
  else if (initialDataOffset <=? assumedOffset) &&
          (assumedOffset <? initialDataOffset + initialDataSize) then
    Some (0x8000 + offset - initialDataOffset)
  else if HEADER_SIZE K <=? assumedOffset then Some (0xC000 + offset)
  else None.

(** An image with two globals that hold the same pointer [0x4002] to an
    allocation of the heap; the heap starts at offset 46 with the header
    word of the allocation. *)
Definition imageSharedPointer : list byte :=
  sealImage sampleConstants
    (u16le (ENGINE_VERSION sampleConstants) ++ [x00; x00; x00; x00] ++
     u16le 2 ++ u16le 42 ++ u16le 4 ++ u16le 46 ++ u16le 4 ++
     concat (replicate 10 (u16le 0)) ++
     u16le 0x4002 ++ u16le 0x4002 ++ u16le 0x1002 ++ u16le 0).

(** The state after the allocation at [0x4002] of that image has been
    looked up for the first time. *)
Definition sampleAllocated : State :=
  match decodeAllocation sampleConstants imageSharedPointer 46 0x4002 initialState with
  | OK (_, s') => s'
  | Err _ => initialState
  end.

End Decoder.


(** ** Slot computation (pass-2-compute-slots.ts, [pass2_computeSlots]) *)

Module Pass2.

(** *** The scope model

    [./analysis-model] is not among the sources; the types below have the
    fields that pass 2 reads and writes. *)

(** The [moduleNamespaceObjectSlot] of a [ModuleImportExportSlot] is a
    [GlobalSlot]; it is given by its name. *)
Inductive Slot : Type :=
| LocalSlot (index : nat)
| ArgumentSlot (argIndex : nat)
| ClosureSlot (index : nat)
| GlobalSlot (name : string)
| ModuleImportExportSlot (moduleNamespaceObjectSlot : string) (propertyName : string).

Inductive BindingKind : Type :=
| KindVar | KindLet | KindConst | KindParam | KindThis | KindImport | KindExport.

Record Binding : Type := {
  name : string;
  kind : BindingKind;
  isWrittenTo : bool;
  isAccessedByNestedFunction : bool;
  isExported : bool;
  slot : option Slot
}.

(** Bindings are objects shared between the lists of a scope and the
    references to them; a [BindingRef] is the identity of such an object, an
    index into the store of bindings. *)
Abbreviation BindingRef := nat (only parsing).

Inductive PrologueStep : Type :=
| ScopePush (slotCount : nat)
| InitVarDeclaration (slot : Slot)
| InitLexicalDeclaration (slot : Slot)
| InitFunctionDeclaration (functionId : string) (functionIsClosure : bool) (slot : Slot)
| InitParameter (argIndex : nat) (slot : Slot)
| InitThis (slot : Slot).

Inductive ScopeType : Type := ModuleScope | FunctionScope | BlockScope.

Record NestedFunctionDeclaration : Type := {
  binding : BindingRef;
  func : nat                   (* the function node, key of [model.scopes] *)
}.

(** A scope with the fields read by pass 2. [scopeId] is the identity of the
    scope object; the fields pass 2 writes ([prologue], [closureSlots],
    [epiloguePopCount]) are kept in the state under this identity.
    [thisBinding], [parameterBindings], [ilFunctionId] and
    [functionIsClosure] are the fields of a [FunctionScope]. *)
#[warnings="-register-all"]
Inductive Scope : Type :=
| MkScope (type : ScopeType) (scopeId : nat)
    (bindings varDeclarations lexicalDeclarations : list BindingRef)
    (nestedFunctionDeclarations : list NestedFunctionDeclaration)
    (children : list Scope)
    (thisBinding : option BindingRef) (parameterBindings : list BindingRef)
    (ilFunctionId : string) (functionIsClosure : bool).

Definition type (s : Scope) : ScopeType :=
  let 'MkScope t _ _ _ _ _ _ _ _ _ _ := s in t.
Definition scopeId (s : Scope) : nat :=
  let 'MkScope _ i _ _ _ _ _ _ _ _ _ := s in i.
Definition bindings (s : Scope) : list BindingRef :=
  let 'MkScope _ _ b _ _ _ _ _ _ _ _ := s in b.
Definition varDeclarations (s : Scope) : list BindingRef :=
  let 'MkScope _ _ _ v _ _ _ _ _ _ _ := s in v.
Definition lexicalDeclarations (s : Scope) : list BindingRef :=
  let 'MkScope _ _ _ _ l _ _ _ _ _ _ := s in l.
Definition nestedFunctionDeclarations (s : Scope) : list NestedFunctionDeclaration :=
  let 'MkScope _ _ _ _ _ n _ _ _ _ _ := s in n.
Definition children (s : Scope) : list Scope :=
  let 'MkScope _ _ _ _ _ _ c _ _ _ _ := s in c.
Definition thisBinding (s : Scope) : option BindingRef :=
  let 'MkScope _ _ _ _ _ _ _ t _ _ _ := s in t.
Definition parameterBindings (s : Scope) : list BindingRef :=
  let 'MkScope _ _ _ _ _ _ _ _ p _ _ := s in p.
Definition ilFunctionId (s : Scope) : string :=
  let 'MkScope _ _ _ _ _ _ _ _ _ f _ := s in f.
Definition functionIsClosure (s : Scope) : bool :=
  let 'MkScope _ _ _ _ _ _ _ _ _ _ c := s in c.

Inductive ImportSpecifierKind : Type :=
| ImportSpecifier (imported : string)
| ImportNamespaceSpecifier
| ImportDefaultSpecifier.

Record ImportBinding : Type := {
  source : string;
  specifier : ImportSpecifierKind
}.

(** *** The state of the analysis

    Where the source holds an object of type [GlobalSlot], the state holds
    its name. *)

Abbreviation GlobalSlotName := string (only parsing).

Record State : Type := {
  bindingStore : list Binding;               (* the binding objects *)
  prologue : gmap nat (list PrologueStep);   (* [scope.prologue], by scope *)
  closureSlots : gmap nat (list Slot);       (* [functionScope.closureSlots] *)
  epiloguePopCount : gmap nat nat;           (* [blockScope.epiloguePopCount] *)
  globalSlots : list GlobalSlotName;         (* [model.globalSlots] *)
  globalSlotNames : gset string;
  importedModuleNamespaceSlots : gmap string GlobalSlotName;
  moduleImports : list (GlobalSlotName * string);   (* [model.moduleImports] *)
  thisModuleSlot : option GlobalSlotName     (* [model.thisModuleSlot] *)
}.

Definition set_bindingStore (x : list Binding) (s : State) : State :=
  {| bindingStore := x; prologue := prologue s; closureSlots := closureSlots s;
     epiloguePopCount := epiloguePopCount s; globalSlots := globalSlots s;
     globalSlotNames := globalSlotNames s;
     importedModuleNamespaceSlots := importedModuleNamespaceSlots s;
     moduleImports := moduleImports s; thisModuleSlot := thisModuleSlot s |}.

Definition set_prologue (x : gmap nat (list PrologueStep)) (s : State) : State :=
  {| bindingStore := bindingStore s; prologue := x; closureSlots := closureSlots s;
     epiloguePopCount := epiloguePopCount s; globalSlots := globalSlots s;
     globalSlotNames := globalSlotNames s;
     importedModuleNamespaceSlots := importedModuleNamespaceSlots s;
     moduleImports := moduleImports s; thisModuleSlot := thisModuleSlot s |}.

Definition set_closureSlots (x : gmap nat (list Slot)) (s : State) : State :=
  {| bindingStore := bindingStore s; prologue := prologue s; closureSlots := x;
     epiloguePopCount := epiloguePopCount s; globalSlots := globalSlots s;
     globalSlotNames := globalSlotNames s;
     importedModuleNamespaceSlots := importedModuleNamespaceSlots s;
     moduleImports := moduleImports s; thisModuleSlot := thisModuleSlot s |}.

Definition set_epiloguePopCount (x : gmap nat nat) (s : State) : State :=
  {| bindingStore := bindingStore s; prologue := prologue s;
     closureSlots := closureSlots s;
     epiloguePopCount := x; globalSlots := globalSlots s;
     globalSlotNames := globalSlotNames s;
     importedModuleNamespaceSlots := importedModuleNamespaceSlots s;
     moduleImports := moduleImports s; thisModuleSlot := thisModuleSlot s |}.

Definition set_globals (slots : list GlobalSlotName) (names : gset string) (s : State)
  : State :=
  {| bindingStore := bindingStore s; prologue := prologue s;
     closureSlots := closureSlots s;
     epiloguePopCount := epiloguePopCount s; globalSlots := slots;
     globalSlotNames := names;
     importedModuleNamespaceSlots := importedModuleNamespaceSlots s;
     moduleImports := moduleImports s; thisModuleSlot := thisModuleSlot s |}.

Definition set_imports (slots : gmap string GlobalSlotName)
    (imports : list (GlobalSlotName * string)) (s : State) : State :=
  {| bindingStore := bindingStore s; prologue := prologue s;
     closureSlots := closureSlots s;
     epiloguePopCount := epiloguePopCount s; globalSlots := globalSlots s;
     globalSlotNames := globalSlotNames s;
     importedModuleNamespaceSlots := slots;
     moduleImports := imports; thisModuleSlot := thisModuleSlot s |}.

Definition set_thisModuleSlot (x : option GlobalSlotName) (s : State) : State :=
  {| bindingStore := bindingStore s; prologue := prologue s;
     closureSlots := closureSlots s;
     epiloguePopCount := epiloguePopCount s; globalSlots := globalSlots s;
     globalSlotNames := globalSlotNames s;
     importedModuleNamespaceSlots := importedModuleNamespaceSlots s;
     moduleImports := moduleImports s; thisModuleSlot := x |}.

Inductive Error : Type :=
| AssertionFailed        (* [hardAssert(...)] *)
| Unexpected             (* [unexpected()] *)
| DanglingBinding.       (* a [BindingRef] outside the store *)

Definition P (A : Type) : Type := M Error State A.

(** Reading a binding object, and the assignment [binding.slot = slot]. *)
Definition getBinding (b : BindingRef) : P Binding :=
  let* s := get in
  match bindingStore s !! b with
  | Some x => ret x
  | None => throw DanglingBinding
  end.

Definition withSlot (x : Binding) (sl : option Slot) : Binding :=
  {| name := name x; kind := kind x; isWrittenTo := isWrittenTo x;
     isAccessedByNestedFunction := isAccessedByNestedFunction x;
     isExported := isExported x; slot := sl |}.

Definition setSlot (b : BindingRef) (sl : option Slot) : P unit :=
  let* x := getBinding b in
  modify (λ s, set_bindingStore (<[b := withSlot x sl]> (bindingStore s)) s).

(** [scope.prologue.push(step)] and [scope.prologue.unshift(step)] *)
Definition prologueOf (s : State) (scope : nat) : list PrologueStep :=
  default [] (prologue s !! scope).

Definition pushPrologue (scope : nat) (step : PrologueStep) : P unit :=
  modify (λ s, set_prologue (<[scope := prologueOf s scope ++ [step]]> (prologue s)) s).

Definition unshiftPrologue (scope : nat) (step : PrologueStep) : P unit :=
  modify (λ s, set_prologue (<[scope := step :: prologueOf s scope]> (prologue s)) s).

Definition hardAssert (c : bool) : P unit :=
  if c then ret tt else throw AssertionFailed.

(** *** Slots of a function

    The variables [closureSlots] and [stackDepth] of [computeFunctionSlots],
    which its closures [nextClosureSlot] and [pushLocalSlot] update. *)
Record Locals : Type := {
  localClosureSlots : list Slot;
  stackDepth : nat
}.

Definition pushLocalSlot (l : Locals) : P (Slot * Locals) :=
  ret (LocalSlot (stackDepth l),
       {| localClosureSlots := localClosureSlots l; stackDepth := S (stackDepth l) |}).

Definition nextClosureSlot (functionScope : nat) (l : Locals) : P (Slot * Locals) :=
  let slot := ClosureSlot (length (localClosureSlots l)) in
  let slots := localClosureSlots l ++ [slot] in
  modify (λ s, set_closureSlots (<[functionScope := slots]> (closureSlots s)) s) ;;
  ret (slot, {| localClosureSlots := slots; stackDepth := stackDepth l |}).

Definition createLocalOrClosureSlot (functionScope : nat) (b : BindingRef) (l : Locals)
  : P (Slot * Locals) :=
  let* x := getBinding b in
  hardAssert (negb (bool_decide (is_Some (slot x)))) ;;
  if isAccessedByNestedFunction x
  then nextClosureSlot functionScope l
  else pushLocalSlot l.

(** The body of the loop over [functionScope.parameterBindings.entries()],
    for the entry [(paramI, b)]. *)
Definition computeParameterSlot (functionScope : nat) (paramI : nat) (b : BindingRef)
    (l : Locals) : P Locals :=
  let argIndex := (paramI + 1)%nat in
  let* x := getBinding b in
  if isAccessedByNestedFunction x then
    let* (sl, l) := nextClosureSlot functionScope l in
    setSlot b (Some sl) ;;
    pushPrologue functionScope (InitParameter argIndex sl) ;;
    ret l
  else if isWrittenTo x then
    let* (sl, l) := pushLocalSlot l in
    setSlot b (Some sl) ;;
    pushPrologue functionScope (InitParameter argIndex sl) ;;
    ret l
  else
    setSlot b (Some (ArgumentSlot argIndex)) ;;
    ret l.

(** The loop itself, from the entry [paramI] on. *)
Fixpoint computeParameterSlots (functionScope : nat) (paramI : nat)
    (params : list BindingRef) (l : Locals) : P Locals :=
  match params with
  | [] => ret l
  | b :: params' =>
      let* l := computeParameterSlot functionScope paramI b l in
      computeParameterSlots functionScope (S paramI) params' l
  end.

(** The slot of the [this] binding [b]: the body of [if (thisBinding)]. *)
Definition computeThisSlot (functionScope : nat) (b : BindingRef) (l : Locals)
  : P Locals :=
  let* x := getBinding b in
  hardAssert (negb (isWrittenTo x)) ;;
  if isAccessedByNestedFunction x then
    let* (sl, l) := nextClosureSlot functionScope l in
    setSlot b (Some sl) ;;
    pushPrologue functionScope (InitThis sl) ;;
    ret l
  else
    setSlot b (Some (ArgumentSlot 0)) ;;
    ret l.

Definition computeIlFunctionParameterSlots (functionScope : Scope) (l : Locals)
  : P Locals :=
  let* l :=
    match thisBinding functionScope with
    | Some b => computeThisSlot (scopeId functionScope) b l
    | None => ret l
    end in
  computeParameterSlots (scopeId functionScope) 0 (parameterBindings functionScope) l.

(** The loop over [functionScope.varDeclarations]. *)
Fixpoint computeVarSlots (functionScope : nat) (vars : list BindingRef) (l : Locals)
  : P Locals :=
  match vars with
  | [] => ret l
  | b :: vars' =>
      let* x := getBinding b in
      let* l :=
        if bool_decide (is_Some (slot x)) then ret l else
        hardAssert (match kind x with KindVar => true | _ => false end) ;;
        let* (sl, l) := createLocalOrClosureSlot functionScope b l in
        setSlot b (Some sl) ;;
        pushPrologue functionScope (InitVarDeclaration sl) ;;
        ret l in
      computeVarSlots functionScope vars' l
  end.

(** The loop over [blockScope.lexicalDeclarations]. *)
Fixpoint computeLexicalSlots (functionScope blockScope : nat) (decls : list BindingRef)
    (l : Locals) : P Locals :=
  match decls with
  | [] => ret l
  | b :: decls' =>
      let* x := getBinding b in
      let* l :=
        if bool_decide (is_Some (slot x)) then ret l else
        let* (sl, l) := createLocalOrClosureSlot functionScope b l in
        setSlot b (Some sl) ;;
        pushPrologue blockScope (InitLexicalDeclaration sl) ;;
        ret l in
      computeLexicalSlots functionScope blockScope decls' l
  end.

Section WithModel.

(** [model.scopes], from function nodes to their scopes; the bindings that
    are imports, with their import; the free variables; and
    [uniqueNameInSet] of [../../utils], which picks a name that is not in the
    set (and, as modelled here, the caller's set then holds it). *)
Variable scopes : gmap nat Scope.
Variable importBindings : gmap BindingRef ImportBinding.
Variable freeVariables : list string.
Variable uniqueNameInSet : string → gset string → string.

(** The loop over [blockScope.nestedFunctionDeclarations]. *)
Fixpoint computeNestedFunctionSlots (functionScope blockScope : nat)
    (decls : list NestedFunctionDeclaration) (l : Locals) : P Locals :=
  match decls with
  | [] => ret l
  | decl :: decls' =>
      let* x := getBinding (binding decl) in
      let* l :=
        if bool_decide (is_Some (slot x)) then ret l else
        let* (sl, l) := createLocalOrClosureSlot functionScope (binding decl) l in
        setSlot (binding decl) (Some sl) ;;
        match scopes !! func decl with
        | None => throw Unexpected
        | Some functionInfo =>
            match type functionInfo with
            | FunctionScope =>
                pushPrologue blockScope
                  (InitFunctionDeclaration (ilFunctionId functionInfo)
                     (functionIsClosure functionInfo) sl) ;;
                ret l
            | _ => throw Unexpected
            end
        end in
      computeNestedFunctionSlots functionScope blockScope decls' l
  end.

(** [computeFunctionSlots] up to its call of [computeBlockSlots]: the
    parameters and the hoisted [var] declarations. *)
Definition computeFunctionSlots_start (functionScope : Scope) : P Locals :=
  let l := {| localClosureSlots := []; stackDepth := 0 |} in
  let* l :=
    match type functionScope with
    | FunctionScope => computeIlFunctionParameterSlots functionScope l
    | _ => ret l
    end in
  computeVarSlots (scopeId functionScope) (varDeclarations functionScope) l.

(** [computeFunctionSlots] after its call of [computeBlockSlots]: the
    [ScopePush] step. *)
Definition computeFunctionSlots_finish (functionScope : Scope) : P unit :=
  let* s := get in
  match closureSlots s !! scopeId functionScope with
  | Some slots => unshiftPrologue (scopeId functionScope) (ScopePush (length slots))
  | None => ret tt
  end.

(** [computeBlockSlots], inside the function scope [functionScope]. For a
    child that is a function scope it runs [computeFunctionSlots], written
    out here as its three parts, with variables of its own. *)
Fixpoint computeBlockSlots (functionScope : nat) (blockScope : Scope) (l : Locals)
    {struct blockScope} : P Locals :=
  match blockScope with
  | MkScope blockType blockId _ _ lexicals nested children _ _ _ _ =>
      let blockStartStackDepth := stackDepth l in
      let* l := computeNestedFunctionSlots functionScope blockId nested l in
      let* l := computeLexicalSlots functionScope blockId lexicals l in
      let* l :=
        foldM (λ l child,
                 match type child with
                 | BlockScope => computeBlockSlots functionScope child l
                 | FunctionScope =>
                     let* l' := computeFunctionSlots_start child in
                     computeBlockSlots (scopeId child) child l' ;;
                     computeFunctionSlots_finish child ;;
                     ret l
                 | ModuleScope => throw Unexpected
                 end) children l in
      match blockType with
      | BlockScope =>
          modify (λ s, set_epiloguePopCount
                    (<[blockId := (stackDepth l - blockStartStackDepth)%nat]>
                       (epiloguePopCount s)) s)
      | _ => ret tt
      end ;;
      ret {| localClosureSlots := localClosureSlots l;
             stackDepth := blockStartStackDepth |}
  end.

Definition computeFunctionSlots (functionScope : Scope) : P unit :=
  let* l := computeFunctionSlots_start functionScope in
  computeBlockSlots (scopeId functionScope) functionScope l ;;
  computeFunctionSlots_finish functionScope.

(** *** Slots of the module *)

Definition newGlobalSlot (nameHint : string) : P GlobalSlotName :=
  let* s := get in
  let name := uniqueNameInSet nameHint (globalSlotNames s) in
  modify (set_globals (globalSlots s ++ [name]) ({[name]} ∪ globalSlotNames s)) ;;
  ret name.

Definition getImportedModuleNamespaceSlot (source : string) : P GlobalSlotName :=
  let* s := get in
  match importedModuleNamespaceSlots s !! source with
  | Some slot => ret slot
  | None =>
      let* slot := newGlobalSlot source in
      modify (λ s, set_imports (<[source := slot]> (importedModuleNamespaceSlots s))
                               (moduleImports s ++ [(slot, source)]) s) ;;
      ret slot
  end.

Definition computeImportBindingSlot (b : BindingRef) : P Slot :=
  match importBindings !! b with
  | None => throw Unexpected
  | Some i =>
      let* moduleNamespaceObjectSlot := getImportedModuleNamespaceSlot (source i) in
      match specifier i with
      | ImportSpecifier imported =>
          ret (ModuleImportExportSlot moduleNamespaceObjectSlot imported)
      | ImportNamespaceSpecifier => ret (GlobalSlot moduleNamespaceObjectSlot)
      | ImportDefaultSpecifier =>
          ret (ModuleImportExportSlot moduleNamespaceObjectSlot "default")
      end
  end.

Definition computeExportBindingSlot (x : Binding) : P Slot :=
  let* s := get in
  ret (ModuleImportExportSlot (default ""%string (thisModuleSlot s)) (name x)).

Definition computeModuleSlot (b : BindingRef) : P (option Slot) :=
  let* x := getBinding b in
  if bool_decide (is_Some (importBindings !! b)) then
    let* sl := computeImportBindingSlot b in ret (Some sl)
  else if isExported x then
    let* sl := computeExportBindingSlot x in ret (Some sl)
  else if isAccessedByNestedFunction x then
    let* sl := newGlobalSlot (name x) in ret (Some (GlobalSlot sl))
  else ret None.

(** The loop over [Object.values(moduleScope.bindings)]. *)
Fixpoint computeRootSlots (bs : list BindingRef) : P unit :=
  match bs with
  | [] => ret tt
  | b :: bs' =>
      let* sl := computeModuleSlot b in
      setSlot b sl ;;
      computeRootSlots bs'
  end.

Definition computeModuleSlots (moduleScope : Scope) : P unit :=
  modify (λ s, set_globals (globalSlots s) (list_to_set freeVariables) s) ;;
  let* sl := newGlobalSlot "thisModule" in
  modify (set_thisModuleSlot (Some sl)) ;;
  computeRootSlots (bindings moduleScope) ;;
  computeFunctionSlots moduleScope.

(** [root] is [scopes.get(file.program)]. *)
Definition pass2_computeSlots (root : option Scope) : P unit :=
  match root with
  | None => throw Unexpected
  | Some root =>
      match type root with
      | ModuleScope => computeModuleSlots root
      | _ => throw Unexpected
      end
  end.

End WithModel.

(** *** What the specification says of the slots *)

Definition slotOf (s : State) (b : BindingRef) : option Slot :=
  x ← bindingStore s !! b; slot x.

Definition isArgumentSlot (sl : option Slot) : bool :=
  match sl with
  | Some (ArgumentSlot _) => true
  | _ => false
  end.

(** The [this] and parameter bindings of the function scopes of a tree. *)
Fixpoint parameterSites (scope : Scope) : list BindingRef :=
  match scope with
  | MkScope t _ _ _ _ _ children this params _ _ =>
      match t with
      | FunctionScope => from_option (λ b, [b]) [] this ++ params
      | _ => []
      end ++ concat (map parameterSites children)
  end.

(** A binding with an [ArgumentSlot] is neither written to nor accessed by
    a nested function. *)
Definition argumentSlotsImmutable (s : State) : Prop :=
  ∀ b x, bindingStore s !! b = Some x → isArgumentSlot (slot x) = true →
         isWrittenTo x = false ∧ isAccessedByNestedFunction x = false.

(** How pass 2 may change the store of bindings on the way from [s] to
    [s']: the flags of a binding stay, and its slot stays, or becomes a slot
    that is not an [ArgumentSlot], or becomes an [ArgumentSlot] while the
    binding is one of [sites] and is neither written to nor accessed by a
    nested function. *)
Definition evolves (sites : BindingRef → Prop) (s s' : State) : Prop :=
  length (bindingStore s') = length (bindingStore s) ∧
  ∀ b x x', bindingStore s !! b = Some x → bindingStore s' !! b = Some x' →
    name x' = name x ∧ kind x' = kind x ∧ isWrittenTo x' = isWrittenTo x ∧
    isAccessedByNestedFunction x' = isAccessedByNestedFunction x ∧
    isExported x' = isExported x ∧
    (slot x' = slot x ∨ isArgumentSlot (slot x') = false ∨
     (sites b ∧ isWrittenTo x = false ∧ isAccessedByNestedFunction x = false)).

(** The [this] binding and the parameter bindings of a function scope. *)
Definition thisAndParameters (functionScope : Scope) : list BindingRef :=
  from_option (λ b, [b]) [] (thisBinding functionScope) ++
  parameterBindings functionScope.

(** [keeps sites c]: the computation [c] changes the store of bindings as
    [evolves sites] allows. *)
Definition keeps (sites : BindingRef → Prop) {A} (c : P A) : Prop :=
  ensures (evolves sites) (λ _, True) c.

(** The slot of the [this] binding [x] and the prologue, as the
    specification describes them. *)
Definition thisSlotAsClaimed (x : Binding) (sl : option Slot)
    (prol : list PrologueStep) : Prop :=
  if isAccessedByNestedFunction x
  then ∃ k, sl = Some (ClosureSlot k) ∧ InitThis (ClosureSlot k) ∈ prol
  else sl = Some (ArgumentSlot 0).

(** The slot of the parameter [x] with index [paramI] and the prologue, as
    the specification describes them. *)
Definition parameterSlotAsClaimed (x : Binding) (paramI : nat) (sl : option Slot)
    (prol : list PrologueStep) : Prop :=
  if isAccessedByNestedFunction x
  then ∃ k, sl = Some (ClosureSlot k) ∧
            InitParameter (paramI + 1) (ClosureSlot k) ∈ prol
  else if isWrittenTo x
  then ∃ k, sl = Some (LocalSlot k) ∧ InitParameter (paramI + 1) (LocalSlot k) ∈ prol
  else sl = Some (ArgumentSlot (paramI + 1)).

(** *** Sample scopes *)

Definition sampleBinding (n : string) (k : BindingKind) (written captured : bool)
  : Binding :=
  {| name := n; kind := k; isWrittenTo := written;
     isAccessedByNestedFunction := captured; isExported := false; slot := None |}.

Definition emptyState (bs : list Binding) : State :=
  {| bindingStore := bs; prologue := ∅; closureSlots := ∅; epiloguePopCount := ∅;
     globalSlots := []; globalSlotNames := ∅; importedModuleNamespaceSlots := ∅;
     moduleImports := []; thisModuleSlot := None |}.

Definition noLocals : Locals := {| localClosureSlots := []; stackDepth := 0 |}.

(** [function (a, b, c) { ... }] where [this] and [a] are only read, [b] is
    assigned to and [c] is used by a nested function. *)
Definition sampleBindings : list Binding :=
  [sampleBinding "this" KindThis false false;
   sampleBinding "a" KindParam false false;
   sampleBinding "b" KindParam true false;
   sampleBinding "c" KindParam false true].

Definition sampleFunctionScope : Scope :=
  MkScope FunctionScope 1 [0; 1; 2; 3]%nat [] [] [] [] (Some 0%nat) [1; 2; 3]%nat "f" false.

(** A function scope whose [this] binding is flagged as written to. *)
Definition writtenThisBindings : list Binding :=
  [sampleBinding "this" KindThis true false].

Definition writtenThisScope : Scope :=
  MkScope FunctionScope 1 [0%nat] [] [] [] [] (Some 0%nat) [] "f" false.

(** A module with the function above as its only child. *)
Definition sampleModuleScope : Scope :=
  MkScope ModuleScope 0 [] [] [] [] [sampleFunctionScope] None [] "" false.

(** The state after pass 2 on that module. *)
Definition sampleResult : State :=
  match pass2_computeSlots ∅ ∅ [] (λ n _, n) (Some sampleModuleScope)
          (emptyState sampleBindings) with
  | OK (_, s') => s'
  | Err _ => emptyState []
  end.

(** *** Imports *)

(** The slot of an import binding, from the slot of the namespace object
    of the module that it is imported from. *)
Definition importSlot (moduleNamespaceObjectSlot : string)
    (specifier : ImportSpecifierKind) : Slot :=
  match specifier with
  | ImportSpecifier imported =>
      ModuleImportExportSlot moduleNamespaceObjectSlot imported
  | ImportNamespaceSpecifier => GlobalSlot moduleNamespaceObjectSlot
  | ImportDefaultSpecifier =>
      ModuleImportExportSlot moduleNamespaceObjectSlot "default"
  end.

(** [model.moduleImports] lists the modules of
    [importedModuleNamespaceSlots] with their slots, each of them once. *)
Definition importsRecorded (s : State) : Prop :=
  (∀ slot source, (slot, source) ∈ moduleImports s ↔
                  importedModuleNamespaceSlots s !! source = Some slot) ∧
  NoDup (moduleImports s).*2.

(** Two bindings that are imported from the module ["m"], and one from the
    module ["n"]. *)
Definition sampleImportBindings : gmap BindingRef ImportBinding :=
  {[ 0%nat := {| source := "m"; specifier := ImportSpecifier "a" |};
     1%nat := {| source := "n"; specifier := ImportNamespaceSpecifier |};
     2%nat := {| source := "m"; specifier := ImportDefaultSpecifier |} ]}.

Definition sampleImports : list Binding :=
  [sampleBinding "a" KindImport false false;
   sampleBinding "n" KindImport false false;
   sampleBinding "d" KindImport false false].

(** The state after the loop over these three bindings. *)
Definition sampleImported : State :=
  match computeRootSlots sampleImportBindings (λ n _, n) [0; 1; 2]%nat
          (emptyState sampleImports) with
  | OK (_, s') => s'
  | Err _ => emptyState []
  end.

(** *** Declarations of a block *)

(** The binding [b] is accessed by a nested function. *)
Definition captured (s : State) (b : BindingRef) : bool :=
  match bindingStore s !! b with
  | Some x => isAccessedByNestedFunction x
  | None => false
  end.

(** How many of the bindings [bs] get a local slot, and how many a
    closure slot. *)
Definition localCount (s : State) (bs : list BindingRef) : nat :=
  length (filter (λ b, captured s b = false) bs).

Definition closureCount (s : State) (bs : list BindingRef) : nat :=
  length (filter (λ b, captured s b = true) bs).

(** The slot of the declaration [b] that comes after the declarations
    [before], all without a slot so far, when the slots are counted from
    [l] on. *)
Definition declaredSlot (s : State) (l : Locals) (before : list BindingRef)
    (b : BindingRef) : Slot :=
  if captured s b
  then ClosureSlot (length (localClosureSlots l) + closureCount s before)
  else LocalSlot (stackDepth l + localCount s before).

(** The bindings [bs] are different bindings of the store that have no
    slot. *)
Definition unslotted (s : State) (bs : list BindingRef) : Prop :=
  NoDup bs ∧
  ∀ b, b ∈ bs → ∃ x, bindingStore s !! b = Some x ∧ slot x = None.

(** [{ let a; let b; let c; }] where [b] is used by a nested function. *)
Definition sampleLexicals : list Binding :=
  [sampleBinding "a" KindLet false false;
   sampleBinding "b" KindLet false true;
   sampleBinding "c" KindConst false false].

(** The declarations of a block: the bindings of its nested function
    declarations, then its lexical declarations. *)
Definition declarations (blockScope : Scope) : list BindingRef :=
  map binding (nestedFunctionDeclarations blockScope) ++ lexicalDeclarations blockScope.

(** A block with the declarations [sampleLexicals], and in it a block with
    one more declaration. *)
Definition sampleInnerBlock : Scope :=
  MkScope BlockScope 2 [3%nat] [] [3%nat] [] [] None [] "" false.

Definition sampleBlockScope : Scope :=
  MkScope BlockScope 1 [0; 1; 2]%nat [] [0; 1; 2]%nat [] [sampleInnerBlock] None [] ""
    false.

Definition sampleBlockBindings : list Binding :=
  sampleLexicals ++ [sampleBinding "d" KindLet false false].

(** The result of [computeBlockSlots] for that block. *)
Definition sampleBlockSlots : Locals * State :=
  match computeBlockSlots ∅ 0 sampleBlockScope noLocals (emptyState sampleBlockBindings)
  with
  | OK r => r
  | Err _ => (noLocals, emptyState [])
  end.

End Pass2.


(** ** Lowering to IL (the compiler part of pass-2-compute-slots.ts) *)

Module SrcToIL.

Import IL.
Local Open Scope Z_scope.

(** *** IL operations

    [../il] is not among the sources. The opcodes are those that the
    compiler emits; the table [IL.opcodes], [minOperandCount],
    [IL.calcStaticStackChangeOfOp] and the bounds [IL.MAX_INDEX] and
    [IL.MAX_COUNT] are parameters ([Tables] below). *)

Inductive Opcode : Type :=
| ArrayNew | BinOp | Branch | Call | ClosureNew | Jump | Literal | LoadArg
| LoadGlobal | LoadScoped | LoadVar | Nop | ObjectGet | ObjectNew | ObjectSet
| Pop | Return | ScopePush | StoreGlobal | StoreScoped | StoreVar | UnOp.

#[global] Instance Opcode_eq_dec : EqDecision Opcode.
Proof. solve_decision. Defined.

(** The identifier of a block: ['entry'], or [`block${n}`]. *)
Inductive BlockID : Type :=
| entry
| block (n : nat).

(** A [LabelOperand] is an object whose [targetBlockID] is filled in when
    its block is created; the operand holds the identity of that object, an
    index into the store of labels. *)
Inductive Operand : Type :=
| LabelOperand (label : nat)
| NameOperand (name : string)
| IndexOperand (index : Z)
| CountOperand (count : Z)
| LiteralOperand (literal : IL.Value)
| OpOperand (subOperation : string).

(** [operand.type] *)
Definition operandType (operand : Operand) : string :=
  match operand with
  | LabelOperand _ => "LabelOperand"
  | NameOperand _ => "NameOperand"
  | IndexOperand _ => "IndexOperand"
  | CountOperand _ => "CountOperand"
  | LiteralOperand _ => "LiteralOperand"
  | OpOperand _ => "OpOperand"
  end.

(** An operation, without its source location and comments. [staticInfo]
    is the [minCapacity] that [compileArrayExpression] attaches. *)
Record Operation : Type := {
  opcode : Opcode;
  operands : list Operand;
  stackDepthBefore : Z;
  stackDepthAfter : Z;
  staticInfo : option Z
}.

Record Block : Type := {
  id : BlockID;
  expectedStackDepthAtEntry : Z;
  operations : list Operation
}.

Record Tables : Type := {
  opcodes : Opcode → list string;             (* [IL.opcodes[opcode].operands] *)
  minOperandCount : Opcode → nat;
  calcStaticStackChangeOfOp : Opcode → list Operand → Z;
  MAX_INDEX : Z;
  MAX_COUNT : Z
}.

(** *** Errors *)

Inductive InternalError : Type :=
| OperandTypeMismatch (expectedType actualType : string) (opcode : Opcode)
| IndexOutOfRange (index : Z)
| CountOutOfRange (count : Z)
| IncorrectNumberOfOperands (opcode : Opcode)
| JumpDepthMismatch (stackDepthAfter expectedStackDepthAtEntry : Z)
| BranchTrueDepthMismatch (stackDepthAfter expectedStackDepthAtEntry : Z)
| BranchFalseDepthMismatch (stackDepthAfter expectedStackDepthAtEntry : Z).

Inductive Error : Type :=
| CompileError (message : string)            (* [compileError], [compileErrorIfReachable] *)
| FeatureNotSupported (message : string)     (* [featureNotSupported] *)
| InternalCompileError (e : InternalError)   (* [internalCompileError] *)
| Unexpected                                 (* [unexpected()] *)
| NotImplemented                             (* [notImplemented()] *)
| TypeError.                                 (* a property of [undefined] is read *)

(** *** Scopes of local variables *)

Record LocalVariable : Type := {
  index : Z;
  readonly : bool
}.

(** A [LocalScope] object; [localVariables] in the order of insertion. *)
Record LocalScope : Type := {
  localVariables : list (string * LocalVariable);
  parentScope : option nat
}.

(** *** The state shared by the cursors, and the cursor *)

Record State : Type := {
  nextBlockID : nat;                          (* [ctx.nextBlockID] *)
  blockObjects : list (option Block);         (* the block objects; [None] is a
                                                 predeclared block, still [{}] *)
  labels : list (option BlockID);             (* [targetBlockID] of the label objects *)
  predeclaredBlocks : gmap nat (list nat);    (* block object ↦ its labels *)
  funcBlocks : list (BlockID * nat);          (* [cur.func.blocks] *)
  scopeObjects : list LocalScope              (* the [LocalScope] objects *)
}.

(** The cursor, without [ctx], [unit], [func] (one function is compiled),
    [node], [filename] and [commentNext]. [breakScope] is the chain of break
    scopes, innermost first, each given by its [breakToTarget]. *)
Record Cursor : Type := {
  curBlock : nat;                             (* [cur.block], a block object *)
  stackDepth : Z;
  breakScope : list nat;
  scope : option nat;                         (* [cur.scope], a scope object *)
  unreachable : bool
}.

Definition set_nextBlockID (x : nat) (s : State) : State :=
  {| nextBlockID := x; blockObjects := blockObjects s; labels := labels s;
     predeclaredBlocks := predeclaredBlocks s; funcBlocks := funcBlocks s;
     scopeObjects := scopeObjects s |}.

Definition set_blockObjects (x : list (option Block)) (s : State) : State :=
  {| nextBlockID := nextBlockID s; blockObjects := x; labels := labels s;
     predeclaredBlocks := predeclaredBlocks s; funcBlocks := funcBlocks s;
     scopeObjects := scopeObjects s |}.

Definition set_labels (x : list (option BlockID)) (s : State) : State :=
  {| nextBlockID := nextBlockID s; blockObjects := blockObjects s; labels := x;
     predeclaredBlocks := predeclaredBlocks s; funcBlocks := funcBlocks s;
     scopeObjects := scopeObjects s |}.

Definition set_predeclaredBlocks (x : gmap nat (list nat)) (s : State) : State :=
  {| nextBlockID := nextBlockID s; blockObjects := blockObjects s; labels := labels s;
     predeclaredBlocks := x; funcBlocks := funcBlocks s;
     scopeObjects := scopeObjects s |}.

Definition set_funcBlocks (x : list (BlockID * nat)) (s : State) : State :=
  {| nextBlockID := nextBlockID s; blockObjects := blockObjects s; labels := labels s;
     predeclaredBlocks := predeclaredBlocks s; funcBlocks := x;
     scopeObjects := scopeObjects s |}.

Definition set_scopeObjects (x : list LocalScope) (s : State) : State :=
  {| nextBlockID := nextBlockID s; blockObjects := blockObjects s; labels := labels s;
     predeclaredBlocks := predeclaredBlocks s; funcBlocks := funcBlocks s;
     scopeObjects := x |}.

Definition set_curBlock (x : nat) (cur : Cursor) : Cursor :=
  {| curBlock := x; stackDepth := stackDepth cur; breakScope := breakScope cur;
     scope := scope cur; unreachable := unreachable cur |}.

Definition set_stackDepth (x : Z) (cur : Cursor) : Cursor :=
  {| curBlock := curBlock cur; stackDepth := x; breakScope := breakScope cur;
     scope := scope cur; unreachable := unreachable cur |}.

Definition set_breakScope (x : list nat) (cur : Cursor) : Cursor :=
  {| curBlock := curBlock cur; stackDepth := stackDepth cur; breakScope := x;
     scope := scope cur; unreachable := unreachable cur |}.

Definition set_scope (x : option nat) (cur : Cursor) : Cursor :=
  {| curBlock := curBlock cur; stackDepth := stackDepth cur;
     breakScope := breakScope cur; scope := x; unreachable := unreachable cur |}.

Definition set_unreachable (x : bool) (cur : Cursor) : Cursor :=
  {| curBlock := curBlock cur; stackDepth := stackDepth cur;
     breakScope := breakScope cur; scope := scope cur; unreachable := x |}.

Definition C (A : Type) : Type := M Error State A.

Definition BlockID_eqb (a b : BlockID) : bool :=
  match a, b with
  | entry, entry => true
  | block n, block m => Nat.eqb n m
  | _, _ => false
  end.

(** [cur.func.blocks[id]] *)
Fixpoint lookupBlock (blocks : list (BlockID * nat)) (i : BlockID) : option nat :=
  match blocks with
  | [] => None
  | (j, b) :: blocks' => if BlockID_eqb j i then Some b else lookupBlock blocks' i
  end.

(** [cur.func.blocks[id] = block] *)
Fixpoint storeBlock (blocks : list (BlockID * nat)) (i : BlockID) (b : nat)
  : list (BlockID * nat) :=
  match blocks with
  | [] => [(i, b)]
  | (j, b') :: blocks' =>
      if BlockID_eqb j i then (j, b) :: blocks' else (j, b') :: storeBlock blocks' i b
  end.

(** *** Operands *)

Definition literalOperand (v : IL.Value) : Operand := LiteralOperand v.
Definition countOperand (count : Z) : Operand := CountOperand count.
Definition indexOperand (index : Z) : Operand := IndexOperand index.
Definition nameOperand (name : string) : Operand := NameOperand name.
Definition opOperand (subOperation : string) : Operand := OpOperand subOperation.

(** *** Blocks and labels *)

Definition predeclareBlock : C nat :=
  let* s := get in
  let b := length (blockObjects s) in
  modify (λ s, set_predeclaredBlocks (<[b := []]> (predeclaredBlocks s))
                 (set_blockObjects (blockObjects s ++ [None]) s)) ;;
  ret b.

(** [block.id], undefined for a predeclared block. *)
Definition blockId (s : State) (b : nat) : option BlockID :=
  match blockObjects s !! b with
  | Some (Some bl) => Some (id bl)
  | _ => None
  end.

Definition labelOfBlock (b : nat) : C Operand :=
  let* s := get in
  let l := length (labels s) in
  modify (set_labels (labels s ++ [blockId s b])) ;;
  match predeclaredBlocks s !! b with
  | Some predeclaredBlockLabels =>
      modify (λ s, set_predeclaredBlocks
                     (<[b := predeclaredBlockLabels ++ [l]]> (predeclaredBlocks s)) s)
  | None => ret tt
  end ;;
  ret (LabelOperand l).

(** [dependentLabels.forEach(l => l.targetBlockID = block.id)] *)
Definition updateLabels (dependentLabels : list nat) (i : BlockID)
    (ls : list (option BlockID)) : list (option BlockID) :=
  fold_left (λ ls l, <[l := Some i]> ls) dependentLabels ls.

(** [createBlock(cur, predeclaredBlock)]; without a predeclared block the
    block is a new object. *)
Definition createBlock (cur : Cursor) (predeclaredBlock : option nat) : C Cursor :=
  let* s := get in
  let bl := {| id := block (nextBlockID s);
               expectedStackDepthAtEntry := stackDepth cur;
               operations := [] |} in
  modify (set_nextBlockID (S (nextBlockID s))) ;;
  let* b :=
    match predeclaredBlock with
    | Some predeclaredBlock =>
        match predeclaredBlocks s !! predeclaredBlock with
        | None => throw Unexpected
        | Some dependentLabels =>
            modify (λ s,
              set_predeclaredBlocks (delete predeclaredBlock (predeclaredBlocks s))
                (set_labels (updateLabels dependentLabels (id bl) (labels s))
                   (set_blockObjects
                      (<[predeclaredBlock := Some bl]> (blockObjects s)) s))) ;;
            ret predeclaredBlock
        end
    | None =>
        modify (λ s, set_blockObjects (blockObjects s ++ [Some bl]) s) ;;
        ret (length (blockObjects s))
    end in
  modify (λ s, set_funcBlocks (storeBlock (funcBlocks s) (id bl) b) s) ;;
  ret {| curBlock := b; stackDepth := stackDepth cur;
         breakScope := breakScope cur; scope := scope cur;
         unreachable := false |}.

(** [Object.assign(cur, toLocation)]. The cursors that are passed as
    [toLocation] come from [createBlock] and have no property [unreachable],
    so that the one of [cur] stays. *)
Definition moveCursor (cur toLocation : Cursor) : Cursor :=
  {| curBlock := curBlock toLocation; stackDepth := stackDepth toLocation;
     breakScope := breakScope toLocation; scope := scope toLocation;
     unreachable := unreachable cur |}.

Section WithTables.

Variable T : Tables.

(** *** Emitting an operation *)

Definition endsWithQuestionMark (expectedType : string) : bool :=
  match last (list_ascii_of_string expectedType) with
  | Some c => Ascii.eqb c "?"%char
  | None => false
  end.

(** The loop of [addOp] over [meta.operands.entries()]. *)
Fixpoint checkOperands (opc : Opcode) (expectedTypes : list string) (i : nat)
    (ops : list Operand) : C unit :=
  match expectedTypes with
  | [] => ret tt
  | expectedType :: expectedTypes' =>
      match ops !! i with
      | None =>
          if endsWithQuestionMark expectedType then ret tt else throw TypeError
      | Some operand =>
          if negb (String.eqb (operandType operand) expectedType) then
            throw (InternalCompileError
                     (OperandTypeMismatch expectedType (operandType operand) opc))
          else
            match operand with
            | IndexOperand index =>
                if (index <? 0) || (MAX_INDEX T <? index)
                then throw (InternalCompileError (IndexOutOfRange index))
                else ret tt
            | CountOperand count =>
                if (count <? 0) || (MAX_COUNT T <? count)
                then throw (InternalCompileError (CountOutOfRange count))
                else ret tt
            | _ => ret tt
            end
      end ;;
      checkOperands opc expectedTypes' (S i) ops
  end.

(** [cur.block.operations.push(operation)] *)
Definition pushOperation (b : nat) (operation : Operation) : C unit :=
  let* s := get in
  match blockObjects s !! b with
  | Some (Some bl) =>
      modify (set_blockObjects
                (<[b := Some {| id := id bl;
                                expectedStackDepthAtEntry := expectedStackDepthAtEntry bl;
                                operations := operations bl ++ [operation] |}]>
                   (blockObjects s)))
  | _ => throw TypeError
  end.

(** The check of [addOp] that the target of a jump or of a branch, when it
    is known, expects the stack depth after the operation. *)
Definition checkTarget (mismatch : Z → Z → InternalError) (target : option BlockID)
    (stackDepthAfter : Z) : C unit :=
  match target with
  | None => ret tt
  | Some targetBlockID =>
      let* s := get in
      match lookupBlock (funcBlocks s) targetBlockID with
      | Some b =>
          match blockObjects s !! b with
          | Some (Some targetBlock) =>
              if negb (expectedStackDepthAtEntry targetBlock =? stackDepthAfter)
              then throw (InternalCompileError
                            (mismatch stackDepthAfter
                               (expectedStackDepthAtEntry targetBlock)))
              else ret tt
          | _ => throw TypeError
          end
      | None => throw TypeError
      end
  end.

(** [target.targetBlockID] of an operand that has to be a label. *)
Definition targetBlockID (operand : option Operand) : C (option BlockID) :=
  match operand with
  | Some (LabelOperand l) =>
      let* s := get in
      match labels s !! l with
      | Some target => ret target
      | None => throw TypeError
      end
  | Some _ => throw Unexpected
  | None => throw TypeError
  end.

Definition addOp (cur : Cursor) (opc : Opcode) (ops : list Operand) : C Cursor :=
  checkOperands opc (opcodes T opc) 0 ops ;;
  if (length ops <? minOperandCount T opc)%nat then
    throw (InternalCompileError (IncorrectNumberOfOperands opc))
  else
  if unreachable cur then ret cur else
  let stackChange := calcStaticStackChangeOfOp T opc ops in
  let operation := {| opcode := opc; operands := ops;
                      stackDepthBefore := stackDepth cur;
                      stackDepthAfter := stackDepth cur + stackChange;
                      staticInfo := None |} in
  pushOperation (curBlock cur) operation ;;
  let cur := set_stackDepth (stackDepth cur + stackChange) cur in
  match opc with
  | Jump =>
      let* target := targetBlockID (ops !! 0%nat) in
      checkTarget JumpDepthMismatch target (stackDepthAfter operation)
  | Branch =>
      let* targetTrue := targetBlockID (ops !! 0%nat) in
      let* targetFalse := targetBlockID (ops !! 1%nat) in
      checkTarget BranchTrueDepthMismatch targetTrue (stackDepthAfter operation) ;;
      checkTarget BranchFalseDepthMismatch targetFalse (stackDepthAfter operation)
  | _ => ret tt
  end ;;
  ret cur.

End WithTables.

(** *** What emitting an operation does *)

(** [s'] is [s] with [operation] appended to the block object [b]. *)
Definition pushed (b : nat) (operation : Operation) (s s' : State) : Prop :=
  ∃ bl, blockObjects s !! b = Some (Some bl) ∧
        s' = set_blockObjects
               (<[b := Some {| id := id bl;
                               expectedStackDepthAtEntry := expectedStackDepthAtEntry bl;
                               operations := operations bl ++ [operation] |}]>
                  (blockObjects s)) s.

(** The operation that [addOp] makes of an opcode and its operands at the
    cursor [cur]. *)
Definition operationAt (T : Tables) (cur : Cursor) (opc : Opcode) (ops : list Operand)
  : Operation :=
  {| opcode := opc; operands := ops;
     stackDepthBefore := stackDepth cur;
     stackDepthAfter := stackDepth cur + calcStaticStackChangeOfOp T opc ops;
     staticInfo := None |}.

(** What [addOp] does when it returns: nothing at an unreachable cursor,
    and at a reachable one it appends the one operation to the block of the
    cursor and moves the stack depth of the cursor. *)
Definition emitted (T : Tables) (opc : Opcode) (ops : list Operand)
    (cur : Cursor) (s : State) (cur' : Cursor) (s' : State) : Prop :=
  if unreachable cur then cur' = cur ∧ s' = s
  else pushed (curBlock cur) (operationAt T cur opc ops) s s' ∧
       cur' = set_stackDepth (stackDepthAfter (operationAt T cur opc ops)) cur.

(** The operation [Pop 1] at the stack depth [depth]. *)
Definition popOne (depth : Z) : Operation :=
  {| opcode := Pop; operands := [CountOperand 1];
     stackDepthBefore := depth; stackDepthAfter := depth - 1;
     staticInfo := None |}.


(** *** The syntax tree

    The part of the Babel tree that the compiler looks at. A numeric literal
    is an integer. Where the compiler consults a map of the scope model for a
    node, the node carries the entry ([VariableDeclarator]). *)

#[warnings="-register-all"]
Inductive Expression : Type :=
| BooleanLiteral (value : bool)
| NumericLiteral (value : Z)
| StringLiteral (value : string)
| NullLiteral
| Identifier (name : string)
| BinaryExpression (operator : string) (left right : Expression)
| UpdateExpression (operator : string) (prefix : bool) (argument : Expression)
| UnaryExpression (operator : string) (prefix : bool) (argument : Expression)
| AssignmentExpression (operator : string) (left right : Expression)
| LogicalExpression (operator : string) (left right : Expression)
| CallExpression (callee : Expression) (arguments : list Expression)
| MemberExpression (object property : Expression) (computed : bool)
| ArrayExpression (elements : list (option Expression))
| ObjectExpression (properties : list ObjectMember)
| ConditionalExpression (test consequent alternate : Expression)
| ThisExpression
| ArrowFunctionExpression (node : nat)
| TemplateLiteral (quasis : list (option string)) (expressions : list Expression)
| SpreadElement (argument : Expression)
| Super
| OtherExpression (type : string)
with ObjectMember : Type :=
| ObjectProperty (key : Expression) (computed : bool) (value : Expression)
| ObjectMethod
| SpreadProperty (argument : Expression).

(** [cur.ctx.scopeInfo.bindings.get(d)] for a declarator [d]. *)
Record BindingInfo : Type := {
  closureAllocated : bool;
  slotIndex : option Z
}.

Record VariableDeclarator : Type := {
  declaratorId : Expression;                       (* [d.id] *)
  init : option Expression;
  bindingInfo : option BindingInfo
}.

#[warnings="-register-all"]
Inductive Statement : Type :=
| IfStatement (test : Expression) (consequent : Statement) (alternate : option Statement)
| BlockStatement (body : list Statement)
| ExpressionStatement (expression : Expression)
| WhileStatement (test : Expression) (body : Statement)
| DoWhileStatement (body : Statement) (test : Expression)
| VariableDeclaration (kind : string) (declarations : list VariableDeclarator)
| ForStatement (init : option (Expression + string * list VariableDeclarator))
    (test update : option Expression) (body : Statement)
| ReturnStatement (argument : option Expression)
| SwitchStatement (discriminant : Expression)
    (cases : list (option Expression * list Statement))
| BreakStatement (label : option string)
| FunctionDeclaration (node : nat)
| ExportNamedDeclaration
| OtherStatement (type : string).

(** *** The scope model, as far as the compiler calls it

    The lowering of identifiers goes through [resolveLValue] and
    [findVariable], which use the scope analysis and accessor functions that
    are not among the sources, and function expressions go through
    [compileFunction], which compiles into another IL function. They are
    parameters: [resolveIdentifier name cur] is [resolveLValue(cur, id)] for an
    identifier, [accessorLoad] and [accessorStore] are the [load] and [store]
    of the accessor it returns ([store] takes the [load] of the value),
    [compileFunction] is the effect of [compileFunction(cur, node)] on the
    state, and [isNameString] is the function of [../utils]. *)
Record ScopeModel : Type := {
  Accessor : Type;
  resolveIdentifier : string → Cursor → C Accessor;
  accessorLoad : Accessor → Cursor → C Cursor;
  accessorStore : Accessor → (Cursor → C Cursor) → Cursor → C Cursor;
  compileFunction : nat → Cursor → C unit;
  isNameString : string → bool
}.

Section WithModel.

Variable T : Tables.
Variable SM : ScopeModel.

Definition compileError {A} (message : string) : C A := throw (CompileError message).
Definition featureNotSupported {A} (message : string) : C A :=
  throw (FeatureNotSupported message).

(** [compileErrorIfReachable], called on a reachable cursor. *)
Definition compileErrorIfReachable {A} (type : string) : C A :=
  throw (CompileError ("Not supported: " +:+ type)).

Definition compileDup (cur : Cursor) : C Cursor :=
  addOp T cur LoadVar [indexOperand (stackDepth cur - 1)].

(** The [load] of [valueAtTopOfStack(cur)]. *)
Definition valueAtTopOfStack (cur : Cursor) : Cursor → C Cursor :=
  let indexOfValue := stackDepth cur - 1 in
  λ cur, addOp T cur LoadVar [indexOperand indexOfValue].

Definition getBinOpCode (operator : string) : C string :=
  if String.eqb operator "instanceof" || String.eqb operator "in" then
    compileError ("Operator not supported: " +:+ operator)
  else if String.eqb operator "==" then compileError "Use `===` instead of `==`"
  else if String.eqb operator "!=" then compileError "Use `!==` instead of `!=`"
  else ret operator.

Definition getUnOpCode (operator : string) : C string :=
  if String.eqb operator "typeof" || String.eqb operator "void" ||
     String.eqb operator "delete" || String.eqb operator "throw" then
    compileError ("Operator not supported: " +:+ operator)
  else ret operator.

Definition getBinOpFromAssignmentExpression (operator : string) : C string :=
  if String.eqb operator "=" then throw Unexpected
  else if String.eqb operator "%=" then ret "%"%string
  else if String.eqb operator "&=" then ret "&"%string
  else if String.eqb operator "*=" then ret "*"%string
  else if String.eqb operator "+=" then ret "+"%string
  else if String.eqb operator "-=" then ret "-"%string
  else if String.eqb operator "/=" then ret "/"%string
  else if String.eqb operator "<<=" then ret "<<"%string
  else if String.eqb operator ">>=" then ret ">>"%string
  else if String.eqb operator ">>>=" then ret ">>>"%string
  else if String.eqb operator "^=" then ret "^"%string
  else if String.eqb operator "|=" then ret "|"%string
  else throw NotImplemented.

Definition compileIncr (cur : Cursor) : C Cursor :=
  let* cur := addOp T cur Literal [literalOperand (NumberValue (Int 1))] in
  addOp T cur BinOp [opOperand "+"].

Definition compileDecr (cur : Cursor) : C Cursor :=
  let* cur := addOp T cur Literal [literalOperand (NumberValue (Int 1))] in
  addOp T cur BinOp [opOperand "-"].

(** [-value] for the value of a numeric literal. *)
Definition negate (value : Z) : Number :=
  if value =? 0 then NegZero else Int (- value).

(** The body of [compileExpression] and of the functions it dispatches to,
    over the function [compile] to use for the parts of the expression. *)
Section Expressions.

Variable compile : Expression → Cursor → C Cursor.

Definition compileBinaryExpression (operator : string) (left right : Expression)
    (cur : Cursor) : C Cursor :=
  let* binOpCode := getBinOpCode operator in
  let general :=
    let* cur := compile left cur in
    let* cur := compile right cur in
    addOp T cur BinOp [opOperand binOpCode] in
  if String.eqb binOpCode "|" then
    match left, right with
    | BinaryExpression leftOperator leftLeft leftRight, NumericLiteral value =>
        if String.eqb leftOperator "/" && (value =? 0) then
          let* cur := compile leftLeft cur in
          let* cur := compile leftRight cur in
          addOp T cur BinOp [opOperand "DIVIDE_AND_TRUNC"]
        else general
    | _, _ => general
    end
  else general.

Definition compileUnaryExpression (operator : string) (prefix : bool)
    (argument : Expression) (cur : Cursor) : C Cursor :=
  if negb prefix then compileError "Not supported" else
  let* unOpCode := getUnOpCode operator in
  let general :=
    let* cur := compile argument cur in
    addOp T cur UnOp [opOperand unOpCode] in
  if String.eqb unOpCode "-" then
    match argument with
    | NumericLiteral value =>
        addOp T cur Literal [literalOperand (NumberValue (negate value))]
    | _ => general
    end
  else general.

Definition compileLogicalExpression (operator : string) (left right : Expression)
    (cur : Cursor) : C Cursor :=
  if String.eqb operator "&&" || String.eqb operator "||" then
    let* rightBlock := predeclareBlock in
    let* endBlock := predeclareBlock in
    let* cur := compile left cur in
    let* cur := compileDup cur in
    let* cur :=
      if String.eqb operator "&&" then
        let* l1 := labelOfBlock rightBlock in
        let* l2 := labelOfBlock endBlock in
        addOp T cur Branch [l1; l2]
      else
        let* l1 := labelOfBlock endBlock in
        let* l2 := labelOfBlock rightBlock in
        addOp T cur Branch [l1; l2] in
    let* rightCur := createBlock cur (Some rightBlock) in
    let* rightCur := addOp T rightCur Pop [countOperand 1] in
    let* rightCur := compile right rightCur in
    let* l := labelOfBlock endBlock in
    let* rightCur := addOp T rightCur Jump [l] in
    let* endCur := createBlock rightCur (Some endBlock) in
    ret (moveCursor cur endCur)
  else if String.eqb operator "??" then throw NotImplemented
  else throw Unexpected.

Definition compileConditionalExpression (test consequent alternate : Expression)
    (cur : Cursor) : C Cursor :=
  let* consequentBlock := predeclareBlock in
  let* alternateBlock := predeclareBlock in
  let* after := predeclareBlock in
  let* cur := compile test cur in
  let* l1 := labelOfBlock consequentBlock in
  let* l2 := labelOfBlock alternateBlock in
  let* cur := addOp T cur Branch [l1; l2] in
  let* consequentCur := createBlock cur (Some consequentBlock) in
  let* consequentCur := compile consequent consequentCur in
  let* l := labelOfBlock after in
  let* consequentCur := addOp T consequentCur Jump [l] in
  let* alternateCur := createBlock cur (Some alternateBlock) in
  let* alternateCur := compile alternate alternateCur in
  let* l := labelOfBlock after in
  let* alternateCur := addOp T alternateCur Jump [l] in
  let* afterCur := createBlock alternateCur (Some after) in
  ret (moveCursor cur afterCur).

(** [op.staticInfo = { minCapacity }] for the operation [addOp] returned:
    when [addOp] has pushed it, it is the last operation of the block. *)
Definition setStaticInfo (cur : Cursor) (minCapacity : Z) : C unit :=
  if unreachable cur then ret tt else
  modify (λ s,
    match blockObjects s !! curBlock cur with
    | Some (Some bl) =>
        match last (operations bl) with
        | Some op =>
            set_blockObjects
              (<[curBlock cur :=
                   Some {| id := id bl;
                           expectedStackDepthAtEntry := expectedStackDepthAtEntry bl;
                           operations :=
                             removelast (operations bl) ++
                             [{| opcode := opcode op; operands := operands op;
                                 stackDepthBefore := stackDepthBefore op;
                                 stackDepthAfter := stackDepthAfter op;
                                 staticInfo := Some minCapacity |}] |}]>
                 (blockObjects s)) s
        | None => s
        end
    | _ => s
    end).

(** The loop of [compileArrayExpression] over [expression.elements.entries()],
    from the entry [i] on; the result carries [endsInElision]. *)
Fixpoint compileArrayElements (indexOfArrayInstance : Z) (i : nat)
    (elements : list (option Expression)) (endsInElision : bool) (cur : Cursor)
  : C (bool * Cursor) :=
  match elements with
  | [] => ret (endsInElision, cur)
  | None :: elements' =>
      compileArrayElements indexOfArrayInstance (S i) elements' true cur
  | Some element :: elements' =>
      match element with
      | SpreadElement _ => compileError "Spread syntax not supported"
      | _ =>
          let* cur := addOp T cur LoadVar [indexOperand indexOfArrayInstance] in
          let* cur := addOp T cur Literal
                        [literalOperand (NumberValue (Int (Z.of_nat i)))] in
          let* cur := compile element cur in
          let* cur := addOp T cur ObjectSet [] in
          compileArrayElements indexOfArrayInstance (S i) elements' false cur
      end
  end.

Definition compileArrayExpression (elements : list (option Expression)) (cur : Cursor)
  : C Cursor :=
  let indexOfArrayInstance := stackDepth cur in
  let* cur0 := addOp T cur ArrayNew [] in
  setStaticInfo cur0 (Z.of_nat (length elements)) ;;
  let* (endsInElision, cur) :=
    compileArrayElements indexOfArrayInstance 0 elements false cur0 in
  if endsInElision then
    let* cur := addOp T cur LoadVar [indexOperand indexOfArrayInstance] in
    let* cur := addOp T cur Literal [literalOperand (StringValue "length")] in
    let* cur := addOp T cur Literal
                  [literalOperand (NumberValue (Int (Z.of_nat (length elements))))] in
    addOp T cur ObjectSet []
  else ret cur.

(** Modelled from the spec: the lowering of an array literal in the words
    of the specification, to compare [compileArrayExpression] with. The
    elements that are present, each with its index in the literal, are
    stored with one [ObjectSet] each, the elided ones are passed over, and
    when the literal ends in an elision, one more [ObjectSet] stores the
    number of elements of the literal as the property [length]. *)
Fixpoint presentElementsFrom (i : nat) (elements : list (option Expression))
  : list (nat * Expression) :=
  match elements with
  | [] => []
  | None :: elements' => presentElementsFrom (S i) elements'
  | Some element :: elements' => (i, element) :: presentElementsFrom (S i) elements'
  end.

Definition presentElements (elements : list (option Expression))
  : list (nat * Expression) :=
  presentElementsFrom 0 elements.

Definition endsInElision (elements : list (option Expression)) : bool :=
  match last elements with
  | Some None => true
  | _ => false
  end.

Definition storeElement (indexOfArrayInstance : Z) (cur : Cursor)
    (ie : nat * Expression) : C Cursor :=
  match ie.2 with
  | SpreadElement _ => compileError "Spread syntax not supported"
  | _ =>
      let* cur := addOp T cur LoadVar [indexOperand indexOfArrayInstance] in
      let* cur := addOp T cur Literal
                    [literalOperand (NumberValue (Int (Z.of_nat ie.1)))] in
      let* cur := compile ie.2 cur in
      addOp T cur ObjectSet []
  end.

Definition storeLength (indexOfArrayInstance : Z) (length : Z) (cur : Cursor)
  : C Cursor :=
  let* cur := addOp T cur LoadVar [indexOperand indexOfArrayInstance] in
  let* cur := addOp T cur Literal [literalOperand (StringValue "length")] in
  let* cur := addOp T cur Literal [literalOperand (NumberValue (Int length))] in
  addOp T cur ObjectSet [].

Definition compileArrayExpression_spec (elements : list (option Expression))
    (cur : Cursor) : C Cursor :=
  let indexOfArrayInstance := stackDepth cur in
  let* cur0 := addOp T cur ArrayNew [] in
  setStaticInfo cur0 (Z.of_nat (length elements)) ;;
  let* cur := foldM (storeElement indexOfArrayInstance) (presentElements elements) cur0 in
  if endsInElision elements
  then storeLength indexOfArrayInstance (Z.of_nat (length elements)) cur
  else ret cur.

Definition compileObjectExpression (properties : list ObjectMember) (cur : Cursor)
  : C Cursor :=
  let* cur := addOp T cur ObjectNew [] in
  let objectVariableIndex := stackDepth cur - 1 in
  foldM (λ cur property,
           match property with
           | SpreadProperty _ => compileError "Spread syntax not supported"
           | ObjectMethod => compileError "Object methods are not supported"
           | ObjectProperty key computed value =>
               match computed, key with
               | false, Identifier name =>
                   let* cur := addOp T cur LoadVar [indexOperand objectVariableIndex] in
                   let* cur := addOp T cur Literal [literalOperand (StringValue name)] in
                   let* cur := compile value cur in
                   addOp T cur ObjectSet []
               | _, _ => compileError "Object properties must be simple identifiers"
               end
           end) properties cur.

Definition compileMemberExpression (object property : Expression) (computed : bool)
    (cur : Cursor) : C Cursor :=
  match object with
  | Super => compileError "Illegal use of reserved word super in this context"
  | _ =>
      let* cur := compile object cur in
      if computed then
        match property with
        | OtherExpression "PrivateName" =>
            featureNotSupported "Private names not supported"
        | _ =>
            let* cur := compile property cur in
            addOp T cur ObjectGet []
        end
      else
        match property with
        | Identifier name =>
            let* cur := addOp T cur Literal [literalOperand (StringValue name)] in
            addOp T cur ObjectGet []
        | _ => compileError "Unexpected accessor form"
        end
  end.

Definition compileCallExpression (callee : Expression) (arguments : list Expression)
    (cur : Cursor) : C Cursor :=
  match callee with
  | Super => compileError "Reserved word super invalid in this context"
  | _ =>
      let indexOfResult := stackDepth cur in
      let* cur :=
        match callee with
        | MemberExpression object property false =>
            let indexOfObjectReference := stackDepth cur in
            let* cur := compile object cur in
            let* cur := compileDup cur in
            match property with
            | Identifier name =>
                let* cur := addOp T cur Literal [literalOperand (StringValue name)] in
                let* cur := addOp T cur ObjectGet [] in
                addOp T cur LoadVar [indexOperand indexOfObjectReference]
            | _ => throw Unexpected
            end
        | _ =>
            let* cur := compile callee cur in
            addOp T cur Literal [literalOperand UndefinedValue]
        end in
      let* cur :=
        foldM (λ cur arg,
                 match arg with
                 | SpreadElement _ => compileError "Unsupported syntax"
                 | _ => compile arg cur
                 end) arguments cur in
      let* cur := addOp T cur Call [countOperand (Z.of_nat (length arguments) + 1)] in
      if indexOfResult + 1 <? stackDepth cur then
        let* cur := addOp T cur StoreVar [indexOperand indexOfResult] in
        let remainingToPop := stackDepth cur - (indexOfResult + 1) in
        if negb (remainingToPop =? 0)
        then addOp T cur Pop [countOperand remainingToPop]
        else ret cur
      else ret cur
  end.

(** The loop of [compileTemplateLiteral]: [strings] are the strings after
    the first one. *)
Fixpoint compileTemplateParts (expressions : list Expression) (strings : list string)
    (cur : Cursor) : C Cursor :=
  match expressions with
  | [] => ret cur
  | expression :: expressions' =>
      let* cur := compile expression cur in
      let* cur := addOp T cur BinOp [opOperand "+"] in
      let* cur :=
        match strings with
        | s :: _ =>
            if negb (String.eqb s "") then
              let* cur := addOp T cur Literal [literalOperand (StringValue s)] in
              addOp T cur BinOp [opOperand "+"]
            else ret cur
        | [] => ret cur
        end in
      compileTemplateParts expressions' (tail strings) cur
  end.

Definition compileTemplateLiteral (quasis : list (option string))
    (expressions : list Expression) (cur : Cursor) : C Cursor :=
  match mapM (λ q : option string, q) quasis with
  | None => throw Unexpected
  | Some strings =>
      if negb (length strings =? length expressions + 1)%nat then throw Unexpected else
      match strings with
      | [] => throw Unexpected
      | firstString :: strings' =>
          let* cur := addOp T cur Literal [literalOperand (StringValue firstString)] in
          compileTemplateParts expressions strings' cur
      end
  end.

Definition compileThisExpression (cur : Cursor) : C Cursor :=
  addOp T cur LoadArg [indexOperand 0].

Definition compileArrowFunctionExpression (node : nat) (cur : Cursor) : C Cursor :=
  compileFunction SM node cur ;;
  ret cur.

Definition compileIdentifier (name : string) (cur : Cursor) : C Cursor :=
  if String.eqb name "undefined" then
    addOp T cur Literal [literalOperand UndefinedValue]
  else
    let* accessor := resolveIdentifier SM name cur in
    accessorLoad SM accessor cur.

(** [resolveLValue(cur, lVal)], as far as it can raise and as far as it
    consults the scope model; the accesses of a member expression are written
    out in [loadLValue] and [storeLValue]. *)
Definition resolveLValue (lVal : Expression) (cur : Cursor) : C (option (Accessor SM)) :=
  match lVal with
  | Identifier name =>
      let* accessor := resolveIdentifier SM name cur in ret (Some accessor)
  | MemberExpression object property computed =>
      if computed then ret None else
      match property with
      | Identifier _ => ret None
      | _ => compileError "Property names must be simple identifiers"
      end
  | _ => compileError "Feature not supported"
  end.

(** [property.load(cur)] of [getObjectMemberAccessor] *)
Definition loadProperty (property : Expression) (computed : bool) (cur : Cursor)
  : C Cursor :=
  if computed then compile property cur else
  match property with
  | Identifier propName =>
      addOp T cur Literal [literalOperand (StringValue propName)]
  | _ => throw Unexpected
  end.

(** [accessor.load(cur)] for the accessor of [lVal] *)
Definition loadLValue (lVal : Expression) (accessor : option (Accessor SM))
    (cur : Cursor) : C Cursor :=
  match lVal, accessor with
  | MemberExpression object property computed, _ =>
      let* cur := compile object cur in
      let* cur := loadProperty property computed cur in
      addOp T cur ObjectGet []
  | _, Some accessor => accessorLoad SM accessor cur
  | _, None => throw Unexpected
  end.

(** [accessor.store(cur, value)] for the accessor of [lVal] *)
Definition storeLValue (lVal : Expression) (accessor : option (Accessor SM))
    (value : Cursor → C Cursor) (cur : Cursor) : C Cursor :=
  match lVal, accessor with
  | MemberExpression object property computed, _ =>
      let* cur := compile object cur in
      let* cur := loadProperty property computed cur in
      let* cur := value cur in
      addOp T cur ObjectSet []
  | _, Some accessor => accessorStore SM accessor value cur
  | _, None => throw Unexpected
  end.

(** The forms of [expression.left] that [compileAssignmentExpression]
    rejects at once. *)
Definition isPatternType (type : string) : bool :=
  bool_decide (type ∈ ["RestElement"; "AssignmentPattern"; "ArrayPattern";
                       "ObjectPattern"; "TSParameterProperty"]%string).

Definition compileAssignmentExpression (operator : string) (left right : Expression)
    (cur : Cursor) : C Cursor :=
  match match left with
        | OtherExpression type => if isPatternType type then Some type else None
        | _ => None
        end with
  | Some type => compileError ("Syntax not supported: " +:+ type)
  | None =>
      if String.eqb operator "=" then
        let* accessor := resolveLValue left cur in
        let* cur := compile right cur in
        let value := valueAtTopOfStack cur in
        storeLValue left accessor value cur
      else
        let* accessor := resolveLValue left cur in
        let* cur := loadLValue left accessor cur in
        let* cur := compile right cur in
        let* operator := getBinOpFromAssignmentExpression operator in
        let* cur := addOp T cur BinOp [opOperand operator] in
        let value := valueAtTopOfStack cur in
        storeLValue left accessor value cur
  end.

Definition compileUpdateExpression (operator : string) (prefix : bool)
    (argument : Expression) (cur : Cursor) : C Cursor :=
  match argument with
  | Identifier _ =>
      let* updaterOp :=
        if String.eqb operator "++" then ret compileIncr
        else if String.eqb operator "--" then ret compileDecr
        else throw Unexpected in
      let* accessor := resolveLValue argument cur in
      let* cur := loadLValue argument accessor cur in
      if prefix then
        let* cur := updaterOp cur in
        let valueToStore := valueAtTopOfStack cur in
        storeLValue argument accessor valueToStore cur
      else
        let* cur := compileDup cur in
        let* cur := updaterOp cur in
        let valueToStore := valueAtTopOfStack cur in
        let* cur := storeLValue argument accessor valueToStore cur in
        addOp T cur Pop [countOperand 1]
  | _ => compileError "Operator can only be used on simple identifiers"
  end.

End Expressions.

Fixpoint compileExpression (expression : Expression) (cur : Cursor)
    {struct expression} : C Cursor :=
  if unreachable cur then ret cur else
  match expression with
  | BooleanLiteral value => addOp T cur Literal [literalOperand (BooleanValue value)]
  | NumericLiteral value =>
      addOp T cur Literal [literalOperand (NumberValue (Int value))]
  | StringLiteral value => addOp T cur Literal [literalOperand (StringValue value)]
  | NullLiteral => addOp T cur Literal [literalOperand NullValue]
  | Identifier name => compileIdentifier name cur
  | BinaryExpression operator left' right' =>
      compileBinaryExpression compileExpression operator left' right' cur
  | UpdateExpression operator prefix argument =>
      compileUpdateExpression compileExpression operator prefix argument cur
  | UnaryExpression operator prefix argument =>
      compileUnaryExpression compileExpression operator prefix argument cur
  | AssignmentExpression operator left' right' =>
      compileAssignmentExpression compileExpression operator left' right' cur
  | LogicalExpression operator left' right' =>
      compileLogicalExpression compileExpression operator left' right' cur
  | CallExpression callee arguments =>
      compileCallExpression compileExpression callee arguments cur
  | MemberExpression object property computed =>
      compileMemberExpression compileExpression object property computed cur
  | ArrayExpression elements =>
      compileArrayExpression compileExpression elements cur
  | ObjectExpression properties =>
      compileObjectExpression compileExpression properties cur
  | ConditionalExpression test consequent alternate =>
      compileConditionalExpression compileExpression test consequent alternate cur
  | ThisExpression => compileThisExpression cur
  | ArrowFunctionExpression node => compileArrowFunctionExpression node cur
  | TemplateLiteral quasis expressions =>
      compileTemplateLiteral compileExpression quasis expressions cur
  | SpreadElement _ => compileErrorIfReachable "SpreadElement"
  | Super => compileErrorIfReachable "Super"
  | OtherExpression type => compileErrorIfReachable type
  end.

(** *** Statements *)

Definition pushBreakScope (cur : Cursor) (breakToTarget : nat) : Cursor :=
  set_breakScope (breakToTarget :: breakScope cur) cur.

(** [popBreakScope]. Its assertion that the innermost break scope is the
    one of the statement at hand is left out: the chain here does not record
    the statements. *)
Definition popBreakScope (cur : Cursor) : C Cursor :=
  match breakScope cur with
  | [] => throw Unexpected
  | _ :: parent => ret (set_breakScope parent cur)
  end.

Definition compileExpressionStatement (expression : Expression) (cur : Cursor)
  : C Cursor :=
  let* cur := compileExpression expression cur in
  addOp T cur Pop [countOperand 1].

Definition compileReturnStatement (argument : option Expression) (cur : Cursor)
  : C Cursor :=
  let* cur :=
    match argument with
    | Some argument => compileExpression argument cur
    | None => addOp T cur Literal [literalOperand UndefinedValue]
    end in
  let* cur := addOp T cur Return [] in
  ret (set_unreachable true cur).

Definition compileBreakStatement (label : option string) (cur : Cursor) : C Cursor :=
  match label with
  | Some _ => compileError "Not supported: labelled break statement"
  | None =>
      match breakScope cur with
      | [] => compileError "No valid break target identified"
      | breakToTarget :: _ =>
          let* l := labelOfBlock breakToTarget in
          addOp T cur Jump [l]
      end
  end.

(** Modelled from the spec: [isUInt16] of [../runtime-types] is missing;
    the spec gives the sizes of a [Nop] as 2 to [0xFFFF]. *)
Definition isUInt16 (n : Z) : bool := (0 <=? n) && (n <=? 0xFFFF).

(** [compileNopSpecialForm]: [Some] cursor when it returns [true]. *)
Definition compileNopSpecialForm (statement : Statement) (cur : Cursor)
  : C (option Cursor) :=
  match statement with
  | ExpressionStatement
      (CallExpression (Identifier "$$InternalNOPInstruction") [NumericLiteral nopSize]) =>
      if negb (isUInt16 nopSize) || (nopSize <? 2) then
        compileError "Invalid NOP size"
      else
        let* cur := addOp T cur Nop [countOperand nopSize] in
        ret (Some cur)
  | _ => ret None
  end.

(** [scope.localVariables] of a scope object *)
Definition scopeObject (b : option nat) : C LocalScope :=
  match b with
  | None => throw TypeError
  | Some b =>
      let* s := get in
      match scopeObjects s !! b with
      | Some sc => ret sc
      | None => throw TypeError
      end
  end.

(** [variables[variableName] = variable] *)
Definition declareVariable (b : option nat) (variableName : string)
    (variable : LocalVariable) : C unit :=
  let* sc := scopeObject b in
  modify (λ s, set_scopeObjects
                 (<[default 0%nat b :=
                      {| localVariables := localVariables sc ++ [(variableName, variable)];
                         parentScope := parentScope sc |}]> (scopeObjects s)) s).

(** The body of the loop of [compileVariableDeclaration], for the
    declarator [d]; [scope] is [cur.scope] at the start of the declaration. *)
Definition compileVariableDeclarator (kind : string) (scope : option nat)
    (d : VariableDeclarator) (cur : Cursor) : C Cursor :=
  let initialValue cur :=
    match init d with
    | Some init => compileExpression init cur
    | None => addOp T cur Literal [literalOperand UndefinedValue]
    end in
  match bindingInfo d with
  | Some {| closureAllocated := true; slotIndex := slotIndex |} =>
      let* cur := initialValue cur in
      match slotIndex with
      | None => throw Unexpected
      | Some index => addOp T cur StoreScoped [indexOperand index]
      end
  | _ =>
      match declaratorId d with
      | Identifier variableName =>
          let variableIndex := stackDepth cur in
          let* cur := initialValue cur in
          if negb (isNameString SM variableName) then
            compileError ("Invalid variable identifier: " +:+ variableName)
          else
            let* sc := scopeObject scope in
            if bool_decide (variableName ∈ (localVariables sc).*1) then
              compileError ("Duplicate variable declaration: " +:+ variableName)
            else
              declareVariable scope variableName
                {| index := variableIndex; readonly := String.eqb kind "const" |} ;;
              ret cur
      | _ => compileError "Only simple variable declarations are supported."
      end
  end.

Definition compileVariableDeclaration (kind : string)
    (declarations : list VariableDeclarator) (cur : Cursor) : C Cursor :=
  let scope := scope cur in
  foldM (λ cur d, compileVariableDeclarator kind scope d cur) declarations cur.

(** What [startScope] keeps for [endScope]: the new scope object, the
    scope of the cursor before, and the stack depth at the start. *)
Record ScopeFrame : Type := {
  frameScope : nat;
  origScope : option nat;
  stackDepthAtStart : Z
}.

Definition startScope (cur : Cursor) : C (ScopeFrame * Cursor) :=
  let* s := get in
  let b := length (scopeObjects s) in
  modify (set_scopeObjects
            (scopeObjects s ++ [{| localVariables := []; parentScope := scope cur |}])) ;;
  ret ({| frameScope := b; origScope := scope cur; stackDepthAtStart := stackDepth cur |},
       set_scope (Some b) cur).

Definition endScope (frame : ScopeFrame) (cur : Cursor) : C Cursor :=
  let* cur :=
    if unreachable cur then ret cur else
    let* sc := scopeObject (Some (frameScope frame)) in
    let variableCount := Z.of_nat (length (localVariables sc)) in
    if negb (stackDepth cur - stackDepthAtStart frame =? variableCount) then
      throw Unexpected
    else if 0 <? variableCount then
      addOp T cur Pop [countOperand variableCount]
    else ret cur in
  ret (set_scope (origScope frame) cur).

(** The bodies of the statement compilers, over the function [compile] to
    use for the statements inside. *)
Section Statements.

Variable compile : Statement → Cursor → C Cursor.

Definition compileBlockStatement (body : list Statement) (cur : Cursor) : C Cursor :=
  let* (frame, cur) := startScope cur in
  let* cur :=
    foldM (λ cur s, if unreachable cur then ret cur else compile s cur) body cur in
  endScope frame cur.

Definition compileIfStatement (test : Expression) (consequent : Statement)
    (alternate : option Statement) (cur : Cursor) : C Cursor :=
  match alternate with
  | Some alternate =>
      let* consequentBlock := predeclareBlock in
      let* alternateBlock := predeclareBlock in
      let* after := predeclareBlock in
      let* cur := compileExpression test cur in
      let* l1 := labelOfBlock consequentBlock in
      let* l2 := labelOfBlock alternateBlock in
      let* cur := addOp T cur Branch [l1; l2] in
      let* consequentCur := createBlock cur (Some consequentBlock) in
      let* consequentCur := compile consequent consequentCur in
      let* l := labelOfBlock after in
      let* consequentCur := addOp T consequentCur Jump [l] in
      let* alternateCur := createBlock cur (Some alternateBlock) in
      let* alternateCur := compile alternate alternateCur in
      let* l := labelOfBlock after in
      let* alternateCur := addOp T alternateCur Jump [l] in
      let* afterCur := createBlock consequentCur (Some after) in
      ret (moveCursor cur afterCur)
  | None =>
      let* consequentBlock := predeclareBlock in
      let* after := predeclareBlock in
      let* cur := compileExpression test cur in
      let* l1 := labelOfBlock consequentBlock in
      let* l2 := labelOfBlock after in
      let* cur := addOp T cur Branch [l1; l2] in
      let* consequentCur := createBlock cur (Some consequentBlock) in
      let* consequentCur := compile consequent consequentCur in
      let* l := labelOfBlock after in
      let* consequentCur := addOp T consequentCur Jump [l] in
      let* afterCur := createBlock cur (Some after) in
      ret (moveCursor cur afterCur)
  end.

Definition compileWhileStatement (test : Expression) (body : Statement) (cur : Cursor)
  : C Cursor :=
  let* exitBlock := predeclareBlock in
  let* testBlock := predeclareBlock in
  let* bodyBlock := predeclareBlock in
  let cur := pushBreakScope cur exitBlock in
  let* l := labelOfBlock testBlock in
  let* cur := addOp T cur Jump [l] in
  let* testCur := createBlock cur (Some testBlock) in
  let* testCur := compileExpression test testCur in
  let* l1 := labelOfBlock bodyBlock in
  let* l2 := labelOfBlock exitBlock in
  let* testCur := addOp T testCur Branch [l1; l2] in
  let* bodyCur := createBlock cur (Some bodyBlock) in
  let* bodyCur := compile body bodyCur in
  let* l := labelOfBlock testBlock in
  let* bodyCur := addOp T bodyCur Jump [l] in
  let* exitCur := createBlock cur (Some exitBlock) in
  popBreakScope (moveCursor cur exitCur).

Definition compileDoWhileStatement (body : Statement) (test : Expression) (cur : Cursor)
  : C Cursor :=
  let* after := predeclareBlock in
  let* bodyBlock := predeclareBlock in
  let cur := pushBreakScope cur after in
  let* l := labelOfBlock bodyBlock in
  let* cur := addOp T cur Jump [l] in
  let* bodyCur := createBlock cur (Some bodyBlock) in
  let* bodyCur := compile body bodyCur in
  let* bodyCur := compileExpression test bodyCur in
  let* l1 := labelOfBlock bodyBlock in
  let* l2 := labelOfBlock after in
  let* bodyCur := addOp T bodyCur Branch [l1; l2] in
  let* afterCur := createBlock bodyCur (Some after) in
  popBreakScope (moveCursor cur afterCur).

Definition compileForStatement
    (init : option (Expression + string * list VariableDeclarator))
    (test update : option Expression) (body : Statement) (cur : Cursor) : C Cursor :=
  let* loopBlock := predeclareBlock in
  let* terminateBlock := predeclareBlock in
  let* bodyBlock := predeclareBlock in
  let* (frame, cur) := startScope cur in
  let* cur :=
    match init with
    | None => throw Unexpected
    | Some (inr (kind, declarations)) =>
        compileVariableDeclaration kind declarations cur
    | Some (inl expression) =>
        let* cur := compileExpression expression cur in
        addOp T cur Pop [countOperand 1]
    end in
  let cur := pushBreakScope cur terminateBlock in
  let* l := labelOfBlock loopBlock in
  let* cur := addOp T cur Jump [l] in
  let* loopCur := createBlock cur (Some loopBlock) in
  match test with
  | None => throw Unexpected
  | Some test =>
      let* loopCur := compileExpression test loopCur in
      let* l1 := labelOfBlock bodyBlock in
      let* l2 := labelOfBlock terminateBlock in
      let* loopCur := addOp T loopCur Branch [l1; l2] in
      let* bodyCur := createBlock loopCur (Some bodyBlock) in
      let* bodyCur := compile body bodyCur in
      match update with
      | None => throw Unexpected
      | Some update =>
          let* bodyCur := compileExpression update bodyCur in
          let* bodyCur := addOp T bodyCur Pop [countOperand 1] in
          let* l := labelOfBlock loopBlock in
          let* bodyCur := addOp T bodyCur Jump [l] in
          let* terminateBlockCur := createBlock bodyCur (Some terminateBlock) in
          let* cur := popBreakScope (moveCursor cur terminateBlockCur) in
          endScope frame cur
      end
  end.

(** [statement.cases.map(predeclareBlock)] *)
Fixpoint predeclareBlocks {A} (cases : list A) : C (list nat) :=
  match cases with
  | [] => ret []
  | _ :: cases' =>
      let* b := predeclareBlock in
      let* bs := predeclareBlocks cases' in
      ret (b :: bs)
  end.

(** The variables of the first loop of [compileSwitchStatement].
    [generateDefaultCase] is given by the consequent block that the closure
    of that name has captured. *)
Record SwitchLoop : Type := {
  testBlockNum : nat;
  consequentIndex : nat;
  generateDefaultCase : option (option nat)
}.

(** The body of the first loop: the test block of a case. *)
Definition compileSwitchTest (testBlocks consequentBlocks : list nat) (breakBlock : nat)
    (cur : Cursor) (v : SwitchLoop) (switchCase : option Expression * list Statement)
  : C SwitchLoop :=
  let consequentBlock := consequentBlocks !! consequentIndex v in
  match fst switchCase with
  | Some test =>
      let* thisTestCur := createBlock cur (testBlocks !! testBlockNum v) in
      let nextTestBlock := default breakBlock (testBlocks !! S (testBlockNum v)) in
      let* thisTestCur := compileDup thisTestCur in
      let* thisTestCur := compileExpression test thisTestCur in
      let* thisTestCur := addOp T thisTestCur BinOp [opOperand "==="] in
      let* l1 := from_option labelOfBlock (throw TypeError) consequentBlock in
      let* l2 := labelOfBlock nextTestBlock in
      let* thisTestCur := addOp T thisTestCur Branch [l1; l2] in
      ret {| testBlockNum := S (testBlockNum v);
             consequentIndex := S (consequentIndex v);
             generateDefaultCase := generateDefaultCase v |}
  | None =>
      match generateDefaultCase v with
      | Some _ => compileError "Duplicate `default` block in switch statement"
      | None =>
          ret {| testBlockNum := testBlockNum v;
                 consequentIndex := S (consequentIndex v);
                 generateDefaultCase := Some consequentBlock |}
      end
  end.

(** The closure [generateDefaultCase]. *)
Definition compileSwitchDefault (testBlocks : list nat) (cur : Cursor)
    (consequentBlock : option nat) : C unit :=
  let* thisTestCur :=
    createBlock cur (testBlocks !! (length testBlocks - 1)%nat) in
  let* l := from_option labelOfBlock (throw TypeError) consequentBlock in
  let* thisTestCur := addOp T thisTestCur Jump [l] in
  ret tt.

(** The body of the second loop: the consequent of a case. *)
Definition compileSwitchConsequent (consequentBlocks : list nat) (breakBlock : nat)
    (cur : Cursor) (consequentIndex : nat)
    (switchCase : option Expression * list Statement) : C nat :=
  let* consequentBlockCur := createBlock cur (consequentBlocks !! consequentIndex) in
  let* consequentBlockCur :=
    foldM (λ cur statement, compile statement cur) (snd switchCase)
          consequentBlockCur in
  let nextConsequentBlock :=
    default breakBlock (consequentBlocks !! S consequentIndex) in
  let* l := labelOfBlock nextConsequentBlock in
  let* consequentBlockCur := addOp T consequentBlockCur Jump [l] in
  ret (S consequentIndex).

(** [compileSwitchStatement] after the discriminant has been compiled. *)
Definition compileSwitchCases (testBlocks consequentBlocks : list nat) (breakBlock : nat)
    (cases : list (option Expression * list Statement)) (cur : Cursor) : C Cursor :=
  let cur := pushBreakScope cur breakBlock in
  let firstBlock := default breakBlock (testBlocks !! 0%nat) in
  let* l := labelOfBlock firstBlock in
  let* cur := addOp T cur Jump [l] in
  let* v :=
    foldM (compileSwitchTest testBlocks consequentBlocks breakBlock cur) cases
          {| testBlockNum := 0; consequentIndex := 0; generateDefaultCase := None |} in
  match generateDefaultCase v with
  | Some consequentBlock => compileSwitchDefault testBlocks cur consequentBlock
  | None => ret tt
  end ;;
  foldM (compileSwitchConsequent consequentBlocks breakBlock cur) cases 0%nat ;;
  let* breakBlockCur := createBlock cur (Some breakBlock) in
  let* breakBlockCur := addOp T breakBlockCur Pop [countOperand 1] in
  popBreakScope (moveCursor cur breakBlockCur).

Definition compileSwitchStatement (discriminant : Expression)
    (cases : list (option Expression * list Statement)) (cur : Cursor) : C Cursor :=
  let* testBlocks := predeclareBlocks cases in
  let* consequentBlocks := predeclareBlocks cases in
  let* breakBlock := predeclareBlock in
  let* cur := compileExpression discriminant cur in
  compileSwitchCases testBlocks consequentBlocks breakBlock cases cur.

End Statements.

Fixpoint compileStatement (statement : Statement) (cur : Cursor) {struct statement}
  : C Cursor :=
  if unreachable cur then ret cur else
  let* nop := compileNopSpecialForm statement cur in
  match nop with
  | Some cur => ret cur
  | None =>
      match statement with
      | IfStatement test consequent alternate =>
          compileIfStatement compileStatement test consequent alternate cur
      | BlockStatement body => compileBlockStatement compileStatement body cur
      | ExpressionStatement expression => compileExpressionStatement expression cur
      | WhileStatement test body => compileWhileStatement compileStatement test body cur
      | DoWhileStatement body test =>
          compileDoWhileStatement compileStatement body test cur
      | VariableDeclaration kind declarations =>
          compileVariableDeclaration kind declarations cur
      | ForStatement init test update body =>
          compileForStatement compileStatement init test update body cur
      | ReturnStatement argument => compileReturnStatement argument cur
      | SwitchStatement discriminant cases =>
          compileSwitchStatement compileStatement discriminant cases cur
      | BreakStatement label => compileBreakStatement label cur
      | FunctionDeclaration _ => ret cur
      | ExportNamedDeclaration => throw NotImplemented
      | OtherStatement type => compileErrorIfReachable type
      end
  end.

(** The part of [compileFunction] that compiles the body: the entry block,
    the cursor [bodyCur] at its start, and, for a body that is a block
    statement of a function without parameters, closure scope and nested
    function declarations, the body followed by [Literal undefined; Return]. *)
Definition entryBlock : Block :=
  {| id := entry; expectedStackDepthAtEntry := 0; operations := [] |}.

Definition newFunction : State :=
  {| nextBlockID := 1;
     blockObjects := [Some entryBlock];
     labels := [];
     predeclaredBlocks := ∅;
     funcBlocks := [(entry, 0%nat)];
     scopeObjects := [] |}.

Definition bodyCur : Cursor :=
  {| curBlock := 0; stackDepth := 0; breakScope := []; scope := None;
     unreachable := false |}.

Definition compileFunctionBody (body : list Statement) : C Cursor :=
  let* cur := compileStatement (BlockStatement body) bodyCur in
  let* cur := addOp T cur Literal [literalOperand UndefinedValue] in
  addOp T cur Return [].

End WithModel.

(** *** Reading the result *)

(** The block with the identifier [i] of the compiled function. *)
Definition blockOf (s : State) (i : BlockID) : option Block :=
  b ← lookupBlock (funcBlocks s) i; mjoin (blockObjects s !! b).

(** The block that a cursor is in. *)
Definition blockAt (s : State) (cur : Cursor) : option Block :=
  mjoin (blockObjects s !! curBlock cur).

Definition operationsAt (s : State) (cur : Cursor) : list Operation :=
  from_option operations [] (blockAt s cur).

(** The targets of an operation: the blocks that its labels stand for. *)
Definition targetsOf (s : State) (operation : Operation) : list BlockID :=
  omap (λ operand,
          match operand with
          | LabelOperand l => mjoin (labels s !! l)
          | _ => None
          end) (operands operation).

(** An edge of the function [s]: an operation of the block [source] has
    the block [target] among its targets. *)
Definition edges (s : State) : list (BlockID * Operation * BlockID) :=
  '(source, b) ← funcBlocks s;
  bl ← option_list (mjoin (blockObjects s !! b));
  operation ← operations bl;
  target ← targetsOf s operation;
  [(source, operation, target)].

(** The stack depths agree at an edge. *)
Definition depthsAgree (s : State) (e : BlockID * Operation * BlockID) : bool :=
  match blockOf s e.2 with
  | Some bl => stackDepthAfter e.1.2 =? expectedStackDepthAtEntry bl
  | None => false
  end.

(** The edges at which the stack depths do not agree. *)
Definition disagreeingEdges (s : State) : list (BlockID * Operation * BlockID) :=
  filter (λ e, negb (depthsAgree s e)) (edges s).

(** What the lowering of [switch] uses of the tables of [../il], which are
    not among the sources: a [Jump] takes a label and a [Pop] takes a count,
    a count of 1 is in range, a [Jump] leaves the stack as it is and
    [Pop 1] removes one value. *)
Record SwitchTables (T : Tables) : Prop := {
  Jump_operands : opcodes T Jump = ["LabelOperand"%string];
  Pop_operands : opcodes T Pop = ["CountOperand"%string];
  Jump_minOperandCount : (minOperandCount T Jump ≤ 1)%nat;
  Pop_minOperandCount : (minOperandCount T Pop ≤ 1)%nat;
  one_MAX_COUNT : 1 ≤ MAX_COUNT T;
  Jump_stackChange : ∀ l, calcStaticStackChangeOfOp T Jump [LabelOperand l] = 0;
  Pop_stackChange : calcStaticStackChangeOfOp T Pop [CountOperand 1] = -1
}.

(** The state after [predeclareBlock()]. *)
Definition predeclared (s : State) : State :=
  set_predeclaredBlocks (<[length (blockObjects s) := []]> (predeclaredBlocks s))
    (set_blockObjects (blockObjects s ++ [None]) s).

(** What an operation is, without the stack depths. *)
Definition instruction (operation : Operation) : Opcode * list Operand :=
  (opcode operation, operands operation).

(** *** Well-formed states, and what compiling keeps of them *)

(** The block object [b] has been created. *)
Definition created (s : State) (b : nat) : Prop :=
  ∃ bl, blockObjects s !! b = Some (Some bl).

(** The entries of [predeclaredBlocks] are block objects that are still
    empty. *)
Definition wellFormed (s : State) : Prop :=
  ∀ b, is_Some (predeclaredBlocks s !! b) → blockObjects s !! b = Some None.

(** The state is well formed, it has the block objects below [n], and the
    blocks [old] among them are still predeclared. *)
Record kept (n : nat) (old : nat → Prop) (s : State) : Prop := {
  kept_wellFormed : wellFormed s;
  kept_length : (n ≤ length (blockObjects s))%nat;
  kept_old : ∀ b, old b → (b < n)%nat ∧ is_Some (predeclaredBlocks s !! b)
}.

(** The blocks that are created in [s] are created in [s']. *)
Definition grows (s s' : State) : Prop :=
  ∀ b, created s b → created s' b.

(** A computation that keeps the blocks that were predeclared before it,
    and returns a result that satisfies [Q]. *)
Definition preservesState (n : nat) (old : nat → Prop) {A} (Q : A → Prop) (c : C A)
  : Prop :=
  ∀ s a s',
    c s = OK (a, s') → kept n old s → kept n old s' ∧ grows s s' ∧ Q a.

(** A computation from the cursor [cur] that moreover returns a cursor in
    a created block when [cur] is in one, and a reachable one when [cur] is
    reachable. *)
Definition preserves (n : nat) (old : nat → Prop) (cur : Cursor) (c : C Cursor)
  : Prop :=
  ∀ s cur' s',
    c s = OK (cur', s') → kept n old s →
    kept n old s' ∧ grows s s' ∧
    (created s (curBlock cur) → created s' (curBlock cur')) ∧
    (unreachable cur = false → unreachable cur' = false).

(** What is taken of the scope model, which stands for code that is not
    among the sources: resolving and accessing a variable and compiling
    another function create no block that was predeclared before, and the
    accesses return a cursor as [preserves] says. *)
Record WellBehaved (SM : ScopeModel) : Prop := {
  resolveIdentifier_preserves :
    ∀ n old name cur, preservesState n old (λ _, True) (resolveIdentifier SM name cur);
  accessorLoad_preserves :
    ∀ n old accessor cur, preserves n old cur (accessorLoad SM accessor cur);
  accessorStore_preserves :
    ∀ n old accessor value cur,
      (∀ cur, preserves n old cur (value cur)) →
      preserves n old cur (accessorStore SM accessor value cur);
  compileFunction_preserves :
    ∀ n old node cur, preservesState n old (λ _, True) (compileFunction SM node cur)
}.

(** The size of an expression, for inductions. *)
Fixpoint expressionSize (e : Expression) : nat :=
  match e with
  | BinaryExpression _ left' right' | AssignmentExpression _ left' right'
  | LogicalExpression _ left' right' =>
      S (expressionSize left' + expressionSize right')
  | UpdateExpression _ _ argument | UnaryExpression _ _ argument
  | SpreadElement argument => S (expressionSize argument)
  | CallExpression callee arguments =>
      S (expressionSize callee + list_sum (map expressionSize arguments))
  | MemberExpression object property _ =>
      S (expressionSize object + expressionSize property)
  | ArrayExpression elements =>
      S (list_sum (map (from_option expressionSize 0%nat) elements))
  | ObjectExpression properties => S (list_sum (map memberSize properties))
  | ConditionalExpression test consequent alternate =>
      S (expressionSize test + expressionSize consequent + expressionSize alternate)
  | TemplateLiteral _ expressions => S (list_sum (map expressionSize expressions))
  | _ => 1
  end
with memberSize (m : ObjectMember) : nat :=
  match m with
  | ObjectProperty key _ value => S (expressionSize key + expressionSize value)
  | ObjectMethod => 1
  | SpreadProperty argument => S (expressionSize argument)
  end.

(** *** A table of opcodes and a scope model for the examples

    The tables of [../il] are not among the sources. [sampleTables] gives
    each opcode the operands that the calls of [addOp] in the source pass,
    and a stack change: a [Literal] and the loads push a value, a [Pop]
    removes [count] values, a [Branch] takes the condition, a binary
    operation takes two values and leaves one. *)
Definition sampleOperands (opc : Opcode) : list string :=
  match opc with
  | ArrayNew | ObjectNew | ObjectGet | ObjectSet | Return | ClosureNew => []
  | BinOp | UnOp => ["OpOperand"]
  | Branch => ["LabelOperand"; "LabelOperand"]
  | Jump => ["LabelOperand"]
  | Literal => ["LiteralOperand"]
  | LoadArg | LoadScoped | LoadVar | StoreScoped | StoreVar => ["IndexOperand"]
  | LoadGlobal | StoreGlobal => ["NameOperand"]
  | Call | Nop | Pop | ScopePush => ["CountOperand"]
  end.

Definition sampleStackChange (opc : Opcode) (ops : list Operand) : Z :=
  let count := match ops with CountOperand count :: _ => count | _ => 0 end in
  match opc with
  | ArrayNew | ObjectNew | Literal | LoadArg | LoadGlobal | LoadScoped | LoadVar => 1
  | BinOp | Branch | ObjectGet | Return | StoreGlobal | StoreScoped | StoreVar => -1
  | ClosureNew | Jump | Nop | ScopePush | UnOp => 0
  | ObjectSet => -3
  | Call | Pop => - count
  end.

Definition sampleTables : Tables :=
  {| opcodes := sampleOperands;
     minOperandCount := λ opc, length (sampleOperands opc);
     calcStaticStackChangeOfOp := sampleStackChange;
     MAX_INDEX := 0x3FFF;
     MAX_COUNT := 0x3FFF |}.

(** A scope model in which every identifier is a global variable that can
    be written to, as [getGlobalVariableAccessor] gives it. *)
Definition sampleScopeModel : ScopeModel :=
  {| Accessor := string;
     resolveIdentifier := λ name _, ret name;
     accessorLoad := λ name cur, addOp sampleTables cur LoadGlobal [nameOperand name];
     accessorStore := λ name value cur,
       let* cur := value cur in
       addOp sampleTables cur StoreGlobal [nameOperand name];
     compileFunction := λ _ _, ret tt;
     isNameString := λ _, true |}.

(** The cursor and the state that a computation returns, [d] when it
    raises an error. *)
Definition resultOf {A} (r : Result Error (A * State)) (d : A * State) : A * State :=
  match r with
  | OK x => x
  | Err _ => d
  end.

(** A switch statement whose discriminant is the arrow function [() => 1]
    (the node [0]), compiled at the start of a function:
    [switch (() => 1) { ... }] with the cases [cases]. *)
Definition sampleArrowSwitch (cases : list (option Expression * list Statement))
  : Result Error (Cursor * State) :=
  compileStatement sampleTables sampleScopeModel
    (SwitchStatement (ArrowFunctionExpression 0) cases) bodyCur newFunction.

(** [(7 / 2) | 0] *)
Definition sampleDivideAndTrunc : Expression :=
  BinaryExpression "|" (BinaryExpression "/" (NumericLiteral 7) (NumericLiteral 2))
    (NumericLiteral 0).

(** [[1, , 3, , ]] and [[1, , 3]] *)
Definition sampleArrayEndingInElision : list (option Expression) :=
  [Some (NumericLiteral 1); None; Some (NumericLiteral 3); None].

Definition sampleArray : list (option Expression) :=
  [Some (NumericLiteral 1); None; Some (NumericLiteral 3)].

(** [while (true) { let x = 1; break; }] *)
Definition sampleBreakFromBlock : Statement :=
  WhileStatement (BooleanLiteral true)
    (BlockStatement
       [VariableDeclaration "let"
          [{| declaratorId := Identifier "x"; init := Some (NumericLiteral 1);
              bindingInfo := None |}];
        BreakStatement None]).

(** [if (true) { let x = 1; return; } else { } return;] *)
Definition sampleReturnFromBlock : list Statement :=
  [IfStatement (BooleanLiteral true)
     (BlockStatement
        [VariableDeclaration "let"
           [{| declaratorId := Identifier "x"; init := Some (NumericLiteral 1);
               bindingInfo := None |}];
         ReturnStatement None])
     (Some (BlockStatement []));
   ReturnStatement None].

(** *** What [addOp] accepts *)

(** An operand, or its absence, at a position for which the table of the
    opcode gives [expectedType]: a missing operand where the type ends in
    [?], or an operand of that very type, an index within [0] and
    [MAX_INDEX] and a count within [0] and [MAX_COUNT]. *)
Definition operandAccepted (T : Tables) (expectedType : string)
    (operand : option Operand) : Prop :=
  match operand with
  | None => endsWithQuestionMark expectedType = true
  | Some operand =>
      operandType operand = expectedType ∧
      match operand with
      | IndexOperand index => (0 ≤ index ≤ MAX_INDEX T)%Z
      | CountOperand count => (0 ≤ count ≤ MAX_COUNT T)%Z
      | _ => True
      end
  end.

Definition operandsAccepted (T : Tables) (opc : Opcode) (ops : list Operand) : Prop :=
  ∀ i expectedType,
    opcodes T opc !! i = Some expectedType → operandAccepted T expectedType (ops !! i).

(** The operand is a label, and the block that the label stands for, when
    it is known already, expects the stack depth [depth]. *)
Definition targetExpects (s : State) (operand : option Operand) (depth : Z) : Prop :=
  ∃ l target,
    operand = Some (LabelOperand l) ∧ labels s !! l = Some target ∧
    ∀ i, target = Some i →
         ∃ bl, blockOf s i = Some bl ∧ expectedStackDepthAtEntry bl = depth.

Definition targetsExpect (s : State) (opc : Opcode) (ops : list Operand) (depth : Z)
  : Prop :=
  match opc with
  | Jump => targetExpects s (ops !! 0%nat) depth
  | Branch => targetExpects s (ops !! 0%nat) depth ∧ targetExpects s (ops !! 1%nat) depth
  | _ => True
  end.

(** *** Sample blocks *)

(** [{ let x = 1; }] *)
Definition sampleBlock : list Statement :=
  [VariableDeclaration "let"
     [{| declaratorId := Identifier "x"; init := Some (NumericLiteral 1);
         bindingInfo := None |}]].

(** The block [sampleBlock], compiled at the start of a function. *)
Definition sampleBlockResult : Cursor * State :=
  resultOf (compileStatement sampleTables sampleScopeModel (BlockStatement sampleBlock)
              bodyCur newFunction)
           (bodyCur, newFunction).

(** *** The maximum stack depth *)

(** The inner loop of [computeMaximumStackDepth]. *)
Definition maxDepthOfOperations (operations : list Operation) (maxStackDepth : Z) : Z :=
  fold_left (λ maxStackDepth op,
               let maxStackDepth :=
                 if maxStackDepth <? stackDepthBefore op then stackDepthBefore op
                 else maxStackDepth in
               if maxStackDepth <? stackDepthAfter op then stackDepthAfter op
               else maxStackDepth)
            operations maxStackDepth.

(** [computeMaximumStackDepth(func)] for the function being compiled: the
    value that it assigns to [func.maxStackDepth]. The blocks of
    [func.blocks] are block objects that have been created; an entry that
    is not would have no [operations] to loop over. *)
Definition computeMaximumStackDepth (s : State) : Z :=
  fold_left (λ maxStackDepth entry,
               match blockObjects s !! entry.2 with
               | Some (Some bl) => maxDepthOfOperations (operations bl) maxStackDepth
               | _ => maxStackDepth
               end)
            (funcBlocks s) 0%Z.

(** The operations of the function: those of the blocks of [func.blocks]. *)
Definition operationsOf (s : State) : list Operation :=
  entry ← funcBlocks s;
  bl ← option_list (mjoin (blockObjects s !! entry.2));
  operations bl.

(** *** Looking up a variable *)

(** What [findVariable] finds: a local variable, or a variable of the
    module scope at the end of the chain of scopes, of which only the two
    maps [moduleVariables] and [globalVariables] are used. The scope [None]
    is the module scope. *)
Section FindVariable.

Context {V : Type}.
Variable moduleVariables globalVariables : gmap string V.

(** [identifierName in localVars], [localVars[identifierName]] *)
Definition lookupVariable (localVars : list (string * LocalVariable))
    (identifierName : string) : option LocalVariable :=
  (λ found : nat * (string * LocalVariable), found.2.2) <$>
  list_find (λ entry, entry.1 = identifierName) localVars.

(** The loop of [findVariable], with [fuel] scopes to go through. *)
Fixpoint findVariable_from (fuel : nat) (scope : option nat) (identifierName : string)
  : C (LocalVariable + V) :=
  match scope with
  | Some b =>
      let* sc := scopeObject (Some b) in
      match lookupVariable (localVariables sc) identifierName with
      | Some variable => ret (inl variable)
      | None =>
          match fuel with
          | O => throw Unexpected
          | S fuel' => findVariable_from fuel' (parentScope sc) identifierName
          end
      end
  | None =>
      match moduleVariables !! identifierName with
      | Some variable => ret (inr variable)
      | None =>
          match globalVariables !! identifierName with
          | Some variable => ret (inr variable)
          | None => throw (CompileError ("Undefined identifier: " +:+ identifierName))
          end
      end
  end.

(** A scope is created after its parent, so that the chain is not longer
    than the number of scope objects. *)
Definition findVariable (cur : Cursor) (identifierName : string)
  : C (LocalVariable + V) :=
  let* s := get in
  findVariable_from (length (scopeObjects s)) (scope cur) identifierName.

End FindVariable.

(** The declarator [x = 1] of a [let] declaration, compiled in a new
    scope at the start of a function. *)
Definition sampleDeclarator : VariableDeclarator :=
  {| declaratorId := Identifier "x"; init := Some (NumericLiteral 1);
     bindingInfo := None |}.

Definition sampleScoped : State :=
  set_scopeObjects [{| localVariables := []; parentScope := None |}] newFunction.

Definition sampleDeclared : Cursor * State :=
  resultOf (compileVariableDeclarator sampleTables sampleScopeModel "let" (Some 0%nat)
              sampleDeclarator (set_scope (Some 0%nat) bodyCur) sampleScoped)
           (bodyCur, newFunction).

End SrcToIL.

(** * Properties *)

(** ** The monad *)

Lemma bind_OK {E S A B} (c : M E S A) (k : A → M E S B) s a s' :
  c s = OK (a, s') → bind c k s = k a s'.
Proof. intros H. unfold bind. by rewrite H. Qed.

Lemma bind_Err {E S A B} (c : M E S A) (k : A → M E S B) s e :
  c s = Err e → bind c k s = Err e.
Proof. intros H. unfold bind. by rewrite H. Qed.

Lemma bind_inv_OK {E S A B} (c : M E S A) (k : A → M E S B) s b s'' :
  bind c k s = OK (b, s'') → ∃ a s', c s = OK (a, s') ∧ k a s' = OK (b, s'').
Proof.
  unfold bind. destruct (c s) as [[a s']|e]; [eauto | discriminate].
Qed.

Lemma bind_assoc {E S A B C} (c : M E S A) (k : A → M E S B) (h : B → M E S C) s :
  bind (bind c k) h s = bind c (λ a, bind (k a) h) s.
Proof. unfold bind. by destruct (c s) as [[a s']|e]. Qed.


Lemma bind_ret_l {E S A B} (a : A) (k : A → M E S B) : bind (ret a) k = k a.
Proof. reflexivity. Qed.

Lemma bind_throw {E S A B} (e : E) (k : A → M E S B) : bind (throw e) k = throw e.
Proof. reflexivity. Qed.

Lemma bind_inv_Err {E S A B} (c : M E S A) (k : A → M E S B) s e :
  bind c k s = Err e →
  c s = Err e ∨ ∃ a s', c s = OK (a, s') ∧ k a s' = Err e.
Proof.
  unfold bind. destruct (c s) as [[a s']|e']; [eauto|].
  intros [= ->]. by left.
Qed.

Lemma raises_bind {E S A B} (P : E → Prop) (c : M E S A) (k : A → M E S B) :
  raises P c → (∀ a, raises P (k a)) → raises P (bind c k).
Proof.
  intros Hc Hk s e [He|(a & s' & _ & He)]%bind_inv_Err; [by eapply Hc|by eapply Hk].
Qed.

Lemma raises_ret {E S A} (P : E → Prop) (a : A) : raises P (@ret E S A a).
Proof. intros s e. discriminate. Qed.

Lemma raises_get {E S} (P : E → Prop) : raises P (@get E S).
Proof. intros s e. discriminate. Qed.

Lemma raises_gets {E S A} (P : E → Prop) (f : S → A) : raises P (gets f).
Proof. intros s e. discriminate. Qed.

Lemma raises_modify {E S} (P : E → Prop) (f : S → S) : raises P (modify f).
Proof. intros s e. discriminate. Qed.

Lemma raises_throw {E S A} (P : E → Prop) (e : E) :
  P e → raises P (@throw E S A e).
Proof. intros He s e' [= <-]. done. Qed.

Section Ensures.

Context {E S : Type} (R : S → S → Prop).
Hypothesis R_refl : ∀ s, R s s.
Hypothesis R_trans : ∀ s1 s2 s3, R s1 s2 → R s2 s3 → R s1 s3.

Lemma ensures_ret {A} (Q : A → Prop) (a : A) : Q a → ensures R Q (@ret E S A a).
Proof using R_refl. intros Ha s a' s' [= <- <-]. auto. Qed.

Lemma ensures_throw {A} (Q : A → Prop) (e : E) : ensures R Q (@throw E S A e).
Proof. intros s a s'. discriminate. Qed.

Lemma ensures_get (Q : S → Prop) : (∀ s, Q s) → ensures R Q (@get E S).
Proof using R_refl. intros HQ s a s' [= <- <-]. auto. Qed.

Lemma ensures_modify (f : S → S) :
  (∀ s, R s (f s)) → ensures R (λ _, True) (@modify E S f).
Proof. intros Hf s a s' [= <- <-]. auto. Qed.

Lemma ensures_bind {A B} (Q1 : A → Prop) (Q2 : B → Prop)
    (c : M E S A) (k : A → M E S B) :
  ensures R Q1 c → (∀ a, Q1 a → ensures R Q2 (k a)) → ensures R Q2 (bind c k).
Proof using R_trans.
  intros Hc Hk s b s'' (a & s' & H1 & H2)%bind_inv_OK.
  destruct (Hc _ _ _ H1) as [? ?]. destruct (Hk a ltac:(done) _ _ _ H2) as [? ?].
  eauto.
Qed.

Lemma ensures_weaken {A} (Q Q' : A → Prop) (c : M E S A) :
  ensures R Q c → (∀ a, Q a → Q' a) → ensures R Q' c.
Proof. intros Hc HQ s a s' H. destruct (Hc _ _ _ H). auto. Qed.

Lemma ensures_foldM {A B} (f : A → B → M E S A) (xs : list B) :
  Forall (λ x, ∀ a, ensures R (λ _, True) (f a x)) xs →
  ∀ a, ensures R (λ _, True) (foldM f xs a).
Proof using R_refl R_trans.
  induction 1 as [|x xs Hx _ IH]; intros a; simpl.
  - by apply ensures_ret.
  - eapply ensures_bind; [apply Hx|]. intros a' _. apply IH.
Qed.

End Ensures.

(** When a loop returns, every iteration of it has returned. *)
Lemma foldM_inv_step {E S A B} (f : A → B → M E S A) (xs : list B) i x :
  xs !! i = Some x →
  ∀ a s a' s', foldM f xs a s = OK (a', s') →
  ∃ ai si ai' si', f ai x si = OK (ai', si').
Proof.
  revert i. induction xs as [|y xs IH]; intros i Hi a s a' s' H; [done|].
  simpl in H. apply bind_inv_OK in H as (a1 & s1 & H1 & H).
  destruct i as [|i]; simpl in Hi.
  - injection Hi as ->. eauto.
  - eauto.
Qed.

Lemma foldM_app {E S A B} (f : A → B → M E S A) (xs ys : list B) a s :
  foldM f (xs ++ ys) a s = bind (foldM f xs a) (foldM f ys) s.
Proof.
  revert a s. induction xs as [|x xs IH]; intros a s; simpl; [reflexivity|].
  rewrite bind_assoc. unfold bind at 1 2.
  destruct (f a x s) as [[a1 s1]|e]; [|reflexivity]. apply IH.
Qed.

(** ** The decoder *)

Module DecoderFacts.

Import IL Decoder.
Local Open Scope Z_scope.

(** *** Reads *)

Lemma readUInt16LE_OK data s :
  readableAt data (readOffset s) 2 = true →
  readUInt16LE data s
  = OK (uint16LEAt data (readOffset s), set_readOffset (readOffset s + 2) s).
Proof.
  intros H. unfold readUInt16LE, readNext, bind, gets, modify, ret. by rewrite H.
Qed.

Lemma readUInt16LE_Err data s :
  readableAt data (readOffset s) 2 = false →
  readUInt16LE data s = Err ReadBeyondBounds.
Proof.
  intros H. unfold readUInt16LE, readNext, bind, gets, throw. by rewrite H.
Qed.

(** *** Inline integers *)

(** How [decodeValue] treats a word whose top two bits are zero. *)
Lemma decodeValue_inline K data h label s :
  readableAt data (readOffset s) 2 = true →
  Z.land (uint16LEAt data (readOffset s)) 0xC000 = 0 →
  let u16 := uint16LEAt data (readOffset s) in
  let v := NumberValue (Int (if 0x2000 <? u16 then u16 - 0x4000 else u16)) in
  decodeValue K data h label s = OK (Some v, recorded (Value label v) s).
Proof.
  intros Hr Htag u16 v. unfold decodeValue.
  rewrite (bind_OK _ _ _ _ _ eq_refl).
  rewrite (bind_OK _ _ _ _ _ (readUInt16LE_OK _ _ Hr)).
  fold u16. unfold u16 at 1. rewrite Htag. simpl (0 =? 0).
  cbv iota. reflexivity.
Qed.

(** A 16-bit word with the top two bits zero lies below [0x4000]. *)
Lemma inline_word_bound u16 :
  0 ≤ u16 < 65536 → Z.land u16 0xC000 = 0 → u16 < 0x4000.
Proof.
  intros Hr Hl.
  destruct (Z.lt_ge_cases u16 0x4000) as [|Hge]; [done|exfalso].
  assert (Hb : Z.testbit u16 14 = true ∨ Z.testbit u16 15 = true).
  { destruct (Z.testbit u16 14) eqn:H14; [by left|right].
    destruct (Z.testbit u16 15) eqn:H15; [done|exfalso].
    assert (u16 = Z.land u16 (Z.ones 14)) as Heq.
    { apply Z.bits_inj'. intros n Hn. rewrite Z.land_spec.
      destruct (Z.lt_ge_cases n 14).
      - rewrite Z.ones_spec_low by lia. by rewrite andb_true_r.
      - rewrite Z.ones_spec_high by lia. rewrite andb_false_r.
        destruct (Z.eq_dec n 14) as [->|]; [done|].
        destruct (Z.eq_dec n 15) as [->|]; [done|].
        apply Z.bits_above_log2; [lia|].
        apply Z.log2_lt_pow2; [lia|].
        apply Z.lt_le_trans with (2 ^ 16); [lia|].
        apply Z.pow_le_mono_r; lia. }
    rewrite Z.land_ones in Heq by lia.
    pose proof (Z.mod_pos_bound u16 (2 ^ 14) ltac:(lia)). lia. }
  assert (Hz : ∀ n, Z.testbit (Z.land u16 0xC000) n = false)
    by (intros n; rewrite Hl; apply Z.bits_0).
  destruct Hb as [Hb|Hb].
  - specialize (Hz 14). rewrite Z.land_spec, Hb in Hz. discriminate.
  - specialize (Hz 15). rewrite Z.land_spec, Hb in Hz. discriminate.
Qed.

(** Apart from the word [0x2000], inline integers are read as 14-bit two's
    complement numbers. *)
Lemma decodeValue_inline_range u16 :
  0 ≤ u16 < 65536 → Z.land u16 0xC000 = 0 → u16 ≠ 0x2000 →
  let z := if 0x2000 <? u16 then u16 - 0x4000 else u16 in
  -0x2000 ≤ z ≤ 0x1FFF ∧ z `mod` 0x4000 = u16.
Proof.
  intros Hr Hl Hne z. pose proof (inline_word_bound u16 Hr Hl) as Hlt.
  unfold z. destruct (Z.ltb_spec 0x2000 u16).
  - split; [lia|].
    replace (u16 - 0x4000) with (u16 + (-1) * 0x4000) by lia.
    rewrite Z.mod_add by lia. apply Z.mod_small. lia.
  - split; [lia|]. apply Z.mod_small. lia.
Qed.

(** C3: the word [0x2000] has its top two bits zero, and [decodeValue]
    decodes it as the number 8192 (the comparison [u16 > 0x2000] leaves it
    unchanged), which is outside the range -0x2000..0x1FFF of inline
    integers; as a 14-bit two's complement number the word is -8192. *)
Theorem decodeValue_inline_0x2000 K h label :
  Z.land 0x2000 0xC000 = 0 ∧
  decodeValue K [x00; x20]%byte h label initialState
  = OK (Some (NumberValue (Int 8192)),
        recorded (Value label (NumberValue (Int 8192))) initialState) ∧
  ¬ (-0x2000 ≤ 8192 ≤ 0x1FFF).
Proof.
  split; [reflexivity|]. split; [|lia].
  apply (decodeValue_inline K [x00; x20]%byte h label initialState); reflexivity.
Qed.

(** *** Well-known values *)

Lemma wellKnownPrefix_inv K :
  wellKnownPrefix K →
  ∀ w, w ∈ wellKnownWords K →
    (Z.land w 0xC000 =? 0) = false ∧
    (Z.land w 0xC000 =? VM_TAG_PGM_P) && (w <? VM_VALUE_WELLKNOWN_END K) = true.
Proof.
  intros [_ Hp] w Hw. rewrite Forall_forall in Hp.
  destruct (Hp w Hw) as [Htag Hend]. rewrite Htag. split; [done|].
  rewrite Z.eqb_refl. simpl. by apply Z.ltb_lt.
Qed.

(** [decodeValue] on a word of the reserved prefix: the result is that of
    the [switch] over the well-known words. *)
Lemma decodeValue_prefix K data h label s v :
  readableAt data (readOffset s) 2 = true →
  (Z.land (uint16LEAt data (readOffset s)) 0xC000 =? 0) = false →
  (Z.land (uint16LEAt data (readOffset s)) 0xC000 =? VM_TAG_PGM_P)
    && (uint16LEAt data (readOffset s) <? VM_VALUE_WELLKNOWN_END K) = true →
  wellKnownValue K (uint16LEAt data (readOffset s))
    (set_readOffset (readOffset s + 2) s)
  = OK (v, set_readOffset (readOffset s + 2) s) →
  decodeValue K data h label s
  = OK (v, recorded (valueComponent label (uint16LEAt data (readOffset s)) v) s).
Proof.
  intros Hr Htag Hpre Hwk. unfold decodeValue.
  rewrite (bind_OK _ _ _ _ _ eq_refl).
  rewrite (bind_OK _ _ _ _ _ (readUInt16LE_OK _ _ Hr)).
  rewrite Htag, Hpre.
  rewrite (bind_OK _ _ _ _ _ Hwk). reflexivity.
Qed.

Ltac wellKnown_distinct H :=
  destruct H as [H _]; unfold wellKnownWords in H;
  rewrite !NoDup_cons, !not_elem_of_cons in H; destruct_and!.

Ltac wellKnown_switch :=
  unfold wellKnownValue;
  repeat match goal with
         | |- context [?a =? ?a] => rewrite (Z.eqb_refl a)
         | |- context [?a =? ?b] =>
             rewrite (proj2 (Z.eqb_neq a b)) by congruence
         end.

(** The result of [decodeValue] for each word of the [switch]. *)
Lemma decodeValue_switch K data h label s w v :
  wellKnownPrefix K →
  readableAt data (readOffset s) 2 = true →
  w ∈ wellKnownWords K →
  uint16LEAt data (readOffset s) = w →
  (∀ s', wellKnownValue K w s' = OK (v, s')) →
  decodeValue K data h label s = OK (v, recorded (valueComponent label w v) s).
Proof.
  intros HK Hr Hw Hu Hwk.
  destruct (wellKnownPrefix_inv K HK w Hw) as [Htag Hpre]. subst w.
  by apply decodeValue_prefix.
Qed.

(** C8: [decodeValue] returns no value exactly when the word read is
    [VM_VALUE_DELETED], and then it records a [DeletedValue] component of
    two bytes at the address of the word; the words for undefined, null,
    true, false, NaN and negative zero decode to these IL values and are
    recorded as [Value] components. *)
Theorem decodeValue_wellKnown K data h label s :
  wellKnownPrefix K →
  readableAt data (readOffset s) 2 = true →
  let u16 := uint16LEAt data (readOffset s) in
  let decoded v := decodeValue K data h label s = OK (Some v, recorded (Value label v) s) in
  ((∃ s', decodeValue K data h label s = OK (None, s')) ↔ u16 = VM_VALUE_DELETED K) ∧
  (u16 = VM_VALUE_DELETED K →
     decodeValue K data h label s = OK (None, recorded DeletedValue s) ∧
     region (recorded DeletedValue s)
     = region s ++ [Entry (Some (readOffset s)) (Some 2) None DeletedValue]) ∧
  (u16 = VM_VALUE_UNDEFINED K → decoded IL.undefinedValue) ∧
  (u16 = VM_VALUE_NULL K → decoded IL.nullValue) ∧
  (u16 = VM_VALUE_TRUE K → decoded IL.trueValue) ∧
  (u16 = VM_VALUE_FALSE K → decoded IL.falseValue) ∧
  (u16 = VM_VALUE_NAN K → decoded (NumberValue NaN)) ∧
  (u16 = VM_VALUE_NEG_ZERO K → decoded (NumberValue NegZero)).
Proof.
  intros HK Hr. cbv zeta.
  assert (Hword : ∀ w v, w ∈ wellKnownWords K →
            uint16LEAt data (readOffset s) = w →
            (∀ s', wellKnownValue K w s' = OK (v, s')) →
            decodeValue K data h label s
            = OK (v, recorded (valueComponent label w v) s))
    by (intros; by apply decodeValue_switch).
  assert (Hdel : uint16LEAt data (readOffset s) = VM_VALUE_DELETED K →
            decodeValue K data h label s = OK (None, recorded DeletedValue s)).
  { intros Hu. apply (Hword (VM_VALUE_DELETED K) None); [|done|].
    - unfold wellKnownWords. set_solver.
    - intros s'. wellKnown_distinct HK. by wellKnown_switch. }
  split; [split|].
  - (* no value: only the [VM_VALUE_DELETED] case leaves [value] undefined *)
    intros [s' Hd]. unfold decodeValue in Hd.
    rewrite (bind_OK _ _ _ _ _ eq_refl) in Hd.
    rewrite (bind_OK _ _ _ _ _ (readUInt16LE_OK _ _ Hr)) in Hd.
    apply bind_inv_OK in Hd as (v & s1 & Hv & Hd).
    apply bind_inv_OK in Hd as (? & s2 & _ & Hd).
    injection Hd as -> _.
    destruct (Z.land _ 49152 =? 0); [discriminate|].
    destruct ((Z.land _ 49152 =? VM_TAG_PGM_P) && _).
    + unfold wellKnownValue in Hv.
      repeat match type of Hv with
             | (if ?c then _ else _) _ = _ =>
                 let E := fresh "E" in destruct c eqn:E; [try discriminate|]
             end; [|discriminate].
      by apply Z.eqb_eq.
    + apply bind_inv_OK in Hv as (? & ? & _ & Hv).
      apply bind_inv_OK in Hv as (? & ? & _ & Hv). discriminate.
  - intros Hu. eauto.
  - split; [|repeat split]; intros Hu.
    + split; [by apply Hdel|reflexivity].
    + apply (Hword (VM_VALUE_UNDEFINED K) (Some IL.undefinedValue)); [|done|].
      * unfold wellKnownWords. set_solver.
      * intros s'. wellKnown_distinct HK. by wellKnown_switch.
    + apply (Hword (VM_VALUE_NULL K) (Some IL.nullValue)); [|done|].
      * unfold wellKnownWords. set_solver.
      * intros s'. wellKnown_distinct HK. by wellKnown_switch.
    + apply (Hword (VM_VALUE_TRUE K) (Some IL.trueValue)); [|done|].
      * unfold wellKnownWords. set_solver.
      * intros s'. wellKnown_distinct HK. by wellKnown_switch.
    + apply (Hword (VM_VALUE_FALSE K) (Some IL.falseValue)); [|done|].
      * unfold wellKnownWords. set_solver.
      * intros s'. wellKnown_distinct HK. by wellKnown_switch.
    + apply (Hword (VM_VALUE_NAN K) (Some (NumberValue NaN))); [|done|].
      * unfold wellKnownWords. set_solver.
      * intros s'. wellKnown_distinct HK. by wellKnown_switch.
    + apply (Hword (VM_VALUE_NEG_ZERO K) (Some (NumberValue NegZero))); [|done|].
      * unfold wellKnownWords. set_solver.
      * intros s'. wellKnown_distinct HK. by wellKnown_switch.
Qed.

Lemma sampleConstants_prefix : wellKnownPrefix sampleConstants.
Proof.
  split.
  - unfold wellKnownWords. simpl. rewrite !NoDup_cons, !not_elem_of_cons.
    repeat split; try discriminate; try apply not_elem_of_nil. apply NoDup_nil_2.
  - unfold wellKnownWords. repeat constructor.
Defined.

Lemma decodeValue_wellKnown_witness :
  wellKnownPrefix sampleConstants ∧
  decodeValue sampleConstants [x06; xc0]%byte 0 "[0]" initialState
  = OK (None, recorded DeletedValue initialState).
Proof.
  split; [exact sampleConstants_prefix|].
  apply (decodeValue_wellKnown sampleConstants [x06; xc0]%byte 0 "[0]" initialState
           sampleConstants_prefix eq_refl).
  reflexivity.
Defined.

(** *** The CRC detects a changed byte *)

Lemma holdsFrom_spec n x P :
  holdsFrom n x P = true → ∀ y, x ≤ y < x + Z.of_nat n → P y = true.
Proof.
  revert x. induction n as [|n IH]; intros x H y Hy; [lia|].
  simpl in H. apply andb_true_iff in H as [Hx Hn].
  destruct (Z.eq_dec y x) as [->|]; [done|].
  apply (IH (x + 1)); [done|lia].
Qed.

Lemma crc16_unshift_shift crc :
  0 ≤ crc < 65536 → crc16_unshift (crc16_shift crc) = crc.
Proof.
  intros H.
  assert (Hall : holdsFrom (Z.to_nat 65536) 0
                   (λ x, crc16_unshift (crc16_shift x) =? x) = true)
    by (vm_compute; reflexivity).
  apply Z.eqb_eq. apply (holdsFrom_spec _ _ _ Hall). lia.
Qed.

Lemma crc16_shift_range crc : 0 ≤ crc16_shift crc < 65536.
Proof.
  unfold crc16_shift. change 65535 with (Z.ones 16).
  destruct (Z.testbit crc 15); rewrite Z.land_ones by lia;
    apply Z.mod_pos_bound; lia.
Qed.

Lemma crc16_shifts_range n crc :
  0 ≤ crc < 65536 → 0 ≤ Nat.iter n crc16_shift crc < 65536.
Proof. intros H. destruct n; [done|]. simpl. apply crc16_shift_range. Qed.

Lemma crc16_shifts_inj n a b :
  0 ≤ a < 65536 → 0 ≤ b < 65536 →
  Nat.iter n crc16_shift a = Nat.iter n crc16_shift b → a = b.
Proof.
  intros Ha Hb. induction n as [|n IH]; [done|]. simpl. intros H.
  apply IH.
  rewrite <- (crc16_unshift_shift (Nat.iter n crc16_shift a))
    by (by apply crc16_shifts_range).
  rewrite <- (crc16_unshift_shift (Nat.iter n crc16_shift b))
    by (by apply crc16_shifts_range).
  by rewrite H.
Qed.

Lemma lxor_16bit a b : 0 ≤ a < 65536 → 0 ≤ b < 65536 → 0 ≤ Z.lxor a b < 65536.
Proof.
  intros Ha Hb. split; [apply Z.lxor_nonneg; lia|].
  destruct (Z.eq_dec (Z.lxor a b) 0) as [->|Hne]; [lia|].
  assert (0 < Z.lxor a b) by (pose proof (proj2 (Z.lxor_nonneg a b)); lia).
  change 65536 with (2 ^ 16). apply Z.log2_lt_pow2; [done|].
  pose proof (Z.log2_lxor a b ltac:(lia) ltac:(lia)).
  assert (Z.log2 a < 16).
  { destruct (Z.eq_dec a 0) as [->|]; [done|]. apply Z.log2_lt_pow2; lia. }
  assert (Z.log2 b < 16).
  { destruct (Z.eq_dec b 0) as [->|]; [done|]. apply Z.log2_lt_pow2; lia. }
  lia.
Qed.

Lemma lxor_cancel_l a b c : Z.lxor a b = Z.lxor a c → b = c.
Proof.
  intros H.
  rewrite <- (Z.lxor_0_l b), <- (Z.lxor_0_l c), <- (Z.lxor_nilpotent a).
  by rewrite !Z.lxor_assoc, H.
Qed.

Lemma lxor_cancel_r a b c : Z.lxor b a = Z.lxor c a → b = c.
Proof. rewrite !(Z.lxor_comm _ a). apply lxor_cancel_l. Qed.

Lemma byte_to_Z_range b : 0 ≤ byte_to_Z b < 256.
Proof.
  unfold byte_to_Z. pose proof (Byte.to_N_bounded b). lia.
Qed.

Lemma byte_to_Z_inj b b' : byte_to_Z b = byte_to_Z b' → b = b'.
Proof.
  unfold byte_to_Z. intros H. apply N2Z.inj in H.
  pose proof (Byte.of_to_N b) as Hb. rewrite H, Byte.of_to_N in Hb.
  congruence.
Qed.

Lemma shifted_byte_range b : 0 ≤ Z.shiftl (byte_to_Z b) 8 < 65536.
Proof.
  rewrite Z.shiftl_mul_pow2 by lia. pose proof (byte_to_Z_range b). lia.
Qed.

Lemma crc16_update_range crc b : 0 ≤ crc < 65536 → 0 ≤ crc16_update crc b < 65536.
Proof.
  intros H. apply crc16_shifts_range, lxor_16bit; [done|apply shifted_byte_range].
Qed.

(** For a fixed byte the update is injective in the running CRC, ... *)
Lemma crc16_update_inj_crc a a' b :
  0 ≤ a < 65536 → 0 ≤ a' < 65536 →
  crc16_update a b = crc16_update a' b → a = a'.
Proof.
  intros Ha Ha' H. apply crc16_shifts_inj in H;
    [|apply lxor_16bit; [done|apply shifted_byte_range]..].
  by apply lxor_cancel_r in H.
Qed.

(** ... and for a fixed running CRC it is injective in the byte. *)
Lemma crc16_update_inj_byte a b b' :
  0 ≤ a < 65536 → crc16_update a b = crc16_update a b' → b = b'.
Proof.
  intros Ha H. apply crc16_shifts_inj in H;
    [|apply lxor_16bit; [done|apply shifted_byte_range]..].
  apply lxor_cancel_l in H. rewrite !Z.shiftl_mul_pow2 in H by lia.
  apply byte_to_Z_inj. lia.
Qed.

Lemma crc16_fold_range l crc :
  0 ≤ crc < 65536 → 0 ≤ fold_left crc16_update l crc < 65536.
Proof.
  revert crc. induction l as [|b l IH]; intros crc H; [done|].
  simpl. apply IH. by apply crc16_update_range.
Qed.

Lemma crc16_fold_inj l a a' :
  0 ≤ a < 65536 → 0 ≤ a' < 65536 →
  fold_left crc16_update l a = fold_left crc16_update l a' → a = a'.
Proof.
  revert a a'. induction l as [|b l IH]; intros a a' Ha Ha' H; [done|].
  simpl in H. apply IH in H; [|by apply crc16_update_range..].
  by apply crc16_update_inj_crc in H.
Qed.

(** Replacing one byte by another one changes the CRC. *)
Lemma crc16ccitt_change l (i : nat) b b' :
  l !! i = Some b → b' ≠ b → crc16ccitt (<[i := b']> l) ≠ crc16ccitt l.
Proof.
  intros Hi Hne Heq.
  destruct (list_elem_of_split_length l i b Hi) as (l1 & l2 & -> & ->).
  rewrite insert_app_r_alt in Heq by lia.
  rewrite Nat.sub_diag in Heq. simpl in Heq.
  unfold crc16ccitt in Heq. rewrite !fold_left_app in Heq. simpl in Heq.
  assert (Hc : 0 ≤ fold_left crc16_update l1 65535 < 65536)
    by (apply crc16_fold_range; lia).
  apply crc16_fold_inj in Heq; [|by apply crc16_update_range..].
  by apply crc16_update_inj_byte in Heq.
Qed.

(** *** Which errors the decoding steps raise *)

Ltac raises_step :=
  lazymatch goal with
  | |- raises _ (ret _) => apply raises_ret
  | |- raises _ get => apply raises_get
  | |- raises _ (gets _) => apply raises_gets
  | |- raises _ (modify _) => apply raises_modify
  | |- raises _ (throw _) => apply raises_throw; exact I
  | |- raises _ (bind _ _) => apply raises_bind; [|intros ?]
  | |- raises _ (if ?c then _ else _) => destruct c
  | |- raises _ (match ?x with _ => _ end) => destruct x
  | |- raises _ (let _ := _ in _) => cbv zeta
  end.

Ltac raises_steps := repeat raises_step.

Lemma readNext_raises data size decode :
  raises structuralError (readNext data size decode).
Proof. unfold readNext. raises_steps. Qed.

Lemma readUInt16LE_at_raises data offset :
  raises structuralError (readUInt16LE_at data offset).
Proof. unfold readUInt16LE_at. raises_steps. Qed.

Lemma addressToAllocationID_raises address :
  raises structuralError (addressToAllocationID address).
Proof. unfold addressToAllocationID. raises_steps. Qed.

Lemma decodeAllocation_raises K data h address :
  raises structuralError (decodeAllocation K data h address).
Proof.
  unfold decodeAllocation.
  repeat first
    [ apply readUInt16LE_at_raises | apply addressToAllocationID_raises
    | raises_step ].
Qed.

Lemma decodeValue_raises K data h label :
  raises structuralError (decodeValue K data h label).
Proof.
  unfold decodeValue, readUInt16LE, wellKnownValue, pushComponent.
  repeat first
    [ apply readNext_raises | apply addressToAllocationID_raises
    | apply decodeAllocation_raises | raises_step ].
Qed.

Lemma decodeGlobalSlots_raises K data a n h :
  raises structuralError (decodeGlobalSlots K data a n h).
Proof.
  unfold decodeGlobalSlots, seek, beginRegion, endRegion.
  apply raises_bind; [raises_steps|intros _].
  apply raises_bind; [raises_steps|intros _].
  apply raises_bind; [|intros _; raises_steps].
  generalize 0%nat. induction (Z.to_nat n) as [|k IH]; intros i; simpl.
  - raises_steps.
  - apply raises_bind; [apply decodeValue_raises|intros v].
    apply raises_bind; [unfold setGlobalSlot; raises_steps|intros _]. apply IH.
Qed.

(** *** The checks of [decodeSnapshot] *)

Lemma readNext_header data size decode s o :
  readingHeader s o → readableAt data o size = true →
  ∃ s', readNext data size decode s = OK (decode o, s') ∧
        readOffset s' = o + size ∧ region s' = region s ∧
        regionName s' = regionName s ∧ regionStack s' = regionStack s.
Proof.
  intros (<- & _) Hr. unfold readNext, bind, gets, modify, ret.
  rewrite Hr. eexists. split; [reflexivity|]. done.
Qed.

Lemma readNext_beyond data size decode s o :
  readingHeader s o → readableAt data o size = false →
  readNext data size decode s = Err ReadBeyondBounds.
Proof.
  intros (<- & _) Hr. unfold readNext, bind, gets, throw. by rewrite Hr.
Qed.

Lemma readHeaderField8_header data name s o :
  readingHeader s o → readableAt data o 1 = true →
  ∃ s', readHeaderField8 data name s = OK (uint8At data o, s') ∧
        readingHeader s' (o + 1).
Proof.
  intros Hs Hr. pose proof Hs as (Ho & Hn & Hst).
  destruct (readNext_header data 1 (uint8At data) s o Hs Hr)
    as (s1 & E1 & Ho1 & _ & Hn1 & Hst1).
  unfold readHeaderField8, readUInt8.
  rewrite (bind_OK _ _ _ _ _ eq_refl), (bind_OK _ _ _ _ _ E1).
  eexists. split; [reflexivity|].
  unfold readingHeader; simpl. by rewrite Ho1, Hn1, Hst1.
Qed.

Lemma readHeaderField16_header data name isOffset s o :
  readingHeader s o → readableAt data o 2 = true →
  ∃ s', readHeaderField16 data name isOffset s = OK (uint16LEAt data o, s') ∧
        readingHeader s' (o + 2).
Proof.
  intros Hs Hr. pose proof Hs as (Ho & Hn & Hst).
  destruct (readNext_header data 2 (uint16LEAt data) s o Hs Hr)
    as (s1 & E1 & Ho1 & _ & Hn1 & Hst1).
  unfold readHeaderField16, readUInt16LE.
  rewrite (bind_OK _ _ _ _ _ eq_refl), (bind_OK _ _ _ _ _ E1).
  eexists. split; [reflexivity|].
  unfold readingHeader; simpl. by rewrite Ho1, Hn1, Hst1.
Qed.

Lemma readHeaderField32_header data name isOffset s o :
  readingHeader s o → readableAt data o 4 = true →
  ∃ s', readHeaderField32 data name isOffset s = OK (uint32LEAt data o, s') ∧
        readingHeader s' (o + 4).
Proof.
  intros Hs Hr. pose proof Hs as (Ho & Hn & Hst).
  destruct (readNext_header data 4 (uint32LEAt data) s o Hs Hr)
    as (s1 & E1 & Ho1 & _ & Hn1 & Hst1).
  unfold readHeaderField32, readUInt32LE.
  rewrite (bind_OK _ _ _ _ _ eq_refl), (bind_OK _ _ _ _ _ E1).
  eexists. split; [reflexivity|].
  unfold readingHeader; simpl. by rewrite Ho1, Hn1, Hst1.
Qed.

Lemma readHeaderField8_beyond data name s o :
  readingHeader s o → readableAt data o 1 = false →
  readHeaderField8 data name s = Err ReadBeyondBounds.
Proof.
  intros Hs Hr. unfold readHeaderField8, readUInt8.
  rewrite (bind_OK _ _ _ _ _ eq_refl).
  by rewrite (bind_Err _ _ _ _ (readNext_beyond _ _ _ _ _ Hs Hr)).
Qed.

Lemma readHeaderField16_beyond data name isOffset s o :
  readingHeader s o → readableAt data o 2 = false →
  readHeaderField16 data name isOffset s = Err ReadBeyondBounds.
Proof.
  intros Hs Hr. unfold readHeaderField16, readUInt16LE.
  rewrite (bind_OK _ _ _ _ _ eq_refl).
  by rewrite (bind_Err _ _ _ _ (readNext_beyond _ _ _ _ _ Hs Hr)).
Qed.

Lemma readHeaderField32_beyond data name isOffset s o :
  readingHeader s o → readableAt data o 4 = false →
  readHeaderField32 data name isOffset s = Err ReadBeyondBounds.
Proof.
  intros Hs Hr. unfold readHeaderField32, readUInt32LE.
  rewrite (bind_OK _ _ _ _ _ eq_refl).
  by rewrite (bind_Err _ _ _ _ (readNext_beyond _ _ _ _ _ Hs Hr)).
Qed.

Lemma endRegion_header s o :
  readingHeader s o → ∃ s', endRegion "Header" s = OK (tt, s').
Proof.
  intros (_ & Hn & parent & Hst). unfold endRegion.
  rewrite (bind_OK _ _ _ _ _ eq_refl). rewrite Hn, Hst.
  rewrite bool_decide_eq_true_2 by done. simpl. eauto.
Qed.

Lemma readable_true data o size :
  readableAt data o size = true → 0 ≤ o ∧ o + size ≤ bufferLength data.
Proof. unfold readableAt. rewrite andb_true_iff, !Z.leb_le. done. Qed.

Lemma readable_false data o size :
  readableAt data o size = false → 0 ≤ o → bufferLength data < o + size.
Proof.
  unfold readableAt. rewrite andb_false_iff, !Z.leb_gt. lia.
Qed.

Ltac header_field d lem_ok lem_beyond size H R :=
  lazymatch type of H with
  | readingHeader ?s ?o =>
      destruct (readableAt d o size) eqn:R;
      [ let s' := fresh "s" in
        let E := fresh "E" in
        let H' := fresh "H" in
        destruct (lem_ok s o H R) as (s' & E & H');
        rewrite (bind_OK _ _ _ _ _ E); clear E H; rename H' into H;
        let o' := eval vm_compute in (o + size) in
        change (readingHeader s' o') in H; cbv beta
      | rewrite (bind_Err _ _ _ _ (lem_beyond s o H R)) ]
  end.

Ltac field8 H R :=
  lazymatch goal with
  | |- context [bind (readHeaderField8 ?d ?n) _ _] =>
      header_field d (readHeaderField8_header d n) (readHeaderField8_beyond d n) 1 H R
  end.

Ltac field16 H R :=
  lazymatch goal with
  | |- context [bind (readHeaderField16 ?d ?n ?b) _ _] =>
      header_field d (readHeaderField16_header d n b) (readHeaderField16_beyond d n b)
                   2 H R
  end.

Ltac field32 H R :=
  lazymatch goal with
  | |- context [bind (readHeaderField32 ?d ?n ?b) _ _] =>
      header_field d (readHeaderField32_header d n b) (readHeaderField32_beyond d n b)
                   4 H R
  end.

Ltac bounds :=
  repeat match goal with
         | H : readableAt _ _ _ = true |- _ => apply readable_true in H
         | H : readableAt _ _ _ = false |- _ => apply readable_false in H; [|lia]
         end.

Lemma decodeSnapshot_outcome K data : Outcome K data (decodeSnapshot K data).
Proof.
  unfold decodeSnapshot, decodeSnapshot_body.
  rewrite (bind_OK _ _ _ _ _ eq_refl).
  match goal with
  | |- context [bind _ _ ?s0] =>
      assert (H : readingHeader s0 0) by (repeat split; simpl; eauto)
  end.
  field8 H R1; [|apply TooShortForChecks; bounds; lia].
  field8 H R2; [|apply TooShortForChecks; bounds; lia].
  field16 H R3; [|apply TooShortForChecks; bounds; lia].
  field16 H R4; [|apply TooShortForChecks; bounds; lia].
  assert (Hlen : 6 ≤ bufferLength data) by (bounds; lia).
  clear R1 R2 R3 R4.
  fold (bytecodeSizeOf data) (headerSizeOf data) (expectedCRCOf data)
       (bytecodeVersionOf data).
  destruct (Z.eqb_spec (bytecodeSizeOf data) (bufferLength data)) as [Hsize|Hsize];
    cbv beta iota delta [negb]; [|by apply SizeMismatch].
  destruct (Z.eqb_spec (headerSizeOf data) (HEADER_SIZE K)) as [Hhs|Hhs];
    cbv beta iota delta [negb]; [|by apply HeaderSizeMismatch].
  destruct (Z.eqb_spec (crc16ccitt (drop 6 data)) (expectedCRCOf data)) as [Hcrc|Hcrc];
    cbv beta iota delta [negb]; [|by apply CRCFailure].
  assert (Hint : integrityChecksPass K data) by done.
  destruct (Z.eqb_spec (bytecodeVersionOf data) (BYTECODE_VERSION K)) as [Hv|Hv];
    cbv beta iota delta [negb]; [|by apply VersionMismatch].
  field16 H R1; [|apply TooShortForHeader; [done..|bounds; lia]].
  field32 H R2; [|apply TooShortForHeader; [done..|bounds; lia]].
  do 15 (let R := fresh "R" in
         field16 H R; [|apply TooShortForHeader; [done..|bounds; lia]]).
  assert (Hlen' : 42 ≤ bufferLength data) by (bounds; lia).
  destruct (endRegion_header _ _ H) as (s' & E).
  rewrite (bind_OK _ _ _ _ _ E). cbv beta.
  fold (requiredEngineVersionOf data).
  destruct (Z.eqb_spec (requiredEngineVersionOf data) (ENGINE_VERSION K)) as [He|He];
    cbv beta iota delta [negb]; [|by apply EngineMismatch].
  apply ChecksPassed; [done|].
  intros e.
  match goal with
  | |- match ?c ?s with _ => _ end = _ → _ =>
      assert (Hr : raises structuralError c); [|specialize (Hr s); destruct (c s) as [[? ?]|e']]
  end.
  - apply raises_bind; [unfold decodeFlags; raises_steps|intros _].
    apply raises_bind; [apply decodeGlobalSlots_raises|intros _].
    unfold pushComponent. raises_steps.
  - discriminate.
  - intros [= <-]. by apply Hr.
Qed.

(** *** Changing a byte behind the checked fields *)

Lemma byteAt_insert_ne data (i : nat) b' o :
  0 ≤ o → Z.to_nat o ≠ i → byteAt (<[i := b']> data) o = byteAt data o.
Proof.
  intros Ho Hne. unfold byteAt. by rewrite list_lookup_insert_ne.
Qed.

Lemma checked_fields_insert data (i : nat) b' :
  (6 ≤ i)%nat →
  bufferLength (<[i := b']> data) = bufferLength data ∧
  bytecodeSizeOf (<[i := b']> data) = bytecodeSizeOf data ∧
  headerSizeOf (<[i := b']> data) = headerSizeOf data ∧
  expectedCRCOf (<[i := b']> data) = expectedCRCOf data.
Proof.
  intros Hi. unfold bufferLength, bytecodeSizeOf, headerSizeOf, expectedCRCOf,
    uint16LEAt, uint8At.
  rewrite length_insert. rewrite !byteAt_insert_ne by lia. done.
Qed.

Lemma decodeSnapshot_changed_byte K data (i : nat) b b' :
  integrityChecksPass K data → (6 ≤ i)%nat → data !! i = Some b → b' ≠ b →
  decodeSnapshot K (<[i := b']> data) = Err (InvalidOperation CRCMismatch).
Proof.
  intros (Hlen & Hsize & Hhs & Hcrc) Hi Hb Hne.
  destruct (checked_fields_insert data i b' Hi) as (Hl' & Hs' & Hh' & Hc').
  assert (Hcrc' : crc16ccitt (drop 6 (<[i := b']> data))
                  ≠ expectedCRCOf (<[i := b']> data)).
  { rewrite Hc', <- Hcrc, drop_insert_ge by done.
    apply crc16ccitt_change with b; [|done].
    rewrite lookup_drop. by replace (6 + (i - 6))%nat with i by lia. }
  pose proof (decodeSnapshot_outcome K (<[i := b']> data)) as Ho.
  remember (decodeSnapshot K (<[i := b']> data)) as r eqn:Er. clear Er.
  destruct Ho as [?|?|?|?|Hi'|Hi'|Hi'|? [Hi' _]];
    try done; try lia; try congruence;
    by destruct Hi' as (_ & _ & _ & ?).
Qed.

(** C2 (amended): [decodeSnapshot] rejects an image through
    [invalidOperation] in exactly these cases, tested in this order once
    the six bytes of the checked fields are there: the [bytecodeSize] field
    differs from the buffer length (size mismatch); [headerSize] differs
    from [HEADER_SIZE]; the CRC-16-CCITT of the bytes from offset 6 on
    differs from [expectedCRC]; [bytecodeVersion] differs from
    [BYTECODE_VERSION]; and, once the remaining header fields are read,
    [requiredEngineVersion] differs from [ENGINE_VERSION]. There is no check
    of the feature flags. An image that is decoded passes all five checks,
    and changing any byte at an offset of at least 6 of an image that passes
    the first three checks makes decoding fail with the CRC mismatch. *)
Theorem decodeSnapshot_rejections K data :
  (decodeSnapshot K data = Err (InvalidOperation BytecodeSizeMismatch) ↔
     6 ≤ bufferLength data ∧ bytecodeSizeOf data ≠ bufferLength data) ∧
  (decodeSnapshot K data = Err (InvalidOperation HeaderSizeUnexpected) ↔
     6 ≤ bufferLength data ∧ bytecodeSizeOf data = bufferLength data ∧
     headerSizeOf data ≠ HEADER_SIZE K) ∧
  (decodeSnapshot K data = Err (InvalidOperation CRCMismatch) ↔
     6 ≤ bufferLength data ∧ bytecodeSizeOf data = bufferLength data ∧
     headerSizeOf data = HEADER_SIZE K ∧
     crc16ccitt (drop 6 data) ≠ expectedCRCOf data) ∧
  (∀ v, decodeSnapshot K data
        = Err (InvalidOperation (BytecodeVersionNotSupported v)) ↔
     integrityChecksPass K data ∧ v = bytecodeVersionOf data ∧
     v ≠ BYTECODE_VERSION K) ∧
  (∀ v, decodeSnapshot K data
        = Err (InvalidOperation (EngineVersionNotSupported v)) ↔
     integrityChecksPass K data ∧ bytecodeVersionOf data = BYTECODE_VERSION K ∧
     42 ≤ bufferLength data ∧ v = requiredEngineVersionOf data ∧
     v ≠ ENGINE_VERSION K) ∧
  (∀ r, decodeSnapshot K data = OK r → allChecksPass K data) ∧
  (∀ (i : nat) b b',
     integrityChecksPass K data → (6 ≤ i)%nat → data !! i = Some b → b' ≠ b →
     decodeSnapshot K (<[i := b']> data) = Err (InvalidOperation CRCMismatch)).
Proof.
  pose proof (decodeSnapshot_outcome K data) as Ho.
  remember (decodeSnapshot K data) as r eqn:Er.
  split_and!; try (intros; subst r; by eapply decodeSnapshot_changed_byte);
    clear Er;
    destruct Ho as [?|?|?|?|Hi|Hi|Hi|r [Hi Hv] Hr];
    try destruct Hi as (? & ? & ? & ?);
    try destruct Hv as (? & ? & ?);
    intros; try split; intros;
    repeat match goal with
           | H : Err _ = Err _ |- _ => injection H as H; try subst
           | H : _ ∧ _ |- _ => destruct H
           | H : integrityChecksPass _ _ |- _ => destruct H as (? & ? & ? & ?)
           end;
    try discriminate; try congruence; try lia;
    try (repeat split; congruence);
    try (exfalso; eapply (Hr _ ltac:(eassumption)); fail);
    try done.
Qed.

(** C2, as stated, fails: an image can pass every check and still not be
    decoded. [imageMissingGlobal] passes the five checks, but announces a
    global behind its end, and decoding stops with the read error of the
    buffer. Feature flags are never rejected: [imageAllFlags] requires all
    32 of them and is decoded. *)
Lemma decodeSnapshot_checks_not_sufficient :
  allChecksPass sampleConstants imageMissingGlobal ∧
  decodeSnapshot sampleConstants imageMissingGlobal = Err ReadBeyondBounds ∧
  ∃ r, decodeSnapshot sampleConstants imageAllFlags = OK r ∧
       flags (fst r) = seq 0 32.
Proof.
  split; [|split].
  - unfold allChecksPass, integrityChecksPass.
    split_and!; try (vm_compute; congruence).
  - vm_compute. reflexivity.
  - eexists. split; [vm_compute; reflexivity|]. reflexivity.
Qed.

(** *** Decoding a value *)

Lemma allocated_refl s : allocated s s.
Proof. split; [unfold sameRegions; by repeat split|]. split; auto. Qed.

Lemma allocated_trans s1 s2 s3 : allocated s1 s2 → allocated s2 s3 → allocated s1 s3.
Proof.
  intros ((?&?&?&?&?&?&?) & Hwf1 & Hid1) ((?&?&?&?&?&?&?) & Hwf2 & Hid2).
  split; [|split]; [|tauto|eauto].
  repeat split; congruence.
Qed.

Lemma addressToAllocationID_allocated address :
  ∀ s i s', addressToAllocationID address s = OK (i, s') →
            allocated s s' ∧ allocationIDByAddress s' !! address = Some i.
Proof.
  intros s i s'. unfold addressToAllocationID, bind, get, modify, ret. simpl.
  destruct (allocationIDByAddress s !! address) as [j|] eqn:Hj.
  - intros [= <- <-]. split; [apply allocated_refl|done].
  - intros [= <- <-]. simpl. split; [|by rewrite lookup_insert_eq].
    split; [done|]. split.
    + intros [Hlt Hinj]. split; simpl.
      * intros a i. destruct (decide (a = address)) as [->|Hne].
        -- rewrite lookup_insert_eq. intros [= <-]. lia.
        -- rewrite lookup_insert_ne by done. intros Ha%Hlt. lia.
      * intros a a' i.
        destruct (decide (a = address)) as [->|Hne];
          destruct (decide (a' = address)) as [->|Hne']; [done|..];
          rewrite ?lookup_insert_eq, ?lookup_insert_ne by done.
        -- intros [= <-] Ha'%Hlt. lia.
        -- intros Ha%Hlt [= <-]. lia.
        -- apply Hinj.
    + intros a i Ha. simpl. rewrite lookup_insert_ne; [done|]. intros ->. congruence.
Qed.

Ltac allocated_step :=
  lazymatch goal with
  | |- ensures allocated _ (bind _ _) =>
      eapply (ensures_bind allocated allocated_trans (λ _, True)); [|intros ? _]
  | |- ensures allocated _ (ret _) => by apply (ensures_ret allocated allocated_refl)
  | |- ensures allocated _ (throw _) => apply ensures_throw
  | |- ensures allocated _ get =>
      by apply (ensures_get allocated allocated_refl (λ _, True))
  | |- ensures allocated _ (modify _) => by apply ensures_modify
  | |- ensures allocated _ (if ?c then _ else _) => destruct c
  end.

Lemma decodeAllocation_allocated K data h address :
  ensures allocated (λ _, True) (decodeAllocation K data h address).
Proof.
  assert (∀ offset, ensures allocated (λ _, True) (readUInt16LE_at data offset))
    as Hread.
  { intros offset. unfold readUInt16LE_at. repeat allocated_step. }
  assert (ensures allocated (λ _, True) (addressToAllocationID address)) as Hid.
  { intros s i s' H. apply addressToAllocationID_allocated in H as [H _].
    split; [exact H|exact I]. }
  unfold decodeAllocation.
  repeat first [apply Hread | apply Hid | allocated_step].
Qed.

(** What [decodeValue] does when it returns: the word at the read offset
    could be read, the read offset is behind it, the one entry for it has
    been recorded, and a pointer has the identifier that is kept for its
    address. *)
Lemma decodeValue_decoded K data h label s v s' :
  decodeValue K data h label s = OK (v, s') →
  readableAt data (readOffset s) 2 = true ∧
  allocated (recorded (valueComponent label (uint16LEAt data (readOffset s)) v) s) s' ∧
  if isPointer K (uint16LEAt data (readOffset s)) then
    ∃ i, v = Some (ReferenceValue i) ∧
         allocationIDByAddress s' !! uint16LEAt data (readOffset s) = Some i
  else s' = recorded (valueComponent label (uint16LEAt data (readOffset s)) v) s ∧
       ∀ i, v ≠ Some (ReferenceValue i).
Proof.
  unfold decodeValue. rewrite (bind_OK _ _ _ _ _ eq_refl).
  destruct (readableAt data (readOffset s) 2) eqn:Hr;
    [|by rewrite (bind_Err _ _ _ _ (readUInt16LE_Err _ _ Hr))].
  rewrite (bind_OK _ _ _ _ _ (readUInt16LE_OK _ _ Hr)).
  set (u16 := uint16LEAt data (readOffset s)). unfold isPointer.
  intros (v0 & s1 & Hv & H)%bind_inv_OK.
  apply bind_inv_OK in H as ([] & s2 & H & [= -> <-]).
  unfold pushComponent, modify in H. injection H as <-.
  split; [done|].
  destruct (Z.land u16 0xC000 =? 0); simpl.
  { injection Hv as <- <-. split; [apply allocated_refl|done]. }
  destruct ((Z.land u16 0xC000 =? VM_TAG_PGM_P) && (u16 <? VM_VALUE_WELLKNOWN_END K));
    simpl.
  { assert (s1 = set_readOffset (readOffset s + 2) s ∧
            ∀ i, v ≠ Some (ReferenceValue i)) as [-> ?];
      [|split; [apply allocated_refl|done]].
    revert Hv. unfold wellKnownValue.
    repeat (case_match; [by intros [= <- <-]|]). discriminate. }
  apply bind_inv_OK in Hv as (i & s3 & [Hal Hi]%addressToAllocationID_allocated & Hv).
  apply bind_inv_OK in Hv as ([] & s4 & Hal'%decodeAllocation_allocated & [= <- <-]).
  destruct Hal' as [Hal' _].
  pose proof (allocated_trans _ _ _ Hal Hal') as Hall.
  split.
  - destruct Hall as ((?&?&?&?&?&?&?) & Hwf & Hid).
    split; [|split]; [repeat split; simpl in *; congruence|done|done].
  - exists i. split; [done|]. simpl. by apply Hal'.
Qed.

(** X6: when [decodeValue] returns, it has read one word: the read offset
    has moved by two bytes, exactly one entry of two bytes has been
    recorded at the offset of the word, for the value returned, and the
    open regions and the snapshot information are as before. This holds
    for integers, well-known values and pointers alike. *)
Theorem decodeValue_reads_one_word K data h label s v s' :
  decodeValue K data h label s = OK (v, s') →
  0 ≤ readOffset s ∧ readOffset s + 2 ≤ bufferLength data ∧
  readOffset s' = readOffset s + 2 ∧
  region s' = region s ++ [valueEntry data (readOffset s) label v] ∧
  regionStack s' = regionStack s ∧ regionName s' = regionName s ∧
  snapshotInfo s' = snapshotInfo s.
Proof.
  intros (Hr%readable_true & ((?&?&?&?&?&?&?) & _) & _)%decodeValue_decoded.
  by repeat split; try lia.
Qed.

Lemma decodeValue_reads_one_word_witness :
  decodeValue sampleConstants [x00; x20]%byte 0 "[0]" initialState =
    OK (Some (NumberValue (Int 8192)),
        recorded (Value "[0]" (NumberValue (Int 8192))) initialState) ∧
  readOffset (recorded (Value "[0]" (NumberValue (Int 8192))) initialState) = 0 + 2.
Proof.
  split; [vm_compute; reflexivity|].
  apply (decodeValue_reads_one_word sampleConstants [x00; x20]%byte 0 "[0]"
           initialState (Some (NumberValue (Int 8192)))
           (recorded (Value "[0]" (NumberValue (Int 8192))) initialState)).
  vm_compute. reflexivity.
Defined.

(** *** The globals *)

Lemma globalEntries_cons data offset i v values :
  globalEntries data offset i (v :: values) =
  valueEntry data offset ("[" +:+ pretty i +:+ "]")%string v ::
  globalEntries data (offset + 2) (S i) values.
Proof.
  unfold globalEntries. rewrite imap_cons. f_equal.
  - by rewrite Z.mul_0_r, Z.add_0_r, Nat.add_0_r.
  - apply imap_ext. intros k v' _. simpl. f_equal; [lia|].
    by rewrite Nat.add_succ_r.
Qed.

Lemma globalSlotsOf_cons i v values :
  globalSlotsOf i (v :: values) =
  (("global" +:+ pretty i)%string, {| value := v; indexHint := i |}) ::
  globalSlotsOf (S i) values.
Proof.
  unfold globalSlotsOf. rewrite imap_cons. f_equal.
  - by rewrite Nat.add_0_r.
  - apply imap_ext. intros k v' _. simpl. by rewrite Nat.add_succ_r.
Qed.

(** The loop of [decodeGlobalSlots], when it returns: it has decoded [n]
    consecutive words. *)
Lemma decodeGlobalSlots_from_decoded K data h n : ∀ i s u s',
  decodeGlobalSlots_from K data h n i s = OK (u, s') →
  ∃ values,
    length values = n ∧
    (n ≠ 0%nat → 0 ≤ readOffset s ∧
                 readOffset s + 2 * Z.of_nat n ≤ bufferLength data) ∧
    readOffset s' = readOffset s + 2 * Z.of_nat n ∧
    region s' = region s ++ globalEntries data (readOffset s) i values ∧
    regionStack s' = regionStack s ∧ regionName s' = regionName s ∧
    regionStart s' = regionStart s ∧
    dataAllocationsMapping s' = dataAllocationsMapping s ∧
    globalSlots (snapshotInfo s') =
      globalSlots (snapshotInfo s) ++ globalSlotsOf i values ∧
    flags (snapshotInfo s') = flags (snapshotInfo s) ∧
    (idsWellFormed s → idsWellFormed s') ∧
    (∀ a j, allocationIDByAddress s !! a = Some j →
            allocationIDByAddress s' !! a = Some j) ∧
    ∀ (k : nat) j, values !! k = Some (Some (ReferenceValue j)) →
      allocationIDByAddress s'
        !! uint16LEAt data (readOffset s + 2 * Z.of_nat k) = Some j.
Proof.
  induction n as [|n IH]; intros i s u s'; simpl.
  - intros [= <- <-]. exists []. simpl. rewrite Z.add_0_r, !app_nil_r.
    split_and!; done.
  - intros (v & s1 & Hv & H)%bind_inv_OK.
    apply bind_inv_OK in H as ([] & s2 & [= <-] & H).
    apply decodeValue_decoded in Hv as (Hr%readable_true & Hal & Hp).
    destruct Hal as ((Ho1 & Hreg1 & Hst1 & Hn1 & Hstart1 & Hinfo1 & Hd1) & Hwf1 & Hid1).
    simpl in Ho1, Hreg1, Hst1, Hn1, Hstart1, Hinfo1, Hd1, Hid1.
    apply IH in H
      as (values & Hlen & Hb & Ho & Hreg & Hst & Hn & Hstart & Hd & Hg & Hf & Hwf & Hid & Hvs).
    simpl in Hb, Ho, Hreg, Hst, Hn, Hstart, Hd, Hg, Hf, Hid, Hvs.
    exists (v :: values). rewrite globalEntries_cons, globalSlotsOf_cons.
    split; [simpl; by rewrite Hlen|].
    split.
    { intros _. destruct n as [|n]; [lia|]. specialize (Hb ltac:(done)). lia. }
    split; [lia|].
    split; [by rewrite Hreg, Hreg1, Ho1, <- app_assoc|].
    split; [congruence|]. split; [congruence|]. split; [congruence|].
    split; [congruence|].
    split; [by rewrite Hg, Hinfo1, <- app_assoc|].
    split; [by rewrite Hf, Hinfo1|].
    split; [intros Hs; apply Hwf; split; apply Hwf1, Hs|].
    split; [intros a j Ha; by apply Hid, Hid1|].
    intros [|k] j Hk; simpl in Hk.
    + injection Hk as ->. rewrite Z.mul_0_r, Z.add_0_r in *.
      destruct (isPointer K _).
      * destruct Hp as (j' & [= <-] & Hj). by apply Hid.
      * destruct Hp as [_ Hp]. by destruct (Hp j).
    + specialize (Hvs k j Hk). rewrite Ho1 in Hvs.
      replace (readOffset s + 2 + 2 * Z.of_nat k)
        with (readOffset s + 2 * Z.of_nat (S k)) in Hvs by lia.
      done.
Qed.

(** What [decodeGlobalSlots] has done when it returns. *)
Lemma decodeGlobalSlots_decoded K data a n h s u s' :
  decodeGlobalSlots K data a n h s = OK (u, s') →
  ∃ values,
    length values = Z.to_nat n ∧
    0 ≤ a ∧ a + 2 * Z.of_nat (length values) ≤ bufferLength data ∧
    readOffset s' = a + 2 * Z.of_nat (length values) ∧
    region s' =
      region s ++
      [Entry (Some a) None None (Region "Globals" (globalEntries data a 0 values))] ∧
    regionStack s' = regionStack s ∧ regionName s' = regionName s ∧
    globalSlots (snapshotInfo s') =
      globalSlots (snapshotInfo s) ++ globalSlotsOf 0 values ∧
    flags (snapshotInfo s') = flags (snapshotInfo s) ∧
    dataAllocationsMapping s' = dataAllocationsMapping s ∧
    (idsWellFormed s →
     ∀ (k k' : nat) j j',
       values !! k = Some (Some (ReferenceValue j)) →
       values !! k' = Some (Some (ReferenceValue j')) →
       j = j' ↔ uint16LEAt data (a + 2 * Z.of_nat k) =
                uint16LEAt data (a + 2 * Z.of_nat k')).
Proof.
  unfold decodeGlobalSlots. intros ([] & s1 & Hseek & H)%bind_inv_OK.
  apply bind_inv_OK in H as ([] & s2 & [= <-] & H).
  apply bind_inv_OK in H as ([] & s3 & Hloop & Hend).
  revert Hseek. unfold seek.
  destruct (Z.leb_spec 0 a) as [Ha|]; [|discriminate].
  destruct (Z.leb_spec a (bufferLength data)) as [Ha'|]; [|discriminate].
  intros [= <-].
  apply decodeGlobalSlots_from_decoded in Hloop
    as (values & Hlen & Hb & Ho & Hreg & Hst & Hn & Hstart & Hd & Hg & Hf & Hwf & Hid & Hvs).
  simpl in Hb, Ho, Hreg, Hst, Hn, Hstart, Hd, Hg, Hf, Hwf, Hid, Hvs.
  revert Hend. unfold endRegion. rewrite (bind_OK _ _ _ _ _ eq_refl).
  rewrite Hn, Hst. rewrite bool_decide_eq_true_2 by done. simpl.
  unfold modify. intros [= Hs']. subst s'. simpl. exists values. rewrite Hlen.
  split; [done|]. split; [done|].
  split. { destruct (Z.to_nat n); [simpl; lia|]. specialize (Hb ltac:(done)). lia. }
  split; [done|].
  split.
  { unfold closeRegion. rewrite last_snoc, removelast_last. by rewrite Hreg. }
  split; [done|]. split; [done|]. split; [done|]. split; [done|]. split; [done|].
  intros Hs k k' j j' Hk Hk'.
  pose proof (Hvs k j Hk) as Hj. pose proof (Hvs k' j' Hk') as Hj'.
  destruct (Hwf Hs) as [_ Hinj]. split.
  - intros <-. by eapply Hinj.
  - intros Heq. rewrite Heq in Hj. congruence.
Qed.

(** X7: when [decodeGlobalSlots] returns, the words of the globals lie
    within the image from the offset given on, one after the other; the
    region [Globals] has been recorded with one entry of two bytes for each
    of them, global number [i] has the name [global] followed by [i] and
    the index hint [i], and two globals that are references have the same
    allocation identifier exactly when their words are the same. *)
Theorem decodeGlobalSlots_globals K data a n h s u s' :
  decodeGlobalSlots K data a n h s = OK (u, s') →
  ∃ values,
    length values = Z.to_nat n ∧
    0 ≤ a ∧ a + 2 * Z.of_nat (length values) ≤ bufferLength data ∧
    readOffset s' = a + 2 * Z.of_nat (length values) ∧
    region s' =
      region s ++
      [Entry (Some a) None None (Region "Globals" (globalEntries data a 0 values))] ∧
    regionStack s' = regionStack s ∧ regionName s' = regionName s ∧
    globalSlots (snapshotInfo s') =
      globalSlots (snapshotInfo s) ++ globalSlotsOf 0 values ∧
    flags (snapshotInfo s') = flags (snapshotInfo s) ∧
    (idsWellFormed s →
     ∀ (k k' : nat) j j',
       values !! k = Some (Some (ReferenceValue j)) →
       values !! k' = Some (Some (ReferenceValue j')) →
       j = j' ↔ uint16LEAt data (a + 2 * Z.of_nat k) =
                uint16LEAt data (a + 2 * Z.of_nat k')).
Proof.
  intros (values & ? & ? & ? & ? & ? & ? & ? & ? & ? & _ & ?)%decodeGlobalSlots_decoded.
  exists values. by split_and!.
Qed.

Lemma decodeGlobalSlots_globals_witness :
  ∃ values,
    length values = 1%nat ∧
    0 ≤ 42 ∧ 42 + 2 * Z.of_nat (length values) ≤ bufferLength imageGlobal0x2000 ∧
    globalSlots
      (snapshotInfo
         (match decodeGlobalSlots sampleConstants imageGlobal0x2000 42 1 0 initialState
          with
          | OK (_, s') => s'
          | Err _ => initialState
          end)) = globalSlotsOf 0 values.
Proof.
  destruct (decodeGlobalSlots_globals sampleConstants imageGlobal0x2000 42 1 0
              initialState tt
              (match decodeGlobalSlots sampleConstants imageGlobal0x2000 42 1 0
                       initialState with
               | OK (_, s') => s'
               | Err _ => initialState
               end))
    as (values & Hlen & Ha & Hb & _ & _ & _ & _ & Hg & _).
  - vm_compute. reflexivity.
  - exists values. split; [exact Hlen|]. split; [exact Ha|]. split; [exact Hb|].
    exact Hg.
Defined.

(** *** The whole image *)

Lemma readHeaderField8_OK data name s :
  readableAt data (readOffset s) 1 = true →
  readHeaderField8 data name s =
  OK (uint8At data (readOffset s),
      set_region
        (region s ++
         [Entry (Some (readOffset s)) (Some 1) None
            (HeaderField name (uint8At data (readOffset s)) false)])
        (set_readOffset (readOffset s + 1) s)).
Proof.
  intros Hr. unfold readHeaderField8, readUInt8, readNext, pushComponent,
    bind, gets, modify, ret. by rewrite Hr.
Qed.

Lemma readHeaderField16_OK data name isOffset s :
  readableAt data (readOffset s) 2 = true →
  readHeaderField16 data name isOffset s =
  OK (uint16LEAt data (readOffset s),
      set_region
        (region s ++
         [Entry (Some (readOffset s)) (Some 2) None
            (HeaderField name (uint16LEAt data (readOffset s)) isOffset)])
        (set_readOffset (readOffset s + 2) s)).
Proof.
  intros Hr. unfold readHeaderField16, readUInt16LE, readNext, pushComponent,
    bind, gets, modify, ret. by rewrite Hr.
Qed.

Lemma readHeaderField32_OK data name isOffset s :
  readableAt data (readOffset s) 4 = true →
  readHeaderField32 data name isOffset s =
  OK (uint32LEAt data (readOffset s),
      set_region
        (region s ++
         [Entry (Some (readOffset s)) (Some 4) None
            (HeaderField name (uint32LEAt data (readOffset s)) isOffset)])
        (set_readOffset (readOffset s + 4) s)).
Proof.
  intros Hr. unfold readHeaderField32, readUInt32LE, readNext, pushComponent,
    bind, gets, modify, ret. by rewrite Hr.
Qed.

Lemma readableAt_within data o size :
  0 ≤ o → o + size ≤ bufferLength data → readableAt data o size = true.
Proof.
  intros Ho Hs. unfold readableAt. apply andb_true_intro. split; by apply Z.leb_le.
Qed.

(** Adds up the offsets. *)
Ltac offsets :=
  repeat match goal with
    | |- context [Z.add Z0 ?x] => change (Z.add Z0 x) with x
    | |- context [Z.add (Zpos ?p) (Zpos ?q)] =>
        let v := eval vm_compute in (Z.add (Zpos p) (Zpos q)) in
        change (Z.add (Zpos p) (Zpos q)) with v
    end.

(** Writes the state out as a record again. *)
Ltac state :=
  unfold set_region, set_readOffset, set_regions;
  cbn [readOffset region regionStack regionName regionStart dataAllocationsMapping
       gcAllocationsMapping processedAllocations nextAllocationID
       allocationIDByAddress snapshotInfo app];
  offsets.

Ltac header_read :=
  lazymatch goal with
  | |- context [bind (readHeaderField8 ?d ?n) _ ?s] =>
      rewrite (bind_OK _ _ _ _ _
                 (readHeaderField8_OK d n s
                    ltac:(apply readableAt_within; simpl; lia)))
  | |- context [bind (readHeaderField16 ?d ?n ?b) _ ?s] =>
      rewrite (bind_OK _ _ _ _ _
                 (readHeaderField16_OK d n b s
                    ltac:(apply readableAt_within; simpl; lia)))
  | |- context [bind (readHeaderField32 ?d ?n ?b) _ ?s] =>
      rewrite (bind_OK _ _ _ _ _
                 (readHeaderField32_OK d n b s
                    ltac:(apply readableAt_within; simpl; lia)))
  end;
  state.

(** The body of [decodeSnapshot] on an image that passes the checks: what
    is left to do after the header. *)
Lemma decodeSnapshot_body_afterHeader K data :
  allChecksPass K data →
  decodeSnapshot_body K data initialState =
  (decodeFlags (requiredFeatureFlagsOf data) ;;
   decodeGlobalSlots K data (initialDataOffsetOf data) (globalVariableCountOf data)
     (initialHeapOffsetOf data) ;;
   let* s := get in
   pushComponent (Entry (Some (readOffset s)) None None
                    (Region "Data allocations" (dataAllocationsMapping s))) ;;
   pushComponent (Entry None None None
                    (Region "GC allocations" (gcAllocationsMapping s))) ;;
   let* s := get in
   if negb (bool_decide (regionStack s = [])) then throw AssertionFailed else
   ret (snapshotInfo s,
        {| bytecodeSize := bufferLength data; components := region s |}))
    (afterHeader data).
Proof.
  intros ((Hlen6 & Hsize & Hhs & Hcrc) & Hv & Hlen & He).
  unfold decodeSnapshot_body.
  rewrite (bind_OK _ _ _ _ _ eq_refl). unfold initialState. state.
  do 4 header_read.
  fold (bytecodeSizeOf data) (headerSizeOf data) (expectedCRCOf data)
       (bytecodeVersionOf data).
  rewrite Hsize, Hhs, Hcrc, Hv, !Z.eqb_refl. cbn [negb].
  do 17 header_read.
  rewrite (bind_OK _ _ _ _ _ eq_refl).
  fold (requiredEngineVersionOf data). rewrite He, Z.eqb_refl. cbn [negb].
  unfold afterHeader, headerFields, headerField16.
  fold (bytecodeSizeOf data) (headerSizeOf data) (expectedCRCOf data)
       (bytecodeVersionOf data) (requiredEngineVersionOf data).
  rewrite Hsize, Hhs, Hv, He. reflexivity.
Qed.

Lemma decodeFlags_OK flags s :
  decodeFlags flags s =
  OK (tt, set_snapshotInfo
            {| globalSlots := globalSlots (snapshotInfo s);
               flags := Decoder.flags (snapshotInfo s) ++
                        filter (λ i, Z.testbit flags (Z.of_nat i) = true) (seq 0 32) |}
            s).
Proof. done. Qed.

(** X8: an image that [decodeSnapshot] accepts is decoded as follows. The
    size returned is the length of the image; the flags are the numbers of
    the bits that are set in [requiredFeatureFlags]; there are
    [globalVariableCount] global slots, named [global0], [global1], ... with
    their numbers as index hints, decoded from the words from
    [initialDataOffset] on, which lie within the image, and two of them
    that are references have the same allocation identifier exactly when
    their words are the same. The components that are handed to
    [finalizeRegions] are the region [Header] with the 21 header fields at
    their offsets, the region [Globals], the region [Data allocations],
    which is empty, and the region [GC allocations]. *)
Theorem decodeSnapshot_decoded K data info mapping :
  decodeSnapshot K data = OK (info, mapping) →
  let a := initialDataOffsetOf data in
  bytecodeSize mapping = bufferLength data ∧
  flags info = flagsOf data ∧
  ∃ values gcAllocations,
    length values = Z.to_nat (globalVariableCountOf data) ∧
    42 ≤ bufferLength data ∧
    0 ≤ a ∧ a + 2 * Z.of_nat (length values) ≤ bufferLength data ∧
    globalSlots info = globalSlotsOf 0 values ∧
    (∀ (k k' : nat) j j',
       values !! k = Some (Some (ReferenceValue j)) →
       values !! k' = Some (Some (ReferenceValue j')) →
       j = j' ↔ uint16LEAt data (a + 2 * Z.of_nat k) =
                uint16LEAt data (a + 2 * Z.of_nat k')) ∧
    components mapping =
      [Entry (Some 0) None None (Region "Header" (headerFields data));
       Entry (Some a) None None (Region "Globals" (globalEntries data a 0 values));
       Entry (Some (a + 2 * Z.of_nat (length values))) None None
         (Region "Data allocations" []);
       Entry None None None (Region "GC allocations" gcAllocations)].
Proof.
  intros H a.
  assert (allChecksPass K data) as Hpass.
  { pose proof (decodeSnapshot_outcome K data) as Ho. rewrite H in Ho.
    by inversion Ho. }
  revert H. unfold decodeSnapshot.
  rewrite (decodeSnapshot_body_afterHeader K data Hpass).
  rewrite (bind_OK _ _ _ _ _ (decodeFlags_OK _ _)).
  destruct Hpass as (_ & _ & Hlen & _).
  match goal with
  | |- match ?c ?s with _ => _ end = _ → _ =>
      destruct (c s) as [[r s']|e] eqn:Hbody; [|discriminate]
  end.
  intros [= ->].
  apply bind_inv_OK in Hbody as ([] & s1 & Hglobals & Hbody).
  apply decodeGlobalSlots_decoded in Hglobals
    as (values & Hcount & Ha & Hb & Ho & Hreg & Hst & Hn & Hg & Hf & Hd & Hids).
  revert Hbody. unfold pushComponent, bind, get, modify, ret. simpl.
  rewrite Hst. simpl. intros [= <- <-]. simpl.
  split; [done|]. split; [by rewrite Hf|].
  exists values, (gcAllocationsMapping s1).
  split; [done|]. split; [done|]. split; [done|]. split; [done|].
  split; [by rewrite Hg|].
  split.
  { apply Hids. split; intros ? ?; simpl; by rewrite lookup_empty. }
  by rewrite Hreg, Ho, Hd.
Qed.

Lemma decodeSnapshot_decoded_witness :
  decodeSnapshot sampleConstants imageGlobal0x2000 = OK sampleDecoded ∧
  bytecodeSize sampleDecoded.2 = bufferLength imageGlobal0x2000 ∧
  flags sampleDecoded.1 = flagsOf imageGlobal0x2000.
Proof.
  split; [vm_compute; reflexivity|].
  destruct (decodeSnapshot_decoded sampleConstants imageGlobal0x2000
              sampleDecoded.1 sampleDecoded.2) as (Hsize & Hflags & _).
  - vm_compute. reflexivity.
  - split; [exact Hsize|exact Hflags].
Defined.

(** *** Allocations *)

Lemma addressToAllocationID_processed address s i s' :
  addressToAllocationID address s = OK (i, s') →
  processedAllocations s' = processedAllocations s ∧
  gcAllocationsMapping s' = gcAllocationsMapping s.
Proof.
  unfold addressToAllocationID, bind, get, modify, ret. simpl.
  destruct (allocationIDByAddress s !! address); by intros [= _ <-].
Qed.

(** X9: [decodeAllocation] records an allocation once. For an address
    that has been processed it does nothing. For another address it marks
    the address as processed and, when the address is a pointer into the GC
    heap, appends exactly one entry of two bytes to the GC allocations, at
    the offset that the pointer stands for; the logical address that
    [getLogicalAddress] gives for this entry is the pointer again when the
    pointer lies within the heap. No entry is recorded for other pointers.
    Calling it again with the same address changes nothing. *)
Theorem decodeAllocation_records K data h address s u s' :
  decodeAllocation K data h address s = OK (u, s') →
  address ∈ processedAllocations s' ∧
  decodeAllocation K data h address s' = OK (tt, s') ∧
  (address ∈ processedAllocations s → s' = s) ∧
  (address ∉ processedAllocations s →
   if Z.land address 0xC000 =? VM_TAG_GC_P then
     ∃ c, gcAllocationsMapping s' =
            gcAllocationsMapping s ++
            [Entry (Some (h + (address - VM_TAG_GC_P))) (Some 2) None c] ∧
          ∀ heapSize dataOffset dataSize,
            VM_TAG_GC_P ≤ address < VM_TAG_GC_P + heapSize →
            getLogicalAddress K h heapSize dataOffset dataSize
              (h + (address - VM_TAG_GC_P)) 2 = Some address
   else gcAllocationsMapping s' = gcAllocationsMapping s).
Proof.
  intros H. destruct u.
  assert (address ∈ processedAllocations s' ∧
          (address ∈ processedAllocations s → s' = s) ∧
          (address ∉ processedAllocations s →
           if Z.land address 0xC000 =? VM_TAG_GC_P then
             ∃ c, gcAllocationsMapping s' =
                    gcAllocationsMapping s ++
                    [Entry (Some (h + (address - VM_TAG_GC_P))) (Some 2) None c]
           else gcAllocationsMapping s' = gcAllocationsMapping s)) as (Hin & Hold & Hnew).
  { revert H. unfold decodeAllocation. rewrite (bind_OK _ _ _ _ _ eq_refl).
    case_bool_decide as Hp.
    { intros [= <-]. by split_and!. }
    rewrite (bind_OK _ _ _ _ _ eq_refl).
    destruct (_ =? VM_TAG_INT); [discriminate|].
    destruct (Z.land address 0xC000 =? VM_TAG_GC_P).
    - intros (headerWord & s1 & Hw & H)%bind_inv_OK.
      assert (s1 = set_processedAllocations ({[address]} ∪ processedAllocations s) s)
        as ->.
      { revert Hw. unfold readUInt16LE_at. destruct (readableAt _ _ _); [|discriminate].
        by intros [= _ <-]. }
      destruct (_ =? TC_REF_ARRAY K).
      + apply bind_inv_OK in H as (len & s2 & Hl & H).
        assert (s2 = set_processedAllocations ({[address]} ∪ processedAllocations s) s)
          as ->.
        { revert Hl. unfold readUInt16LE_at. destruct (readableAt _ _ _); [|discriminate].
          by intros [= _ <-]. }
        apply bind_inv_OK in H as (i & s3 & [Hp3 Hg3]%addressToAllocationID_processed & H).
        destruct (0 <? len); [discriminate|]. injection H as <-. simpl.
        rewrite Hp3, Hg3. simpl. split_and!; [set_solver|done|eauto].
      + injection H as <-. simpl. split_and!; [set_solver|done|eauto].
    - intros [= <-]. simpl. split_and!; [set_solver|done|done]. }
  split; [done|]. split.
  { unfold decodeAllocation. rewrite (bind_OK _ _ _ _ _ eq_refl).
    by rewrite bool_decide_eq_true_2. }
  split; [done|]. intros Hp. specialize (Hnew Hp).
  destruct (Z.land address 0xC000 =? VM_TAG_GC_P); [|done].
  destruct Hnew as [c Hc]. exists c. split; [done|].
  intros heapSize dataOffset dataSize Hrange. unfold getLogicalAddress. simpl.
  destruct (Z.leb_spec h (h + (address - VM_TAG_GC_P))); [|lia].
  destruct (Z.ltb_spec (h + (address - VM_TAG_GC_P)) (h + heapSize)); [|lia].
  simpl. f_equal. unfold VM_TAG_GC_P. lia.
Qed.

Lemma decodeAllocation_records_witness :
  decodeAllocation sampleConstants imageSharedPointer 46 0x4002 initialState =
    OK (tt, sampleAllocated) ∧
  0x4002 ∈ processedAllocations sampleAllocated ∧
  decodeAllocation sampleConstants imageSharedPointer 46 0x4002 sampleAllocated =
    OK (tt, sampleAllocated).
Proof.
  split; [vm_compute; reflexivity|].
  destruct (decodeAllocation_records sampleConstants imageSharedPointer 46 0x4002
              initialState tt sampleAllocated) as (Hin & Hagain & _).
  - vm_compute. reflexivity.
  - split; [exact Hin|exact Hagain].
Defined.


(** [stringifyAddress] writes an address in hexadecimal, padded to four
    digits. *)
Lemma stringifyAddress_examples :
  stringifyAddress 0x4004 = "4004"%string ∧
  stringifyAddress 0x12 = "0012"%string ∧
  stringifyAddress 0 = "0000"%string ∧
  stringifyAddress 0x10000 = "10000"%string.
Proof. by vm_compute. Qed.
End DecoderFacts.


(** ** Slot computation *)

Module Pass2Facts.

Import Pass2.

(** *** The store of bindings *)

Lemma getBinding_OK b x s :
  bindingStore s !! b = Some x → getBinding b s = OK (x, s).
Proof. intros H. unfold getBinding, bind, get. by rewrite H. Qed.

Lemma getBinding_inv b x s s' :
  getBinding b s = OK (x, s') → s' = s ∧ bindingStore s !! b = Some x.
Proof.
  unfold getBinding, bind, get. destruct (bindingStore s !! b); [|discriminate].
  by intros [= -> ->].
Qed.

Lemma setSlot_OK b x sl s :
  bindingStore s !! b = Some x →
  setSlot b sl s
  = OK (tt, set_bindingStore (<[b := withSlot x sl]> (bindingStore s)) s).
Proof.
  intros H. unfold setSlot. by rewrite (bind_OK _ _ _ _ _ (getBinding_OK _ _ _ H)).
Qed.

Lemma slotOf_insert s b x sl bs :
  bindingStore s !! b = Some x →
  slotOf (set_bindingStore (<[b := withSlot x sl]> (bindingStore s)) bs) b = sl.
Proof.
  intros H. unfold slotOf. simpl.
  rewrite list_lookup_insert_eq by (by eapply lookup_lt_Some). done.
Qed.

Ltac run_setSlot Hb :=
  lazymatch goal with
  | |- context [bind (setSlot ?b ?sl) _ ?st] =>
      rewrite (bind_OK _ _ _ _ _ (setSlot_OK b _ sl st Hb))
  end.

(** *** Parameters *)

(** One round of the loop over the parameters: only the binding [b]
    changes, it gets the slot the specification describes, and the prologue only
    grows. *)
Lemma computeParameterSlot_spec fs paramI b x l s :
  bindingStore s !! b = Some x →
  ∃ sl l1 s1,
    computeParameterSlot fs paramI b l s = OK (l1, s1) ∧
    bindingStore s1 = <[b := withSlot x sl]> (bindingStore s) ∧
    (∀ st, st ∈ prologueOf s fs → st ∈ prologueOf s1 fs) ∧
    parameterSlotAsClaimed x paramI sl (prologueOf s1 fs).
Proof.
  intros Hb. unfold computeParameterSlot, parameterSlotAsClaimed.
  rewrite (bind_OK _ _ _ _ _ (getBinding_OK _ _ _ Hb)).
  destruct (isAccessedByNestedFunction x); [|destruct (isWrittenTo x)].
  - unfold nextClosureSlot. rewrite bind_assoc.
    rewrite (bind_OK _ _ _ _ _ eq_refl). rewrite (bind_OK _ _ _ _ _ eq_refl).
    run_setSlot Hb.
    rewrite (bind_OK _ _ _ _ _ eq_refl).
    do 3 eexists. split; [reflexivity|]. split; [reflexivity|].
    unfold prologueOf; simpl. rewrite lookup_insert_eq. simpl.
    split; [intros st ?; set_solver|]. eexists. split; [done|set_solver].
  - unfold pushLocalSlot.
    rewrite (bind_OK _ _ _ _ _ eq_refl).
    run_setSlot Hb.
    rewrite (bind_OK _ _ _ _ _ eq_refl).
    do 3 eexists. split; [reflexivity|]. split; [reflexivity|].
    unfold prologueOf; simpl. rewrite lookup_insert_eq. simpl.
    split; [intros st ?; set_solver|]. eexists. split; [done|set_solver].
  - run_setSlot Hb.
    do 3 eexists. split; [reflexivity|]. split; [reflexivity|]. done.
Qed.

Lemma computeParameterSlots_spec fs params : ∀ paramI l s,
  NoDup params →
  (∀ b, b ∈ params → is_Some (bindingStore s !! b)) →
  ∃ l' s',
    computeParameterSlots fs paramI params l s = OK (l', s') ∧
    length (bindingStore s') = length (bindingStore s) ∧
    (∀ b, b ∉ params → bindingStore s' !! b = bindingStore s !! b) ∧
    (∀ st, st ∈ prologueOf s fs → st ∈ prologueOf s' fs) ∧
    (∀ i b x, params !! i = Some b → bindingStore s !! b = Some x →
       parameterSlotAsClaimed x (paramI + i) (slotOf s' b) (prologueOf s' fs)).
Proof.
  induction params as [|b params IH]; intros paramI l s Hnd Hin; simpl.
  - do 2 eexists. split; [reflexivity|]. repeat split; done.
  - apply NoDup_cons in Hnd as [Hb Hnd].
    destruct (Hin b ltac:(set_solver)) as [x Hx].
    destruct (computeParameterSlot_spec fs paramI b x l s Hx)
      as (sl & l1 & s1 & E1 & Hs1 & Hp1 & Hc1).
    rewrite (bind_OK _ _ _ _ _ E1).
    destruct (IH (S paramI) l1 s1 Hnd) as (l' & s' & E & Hlen & Hout & Hp & Hc).
    { intros b' Hb'. rewrite Hs1.
      destruct (Hin b' ltac:(set_solver)) as [x' Hx'].
      apply lookup_lt_is_Some. rewrite length_insert.
      by eapply lookup_lt_Some. }
    exists l', s'. split; [done|]. split_and!.
    + by rewrite Hlen, Hs1, length_insert.
    + intros b' Hb'. rewrite Hout by set_solver. rewrite Hs1.
      apply list_lookup_insert_ne. set_solver.
    + intros st Hst. by apply Hp, Hp1.
    + intros [|i] b' x' Hi Hx'; simpl in Hi.
      * injection Hi as <-. rewrite Hx in Hx'. injection Hx' as <-.
        replace (paramI + 0)%nat with paramI by lia.
        assert (slotOf s' b = sl) as ->.
        { unfold slotOf. rewrite (Hout b Hb), Hs1.
          rewrite list_lookup_insert_eq by (by eapply lookup_lt_Some). done. }
        revert Hc1. unfold parameterSlotAsClaimed.
        repeat case_match; try done; intros (k & ? & ?); exists k; split; auto.
      * replace (paramI + S i)%nat with (S paramI + i)%nat by lia.
        assert (b' ≠ b) by (intros ->; apply Hb; by eapply list_elem_of_lookup_2).
        assert (bindingStore s1 !! b' = Some x') as Hx1
          by (by rewrite Hs1, list_lookup_insert_ne).
        specialize (Hc i b' x' Hi Hx1). done.
Qed.

Lemma computeThisSlot_spec fs b x l s :
  bindingStore s !! b = Some x → isWrittenTo x = false →
  ∃ sl l1 s1,
    computeThisSlot fs b l s = OK (l1, s1) ∧
    bindingStore s1 = <[b := withSlot x sl]> (bindingStore s) ∧
    (∀ st, st ∈ prologueOf s fs → st ∈ prologueOf s1 fs) ∧
    thisSlotAsClaimed x sl (prologueOf s1 fs).
Proof.
  intros Hb Hw. unfold computeThisSlot, thisSlotAsClaimed.
  rewrite (bind_OK _ _ _ _ _ (getBinding_OK _ _ _ Hb)).
  rewrite Hw. simpl negb. unfold hardAssert.
  rewrite (bind_OK _ _ _ _ _ eq_refl).
  destruct (isAccessedByNestedFunction x).
  - unfold nextClosureSlot. rewrite bind_assoc.
    rewrite (bind_OK _ _ _ _ _ eq_refl). rewrite (bind_OK _ _ _ _ _ eq_refl).
    run_setSlot Hb.
    rewrite (bind_OK _ _ _ _ _ eq_refl).
    do 3 eexists. split; [reflexivity|]. split; [reflexivity|].
    unfold prologueOf; simpl. rewrite lookup_insert_eq. simpl.
    split; [intros st ?; set_solver|]. eexists. split; [done|set_solver].
  - run_setSlot Hb.
    do 3 eexists. split; [reflexivity|]. split; [reflexivity|]. done.
Qed.

(** C4 (amended): in a function scope whose [this] binding is not flagged
    as written to (the code asserts this), the [this] binding gets
    [ArgumentSlot(0)] when it is not accessed by a nested function, and
    otherwise a closure slot with an [InitThis] prologue step; the parameter
    with index [paramI] gets [ArgumentSlot(paramI + 1)] when it is neither
    written to nor accessed by a nested function, a closure slot with an
    [InitParameter] step when it is accessed by a nested function, and a
    local slot with an [InitParameter] step when it is written to only. The
    bindings are distinct objects. *)
Theorem computeIlFunctionParameterSlots_assigns functionScope l s :
  NoDup (thisAndParameters functionScope) →
  (∀ b, b ∈ thisAndParameters functionScope → is_Some (bindingStore s !! b)) →
  (∀ b x, thisBinding functionScope = Some b → bindingStore s !! b = Some x →
          isWrittenTo x = false) →
  ∃ l' s',
    computeIlFunctionParameterSlots functionScope l s = OK (l', s') ∧
    (∀ b x, thisBinding functionScope = Some b → bindingStore s !! b = Some x →
       thisSlotAsClaimed x (slotOf s' b) (prologueOf s' (scopeId functionScope))) ∧
    (∀ paramI b x,
       parameterBindings functionScope !! paramI = Some b →
       bindingStore s !! b = Some x →
       parameterSlotAsClaimed x paramI (slotOf s' b)
         (prologueOf s' (scopeId functionScope))).
Proof.
  unfold thisAndParameters, computeIlFunctionParameterSlots.
  intros Hnd Hin Hw.
  destruct (thisBinding functionScope) as [b|]; simpl in *.
  - apply NoDup_cons in Hnd as [Hb Hnd].
    destruct (Hin b ltac:(set_solver)) as [x Hx].
    destruct (computeThisSlot_spec (scopeId functionScope) b x l s Hx (Hw b x eq_refl Hx))
      as (sl & l1 & s1 & E1 & Hs1 & Hp1 & Hc1).
    rewrite (bind_OK _ _ _ _ _ E1).
    destruct (computeParameterSlots_spec (scopeId functionScope)
                (parameterBindings functionScope) 0 l1 s1 Hnd)
      as (l' & s' & E & Hlen & Hout & Hp & Hc).
    { intros b' Hb'. rewrite Hs1.
      destruct (Hin b' ltac:(set_solver)) as [x' Hx'].
      apply lookup_lt_is_Some. rewrite length_insert. by eapply lookup_lt_Some. }
    exists l', s'. split; [done|]. split.
    + intros ? x' [= <-] Hx'. rewrite Hx in Hx'. injection Hx' as <-.
      assert (slotOf s' b = sl) as ->.
      { unfold slotOf. rewrite (Hout b Hb), Hs1.
        rewrite list_lookup_insert_eq by (by eapply lookup_lt_Some). done. }
      revert Hc1. unfold thisSlotAsClaimed.
      case_match; [|done]. intros (k & ? & ?). exists k. split; auto.
    + intros paramI b' x' Hi Hx'.
      assert (b' ≠ b) by (intros ->; apply Hb; by eapply list_elem_of_lookup_2).
      apply (Hc paramI b' x' Hi). by rewrite Hs1, list_lookup_insert_ne.
  - rewrite (bind_OK _ _ _ _ _ eq_refl).
    destruct (computeParameterSlots_spec (scopeId functionScope)
                (parameterBindings functionScope) 0 l s Hnd Hin)
      as (l' & s' & E & Hlen & Hout & Hp & Hc).
    exists l', s'. split; [done|]. split; [done|].
    intros paramI b' x' Hi Hx'. by apply (Hc paramI b' x' Hi).
Qed.

Lemma computeIlFunctionParameterSlots_assigns_witness :
  ∃ l' s',
    computeIlFunctionParameterSlots sampleFunctionScope noLocals
      (emptyState sampleBindings) = OK (l', s') ∧
    slotOf s' 0 = Some (ArgumentSlot 0) ∧
    slotOf s' 1 = Some (ArgumentSlot 1) ∧
    (∃ k, slotOf s' 2 = Some (LocalSlot k) ∧
          InitParameter 2 (LocalSlot k) ∈ prologueOf s' 1) ∧
    (∃ k, slotOf s' 3 = Some (ClosureSlot k) ∧
          InitParameter 3 (ClosureSlot k) ∈ prologueOf s' 1).
Proof.
  destruct (computeIlFunctionParameterSlots_assigns sampleFunctionScope noLocals
              (emptyState sampleBindings))
    as (l' & s' & E & Hthis & Hparams).
  - unfold thisAndParameters. simpl.
    rewrite !NoDup_cons, !not_elem_of_cons.
    repeat split; try lia; try apply not_elem_of_nil. apply NoDup_nil_2.
  - unfold thisAndParameters. simpl. intros b Hb.
    repeat (apply elem_of_cons in Hb as [->|Hb]; [by eexists|]).
    by apply elem_of_nil in Hb.
  - simpl. intros b x [= <-] [= <-]. reflexivity.
  - exists l', s'. split; [exact E|].
    split; [exact (Hthis 0%nat _ eq_refl eq_refl)|].
    split; [exact (Hparams 0%nat 1%nat _ eq_refl eq_refl)|].
    split; [exact (Hparams 1%nat 2%nat _ eq_refl eq_refl)|].
    exact (Hparams 2%nat 3%nat _ eq_refl eq_refl).
Defined.

(** C4, as stated, fails for a [this] binding that is flagged as written
    to: the assertion of [computeIlFunctionParameterSlots] stops the
    analysis, and the binding gets no closure slot. *)
Lemma computeIlFunctionParameterSlots_written_this :
  computeIlFunctionParameterSlots writtenThisScope noLocals
    (emptyState writtenThisBindings) = Err AssertionFailed.
Proof. reflexivity. Qed.

(** *** Argument slots *)

Lemma evolves_refl sites s : evolves sites s s.
Proof.
  split; [done|]. intros b x x' Hx Hx'. rewrite Hx in Hx'. injection Hx' as <-.
  repeat split; auto.
Qed.

Lemma evolves_trans sites s1 s2 s3 :
  evolves sites s1 s2 → evolves sites s2 s3 → evolves sites s1 s3.
Proof.
  intros [Hl12 H12] [Hl23 H23]. split; [congruence|].
  intros b x1 x3 Hx1 Hx3.
  destruct (bindingStore s2 !! b) as [x2|] eqn:Hx2.
  2: { apply lookup_ge_None in Hx2. apply lookup_lt_Some in Hx1. lia. }
  destruct (H12 b x1 x2 Hx1 Hx2) as (? & ? & Hw & Hc & ? & Hs12).
  destruct (H23 b x2 x3 Hx2 Hx3) as (? & ? & Hw' & Hc' & ? & Hs23).
  split_and!; try congruence.
  destruct Hs23 as [Hs23|[Hs23|(? & ? & ?)]].
  - rewrite Hs23. done.
  - auto.
  - right; right. split_and!; congruence.
Qed.

Lemma evolves_same_store sites s s' :
  bindingStore s' = bindingStore s → evolves sites s s'.
Proof.
  intros H. split; [by rewrite H|]. rewrite H.
  intros b x x' Hx Hx'. rewrite Hx in Hx'. injection Hx' as <-.
  repeat split; auto.
Qed.

Lemma evolves_insert sites s s' b x sl :
  bindingStore s !! b = Some x →
  bindingStore s' = <[b := withSlot x sl]> (bindingStore s) →
  isArgumentSlot sl = false ∨
  (sites b ∧ isWrittenTo x = false ∧ isAccessedByNestedFunction x = false) →
  evolves sites s s'.
Proof.
  intros Hx Hs' Hsl. split; [by rewrite Hs', length_insert|].
  intros b' y y' Hy Hy'. rewrite Hs' in Hy'.
  destruct (decide (b' = b)) as [->|Hne].
  - rewrite list_lookup_insert_eq in Hy' by (by eapply lookup_lt_Some).
    injection Hy' as <-. rewrite Hx in Hy. injection Hy as <-.
    simpl. repeat split; auto.
  - rewrite list_lookup_insert_ne in Hy' by done.
    rewrite Hy in Hy'. injection Hy' as <-. repeat split; auto.
Qed.

Section Evolves.

Variable sites : BindingRef → Prop.

Local Abbreviation keeps := (keeps sites).

Lemma keeps_ret {A} (a : A) : keeps (@ret Error State A a).
Proof. apply ensures_ret; [apply evolves_refl|done]. Qed.

Lemma keeps_bind {A B} (c : P A) (k : A → P B) :
  keeps c → (∀ a, keeps (k a)) → keeps (bind c k).
Proof.
  intros Hc Hk.
  eapply ensures_bind; [apply evolves_trans|apply Hc|intros a _; apply Hk].
Qed.

Lemma keeps_modify (f : State → State) :
  (∀ s, bindingStore (f s) = bindingStore s) → keeps (@modify Error State f).
Proof.
  intros Hf. apply ensures_modify. intros s. by apply evolves_same_store.
Qed.

Lemma keeps_getBinding b : keeps (getBinding b).
Proof.
  intros s x s' [-> _]%getBinding_inv. split; [apply evolves_refl|done].
Qed.

Lemma keeps_hardAssert c : keeps (hardAssert c).
Proof. destruct c; [apply keeps_ret|apply ensures_throw]. Qed.

Lemma keeps_pushPrologue scope step : keeps (pushPrologue scope step).
Proof. by apply keeps_modify. Qed.

Lemma keeps_unshiftPrologue scope step : keeps (unshiftPrologue scope step).
Proof. by apply keeps_modify. Qed.

(** Assigning a slot that is not an [ArgumentSlot]. *)
Lemma keeps_setSlot b sl : isArgumentSlot sl = false → keeps (setSlot b sl).
Proof.
  intros Hsl s a s' H. split; [|done].
  destruct (bindingStore s !! b) as [x|] eqn:Hx.
  - rewrite (setSlot_OK _ _ _ _ Hx) in H. injection H as _ <-.
    eapply evolves_insert; [done|reflexivity|by left].
  - unfold setSlot, getBinding, bind, get in H. by rewrite Hx in H.
Qed.

(** The slots that [createLocalOrClosureSlot] hands out are local or closure
    slots. *)
Lemma createLocalOrClosureSlot_ensures fs b l :
  ensures (evolves sites) (λ r, isArgumentSlot (Some (fst r)) = false)
          (createLocalOrClosureSlot fs b l).
Proof.
  unfold createLocalOrClosureSlot.
  eapply ensures_bind; [apply evolves_trans|apply keeps_getBinding|intros x _].
  eapply ensures_bind; [apply evolves_trans|apply keeps_hardAssert|intros _ _].
  destruct (isAccessedByNestedFunction x).
  - unfold nextClosureSlot.
    eapply ensures_bind; [apply evolves_trans|by apply keeps_modify|intros _ _].
    by apply ensures_ret; [apply evolves_refl|].
  - by apply ensures_ret; [apply evolves_refl|].
Qed.

Lemma keeps_computeParameterSlot fs paramI b l :
  sites b → keeps (computeParameterSlot fs paramI b l).
Proof.
  intros Hb s a s' H. split; [|done].
  destruct (bindingStore s !! b) as [x|] eqn:Hx.
  - destruct (computeParameterSlot_spec fs paramI b x l s Hx)
      as (sl & l1 & s1 & E1 & Hs1 & _ & Hc1).
    rewrite E1 in H. injection H as <- <-.
    eapply evolves_insert; [done..|].
    revert Hc1. unfold parameterSlotAsClaimed.
    destruct (isAccessedByNestedFunction x); [|destruct (isWrittenTo x)].
    + intros (k & -> & _). by left.
    + intros (k & -> & _). by left.
    + intros _. by right.
  - unfold computeParameterSlot, getBinding, bind, get in H. by rewrite Hx in H.
Qed.

Lemma keeps_computeParameterSlots fs params : ∀ paramI l,
  (∀ b, b ∈ params → sites b) → keeps (computeParameterSlots fs paramI params l).
Proof.
  induction params as [|b params IH]; intros paramI l Hs; simpl.
  - apply keeps_ret.
  - apply keeps_bind; [apply keeps_computeParameterSlot, Hs; set_solver|].
    intros l'. apply IH. intros b' ?. apply Hs. set_solver.
Qed.

Lemma keeps_computeThisSlot fs b l : sites b → keeps (computeThisSlot fs b l).
Proof.
  intros Hb s a s' H. split; [|done].
  destruct (bindingStore s !! b) as [x|] eqn:Hx.
  2: { unfold computeThisSlot, getBinding, bind, get in H. by rewrite Hx in H. }
  destruct (isWrittenTo x) eqn:Hw.
  { unfold computeThisSlot in H.
    rewrite (bind_OK _ _ _ _ _ (getBinding_OK _ _ _ Hx)) in H.
    rewrite Hw in H. discriminate. }
  destruct (computeThisSlot_spec fs b x l s Hx Hw)
    as (sl & l1 & s1 & E1 & Hs1 & _ & Hc1).
  rewrite E1 in H. injection H as <- <-.
  eapply evolves_insert; [done..|].
  revert Hc1. unfold thisSlotAsClaimed.
  destruct (isAccessedByNestedFunction x).
  - intros (k & -> & _). by left.
  - intros _. by right.
Qed.

Lemma keeps_computeIlFunctionParameterSlots functionScope l :
  (∀ b, b ∈ thisAndParameters functionScope → sites b) →
  keeps (computeIlFunctionParameterSlots functionScope l).
Proof.
  intros Hs. unfold computeIlFunctionParameterSlots, thisAndParameters in *.
  apply keeps_bind.
  - destruct (thisBinding functionScope) as [b|]; [|apply keeps_ret].
    apply keeps_computeThisSlot, Hs. set_solver.
  - intros l'. apply keeps_computeParameterSlots. intros b ?. apply Hs. set_solver.
Qed.

(** A declaration that has no slot yet gets a local or a closure slot. *)
Lemma keeps_declare fs b l (k : Slot → Locals → P Locals) :
  (∀ sl l', keeps (k sl l')) →
  keeps (let* (sl, l') := createLocalOrClosureSlot fs b l in
         setSlot b (Some sl) ;; k sl l').
Proof.
  intros Hk.
  eapply ensures_bind;
    [apply evolves_trans|apply createLocalOrClosureSlot_ensures|].
  intros [sl l'] Hsl. simpl in Hsl.
  apply keeps_bind; [by apply keeps_setSlot|auto].
Qed.

Lemma keeps_computeVarSlots fs vars : ∀ l, keeps (computeVarSlots fs vars l).
Proof.
  induction vars as [|b vars IH]; intros l; simpl; [apply keeps_ret|].
  apply keeps_bind; [apply keeps_getBinding|intros x].
  apply keeps_bind; [|auto].
  case_bool_decide; [apply keeps_ret|].
  apply keeps_bind; [apply keeps_hardAssert|intros _].
  apply keeps_declare. intros sl l'.
  apply keeps_bind; [apply keeps_pushPrologue|intros _; apply keeps_ret].
Qed.

Lemma keeps_computeLexicalSlots fs bs decls : ∀ l,
  keeps (computeLexicalSlots fs bs decls l).
Proof.
  induction decls as [|b decls IH]; intros l; simpl; [apply keeps_ret|].
  apply keeps_bind; [apply keeps_getBinding|intros x].
  apply keeps_bind; [|auto].
  case_bool_decide; [apply keeps_ret|].
  apply keeps_declare. intros sl l'.
  apply keeps_bind; [apply keeps_pushPrologue|intros _; apply keeps_ret].
Qed.

Lemma keeps_computeNestedFunctionSlots scopes fs bs decls : ∀ l,
  keeps (computeNestedFunctionSlots scopes fs bs decls l).
Proof.
  induction decls as [|d decls IH]; intros l; simpl; [apply keeps_ret|].
  apply keeps_bind; [apply keeps_getBinding|intros x].
  apply keeps_bind; [|auto].
  case_bool_decide; [apply keeps_ret|].
  apply keeps_declare. intros sl l'.
  destruct (scopes !! func d) as [info|]; [|apply ensures_throw].
  destruct (type info); try apply ensures_throw.
  apply keeps_bind; [apply keeps_pushPrologue|intros _; apply keeps_ret].
Qed.

Lemma keeps_computeFunctionSlots_start functionScope :
  (∀ b, b ∈ parameterSites functionScope → sites b) →
  keeps (computeFunctionSlots_start functionScope).
Proof.
  intros Hs. unfold computeFunctionSlots_start.
  apply keeps_bind; [|intros l; apply keeps_computeVarSlots].
  destruct (type functionScope) eqn:Ht; try apply keeps_ret.
  apply keeps_computeIlFunctionParameterSlots. intros b Hb. apply Hs.
  destruct functionScope; simpl in *. subst. unfold thisAndParameters in Hb.
  simpl in Hb. set_solver.
Qed.

Lemma keeps_computeFunctionSlots_finish functionScope :
  keeps (computeFunctionSlots_finish functionScope).
Proof.
  unfold computeFunctionSlots_finish.
  eapply ensures_bind;
    [apply evolves_trans|apply (ensures_get _ (evolves_refl sites) (λ _, True))|];
    [done|].
  intros s _. destruct (closureSlots s !! _);
    [apply keeps_unshiftPrologue|apply keeps_ret].
Qed.

(** Induction over a tree of scopes. *)
Lemma Scope_children_ind (Pr : Scope → Prop) :
  (∀ t i b v lx n cs th ps f c,
     Forall Pr cs → Pr (MkScope t i b v lx n cs th ps f c)) →
  ∀ scope, Pr scope.
Proof.
  intros H. fix IH 1. intros [t i b v lx n cs th ps f c]. apply H.
  induction cs as [|child cs IHcs]; constructor; [apply IH|apply IHcs].
Qed.

Lemma parameterSites_child scope child b :
  child ∈ children scope → b ∈ parameterSites child → b ∈ parameterSites scope.
Proof.
  destruct scope as [t i bs v lx n cs th ps f c]. simpl. intros Hc Hb.
  apply elem_of_app. right. apply list_elem_of_In, in_concat.
  exists (parameterSites child). split; [|by apply list_elem_of_In].
  apply in_map. by apply list_elem_of_In.
Qed.

Lemma keeps_computeBlockSlots scopes : ∀ blockScope,
  (∀ b, b ∈ parameterSites blockScope → sites b) →
  ∀ fs l, keeps (computeBlockSlots scopes fs blockScope l).
Proof.
  induction blockScope as [t i bs v lx n cs th ps f c IH] using Scope_children_ind.
  intros Hs fs l. simpl.
  apply keeps_bind; [apply keeps_computeNestedFunctionSlots|intros l1].
  apply keeps_bind; [apply keeps_computeLexicalSlots|intros l2].
  apply keeps_bind; [|intros l3].
  - apply ensures_foldM; [apply evolves_refl|apply evolves_trans|].
    rewrite Forall_forall in IH |- *. intros child Hchild l'.
    assert (Hsc : ∀ b, b ∈ parameterSites child → sites b).
    { intros b Hb. apply Hs.
      by apply (parameterSites_child (MkScope t i bs v lx n cs th ps f c) child). }
    destruct (type child).
    + apply ensures_throw.
    + apply keeps_bind; [by apply keeps_computeFunctionSlots_start|intros l''].
      apply keeps_bind; [by apply IH|intros _].
      apply keeps_bind; [apply keeps_computeFunctionSlots_finish|intros _].
      apply keeps_ret.
    + by apply IH.
  - apply keeps_bind; [|intros _; apply keeps_ret].
    destruct t; try apply keeps_ret. by apply keeps_modify.
Qed.

Lemma keeps_computeFunctionSlots scopes functionScope :
  (∀ b, b ∈ parameterSites functionScope → sites b) →
  keeps (computeFunctionSlots scopes functionScope).
Proof.
  intros Hs. unfold computeFunctionSlots.
  apply keeps_bind; [by apply keeps_computeFunctionSlots_start|intros l].
  apply keeps_bind; [by apply keeps_computeBlockSlots|intros _].
  apply keeps_computeFunctionSlots_finish.
Qed.

(** *** Module slots *)

Lemma keeps_newGlobalSlot uniq nameHint : keeps (newGlobalSlot uniq nameHint).
Proof.
  unfold newGlobalSlot.
  eapply ensures_bind;
    [apply evolves_trans|apply (ensures_get _ (evolves_refl sites) (λ _, True))|];
    [done|].
  intros s _. apply keeps_bind; [by apply keeps_modify|intros _; apply keeps_ret].
Qed.

Lemma keeps_getImportedModuleNamespaceSlot uniq source :
  keeps (getImportedModuleNamespaceSlot uniq source).
Proof.
  unfold getImportedModuleNamespaceSlot.
  eapply ensures_bind;
    [apply evolves_trans|apply (ensures_get _ (evolves_refl sites) (λ _, True))|];
    [done|].
  intros s _. destruct (importedModuleNamespaceSlots s !! source);
    [apply keeps_ret|].
  apply keeps_bind; [apply keeps_newGlobalSlot|intros slot].
  apply keeps_bind; [by apply keeps_modify|intros _; apply keeps_ret].
Qed.

(** The slots of module bindings are no [ArgumentSlot]s. *)
Lemma computeImportBindingSlot_ensures importBindings uniq b :
  ensures (evolves sites) (λ sl, isArgumentSlot (Some sl) = false)
          (computeImportBindingSlot importBindings uniq b).
Proof.
  unfold computeImportBindingSlot.
  destruct (importBindings !! b) as [i|]; [|apply ensures_throw].
  eapply ensures_bind;
    [apply evolves_trans|apply keeps_getImportedModuleNamespaceSlot|intros slot _].
  destruct (specifier i); by apply ensures_ret; [apply evolves_refl|].
Qed.

Lemma computeExportBindingSlot_ensures x :
  ensures (evolves sites) (λ sl, isArgumentSlot (Some sl) = false)
          (computeExportBindingSlot x).
Proof.
  unfold computeExportBindingSlot.
  eapply ensures_bind;
    [apply evolves_trans|apply (ensures_get _ (evolves_refl sites) (λ _, True))|];
    [done|].
  intros s _. by apply ensures_ret; [apply evolves_refl|].
Qed.

Lemma computeModuleSlot_ensures importBindings uniq b :
  ensures (evolves sites) (λ sl, isArgumentSlot sl = false)
          (computeModuleSlot importBindings uniq b).
Proof.
  unfold computeModuleSlot.
  eapply ensures_bind; [apply evolves_trans|apply keeps_getBinding|intros x _].
  case_bool_decide; [|destruct (isExported x); [|destruct (isAccessedByNestedFunction x)]].
  - eapply ensures_bind;
      [apply evolves_trans|apply computeImportBindingSlot_ensures|intros sl Hsl].
    by apply ensures_ret; [apply evolves_refl|].
  - eapply ensures_bind;
      [apply evolves_trans|apply computeExportBindingSlot_ensures|intros sl Hsl].
    by apply ensures_ret; [apply evolves_refl|].
  - eapply ensures_bind; [apply evolves_trans|apply keeps_newGlobalSlot|intros sl _].
    by apply ensures_ret; [apply evolves_refl|].
  - by apply ensures_ret; [apply evolves_refl|].
Qed.

Lemma keeps_computeRootSlots importBindings uniq bs :
  keeps (computeRootSlots importBindings uniq bs).
Proof.
  induction bs as [|b bs IH]; simpl; [apply keeps_ret|].
  eapply ensures_bind;
    [apply evolves_trans|apply computeModuleSlot_ensures|intros sl Hsl].
  apply keeps_bind; [by apply keeps_setSlot|intros _; apply IH].
Qed.

Lemma keeps_pass2_computeSlots scopes importBindings freeVariables uniq root :
  (∀ b, b ∈ parameterSites root → sites b) →
  keeps (pass2_computeSlots scopes importBindings freeVariables uniq (Some root)).
Proof.
  intros Hs. unfold pass2_computeSlots.
  destruct (type root); try apply ensures_throw.
  unfold computeModuleSlots.
  apply keeps_bind; [by apply keeps_modify|intros _].
  apply keeps_bind; [apply keeps_newGlobalSlot|intros sl].
  apply keeps_bind; [by apply keeps_modify|intros _].
  apply keeps_bind; [apply keeps_computeRootSlots|intros _].
  by apply keeps_computeFunctionSlots.
Qed.

End Evolves.

(** C5: when pass 2 starts from bindings without argument slots and
    returns, no binding that is accessed by a nested function has an
    [ArgumentSlot], and a binding with an [ArgumentSlot] is the [this]
    binding or a parameter binding of a function scope and is neither written
    to nor accessed by a nested function. *)
Theorem pass2_argumentSlots scopes importBindings freeVariables uniqueNameInSet
    root s s' :
  (∀ b x, bindingStore s !! b = Some x → isArgumentSlot (slot x) = false) →
  pass2_computeSlots scopes importBindings freeVariables uniqueNameInSet (Some root) s
  = OK (tt, s') →
  ∀ b x', bindingStore s' !! b = Some x' →
    (isAccessedByNestedFunction x' = true → isArgumentSlot (slot x') = false) ∧
    (isArgumentSlot (slot x') = true →
       b ∈ parameterSites root ∧ isWrittenTo x' = false ∧
       isAccessedByNestedFunction x' = false).
Proof.
  intros Hinit Hrun b x' Hx'.
  destruct (keeps_pass2_computeSlots (λ b, b ∈ parameterSites root)
              scopes importBindings freeVariables uniqueNameInSet root
              (λ _ H, H) _ _ _ Hrun) as [[Hlen Hev] _].
  destruct (bindingStore s !! b) as [x|] eqn:Hx.
  2: { apply lookup_ge_None in Hx. apply lookup_lt_Some in Hx'. lia. }
  destruct (Hev b x x' Hx Hx') as (_ & _ & Hw & Hc & _ & Hslot).
  specialize (Hinit b x Hx).
  destruct Hslot as [Hslot|[Hslot|(Hsite & Hw0 & Hc0)]].
  - rewrite Hslot, Hinit. split; [done|discriminate].
  - rewrite Hslot. split; [done|discriminate].
  - rewrite Hw, Hc, Hw0, Hc0. split; [discriminate|done].
Qed.

Lemma pass2_argumentSlots_witness :
  pass2_computeSlots ∅ ∅ [] (λ n _, n) (Some sampleModuleScope)
    (emptyState sampleBindings) = OK (tt, sampleResult) ∧
  slotOf sampleResult 3 = Some (ClosureSlot 0) ∧
  isArgumentSlot (slotOf sampleResult 3) = false.
Proof.
  assert (Hrun : pass2_computeSlots ∅ ∅ [] (λ n _, n) (Some sampleModuleScope)
                   (emptyState sampleBindings) = OK (tt, sampleResult))
    by (vm_compute; reflexivity).
  split; [exact Hrun|]. split; [reflexivity|].
  destruct (bindingStore sampleResult !! 3%nat) as [x'|] eqn:Hx';
    [|vm_compute in Hx'; discriminate].
  destruct (pass2_argumentSlots ∅ ∅ [] (λ n _, n) sampleModuleScope
              (emptyState sampleBindings) sampleResult) with (b := 3%nat) (x' := x')
    as [H _]; [|exact Hrun|exact Hx'|].
  - intros b x Hx. simpl in Hx.
    repeat (destruct b as [|b]; [by injection Hx as <-|]). done.
  - unfold slotOf. rewrite Hx'. simpl. apply H.
    vm_compute in Hx'. injection Hx' as <-. reflexivity.
Defined.

(** *** Imports *)

Section Imports.

Variable importBindings : gmap BindingRef ImportBinding.
Variable uniqueNameInSet : string → gset string → string.

Lemma getImportedModuleNamespaceSlot_cached source s ns s1 :
  getImportedModuleNamespaceSlot uniqueNameInSet source s = OK (ns, s1) →
  bindingStore s1 = bindingStore s ∧
  importedModuleNamespaceSlots s1 !! source = Some ns ∧
  (∀ source' ns', importedModuleNamespaceSlots s !! source' = Some ns' →
                  importedModuleNamespaceSlots s1 !! source' = Some ns') ∧
  (importsRecorded s → importsRecorded s1).
Proof.
  unfold getImportedModuleNamespaceSlot, newGlobalSlot, bind, get, modify, ret.
  simpl. destruct (importedModuleNamespaceSlots s !! source) as [slot|] eqn:Hs.
  - intros [= <- <-]. by split_and!.
  - intros [= <- <-]. simpl. split; [done|]. split; [by rewrite lookup_insert_eq|].
    split.
    + intros source' ns' H. rewrite lookup_insert_ne; [done|]. congruence.
    + intros [Hrec Hnd]. split.
      * intros slot source'. simpl.
        rewrite elem_of_app, list_elem_of_singleton, Hrec.
        destruct (decide (source' = source)) as [->|Hne].
        -- rewrite lookup_insert_eq, Hs. split.
           ++ intros [?|[= ->]]; [congruence|done].
           ++ intros [= ->]. by right.
        -- rewrite lookup_insert_ne by done. split; [|by left].
           intros [|[= _ ->]]; done.
      * simpl. rewrite fmap_app. apply NoDup_app. split; [done|]. split; [|apply NoDup_singleton].
        intros source' Hin Heq. simpl in Heq. apply list_elem_of_singleton in Heq as ->.
        apply list_elem_of_fmap in Hin as ([slot source'] & Heq & Hin).
        simpl in Heq. subst source'. apply Hrec in Hin. congruence.
Qed.

Lemma computeModuleSlot_import b s sl s1 :
  computeModuleSlot importBindings uniqueNameInSet b s = OK (sl, s1) →
  bindingStore s1 = bindingStore s ∧
  is_Some (bindingStore s !! b) ∧
  (∀ source ns, importedModuleNamespaceSlots s !! source = Some ns →
                importedModuleNamespaceSlots s1 !! source = Some ns) ∧
  (importsRecorded s → importsRecorded s1) ∧
  ∀ i, importBindings !! b = Some i →
       ∃ ns, importedModuleNamespaceSlots s1 !! source i = Some ns ∧
             sl = Some (importSlot ns (specifier i)).
Proof.
  unfold computeModuleSlot.
  intros (x & s0 & [-> Hx]%getBinding_inv & H)%bind_inv_OK.
  assert (is_Some (bindingStore s !! b)) as Hb by eauto.
  case_bool_decide as Hi.
  - destruct Hi as [i Hi]. revert H. unfold computeImportBindingSlot. rewrite Hi.
    intros (sl0 & s2 & H & [= <- <-])%bind_inv_OK.
    apply bind_inv_OK in H as (ns & s3 & Hns & H).
    apply getImportedModuleNamespaceSlot_cached in Hns as (Hstore & Hcache & Hmono & Hrec).
    assert (s2 = s3 ∧ sl0 = importSlot ns (specifier i)) as [-> ->]
      by (destruct (specifier i); by injection H as <- <-).
    split_and!; try done. intros i' [= <-]. eauto.
  - assert (importBindings !! b = None) as Hnone
      by (by apply eq_None_not_Some).
    assert (bindingStore s1 = bindingStore s ∧
            importedModuleNamespaceSlots s1 = importedModuleNamespaceSlots s ∧
            moduleImports s1 = moduleImports s) as (Hstore & Hcache & Hm).
    { revert H. unfold computeExportBindingSlot, newGlobalSlot, bind, get, modify, ret.
      simpl. destruct (isExported x); [by intros [= _ <-]|].
      destruct (isAccessedByNestedFunction x); by intros [= _ <-]. }
    split_and!; try done.
    + intros source ns. by rewrite Hcache.
    + unfold importsRecorded. by rewrite Hcache, Hm.
    + intros i. by rewrite Hnone.
Qed.

Lemma computeRootSlots_imported bs : ∀ s s',
  NoDup bs →
  computeRootSlots importBindings uniqueNameInSet bs s = OK (tt, s') →
  (importsRecorded s → importsRecorded s') ∧
  (∀ source ns, importedModuleNamespaceSlots s !! source = Some ns →
                importedModuleNamespaceSlots s' !! source = Some ns) ∧
  (∀ b, b ∉ bs → bindingStore s' !! b = bindingStore s !! b) ∧
  ∀ b i, b ∈ bs → importBindings !! b = Some i →
    ∃ ns, importedModuleNamespaceSlots s' !! source i = Some ns ∧
          slotOf s' b = Some (importSlot ns (specifier i)).
Proof.
  induction bs as [|b bs IH]; intros s s' Hnd; simpl.
  - intros [= <-]. split_and!; try done. intros b i Hb. by apply elem_of_nil in Hb.
  - apply NoDup_cons in Hnd as [Hb Hnd].
    intros (sl & s1 & Hslot & H)%bind_inv_OK.
    apply computeModuleSlot_import in Hslot as (Hstore & [x Hx] & Hmono & Hrec & Hsl).
    apply bind_inv_OK in H as ([] & s2 & Hset & H).
    rewrite <- Hstore in Hx. rewrite (setSlot_OK _ _ _ _ Hx) in Hset.
    injection Hset as <-.
    apply (IH _ _ Hnd) in H as (Hrec' & Hmono' & Hout & Himp). simpl in *.
    split_and!.
    + tauto.
    + eauto.
    + intros b' [Hne Hb']%not_elem_of_cons. rewrite Hout by done.
      rewrite list_lookup_insert_ne by done. by rewrite Hstore.
    + intros b' i [->|Hb']%elem_of_cons Hi; [|by eapply Himp].
      destruct (Hsl i Hi) as (ns & Hns & ->). exists ns. split; [by apply Hmono'|].
      unfold slotOf. rewrite (Hout b Hb).
      rewrite list_lookup_insert_eq by (by eapply lookup_lt_Some). done.
Qed.

(** X10: after the loop over the bindings of the module, every import
    binding has the slot that its import specifier asks for, on the
    namespace slot that is kept for the module it is imported from, so that
    bindings imported from the same module share the namespace slot; and
    [moduleImports] still lists every such module with its slot, once. *)
Theorem computeRootSlots_imports bs s s' :
  NoDup bs →
  importsRecorded s →
  computeRootSlots importBindings uniqueNameInSet bs s = OK (tt, s') →
  importsRecorded s' ∧
  (∀ b i, b ∈ bs → importBindings !! b = Some i →
     ∃ ns, importedModuleNamespaceSlots s' !! source i = Some ns ∧
           (ns, source i) ∈ moduleImports s' ∧
           slotOf s' b = Some (importSlot ns (specifier i))) ∧
  ∀ b b' i i' ns ns',
    b ∈ bs → b' ∈ bs → importBindings !! b = Some i → importBindings !! b' = Some i' →
    slotOf s' b = Some (importSlot ns (specifier i)) →
    slotOf s' b' = Some (importSlot ns' (specifier i')) →
    source i = source i' → ns = ns'.
Proof.
  intros Hnd Hrec (Hrec' & _ & _ & Himp)%computeRootSlots_imported; [|done].
  specialize (Hrec' Hrec). split; [done|]. split.
  - intros b i Hb Hi. destruct (Himp b i Hb Hi) as (ns & Hns & Hslot).
    exists ns. split; [done|]. split; [|done]. by apply Hrec'.
  - intros b b' i i' ns ns' Hb Hb' Hi Hi' Hslot Hslot' Hsrc.
    destruct (Himp b i Hb Hi) as (n & Hn & Hs).
    destruct (Himp b' i' Hb' Hi') as (n' & Hn' & Hs').
    assert (n = n') as <- by congruence.
    assert (ns = n) as ->.
    { rewrite Hs in Hslot. destruct (specifier i); by injection Hslot. }
    rewrite Hs' in Hslot'. destruct (specifier i'); by injection Hslot'.
Qed.

End Imports.

Lemma computeRootSlots_imports_witness :
  computeRootSlots sampleImportBindings (λ n _, n) [0; 1; 2]%nat
    (emptyState sampleImports) = OK (tt, sampleImported) ∧
  importsRecorded sampleImported.
Proof.
  split; [vm_compute; reflexivity|].
  apply (computeRootSlots_imports sampleImportBindings (λ n _, n) [0; 1; 2]%nat
           (emptyState sampleImports) sampleImported).
  - apply (bool_decide_unpack _). by vm_compute.
  - split; [|constructor]. intros slot source. simpl. rewrite lookup_empty.
    split; [by intros ?%elem_of_nil|done].
  - vm_compute. reflexivity.
Defined.

(** *** Declarations of a block *)

Lemma captured_cons_local s b bs :
  localCount s (b :: bs) = ((if captured s b then 0 else 1) + localCount s bs)%nat.
Proof.
  unfold localCount. rewrite filter_cons. destruct (captured s b); by case_decide.
Qed.

Lemma captured_cons_closure s b bs :
  closureCount s (b :: bs) = ((if captured s b then 1 else 0) + closureCount s bs)%nat.
Proof.
  unfold closureCount. rewrite filter_cons. destruct (captured s b); by case_decide.
Qed.

Lemma counts_ext s s' bs :
  (∀ b, captured s' b = captured s b) →
  localCount s' bs = localCount s bs ∧ closureCount s' bs = closureCount s bs.
Proof.
  intros H. unfold localCount, closureCount. split; f_equal; apply list_filter_iff;
    intros b; by rewrite H.
Qed.

(** A declaration without a slot gets the next closure slot when it is
    accessed by a nested function, and the next local slot otherwise. *)
Lemma createLocalOrClosureSlot_next fs b l s x :
  bindingStore s !! b = Some x → slot x = None →
  ∃ s1,
    createLocalOrClosureSlot fs b l s =
      OK ((declaredSlot s l [] b,
           if captured s b
           then {| localClosureSlots :=
                     localClosureSlots l ++ [declaredSlot s l [] b];
                   stackDepth := stackDepth l |}
           else {| localClosureSlots := localClosureSlots l;
                   stackDepth := S (stackDepth l) |}), s1) ∧
    bindingStore s1 = bindingStore s ∧ prologue s1 = prologue s.
Proof.
  intros Hx Hslot. unfold createLocalOrClosureSlot, declaredSlot, captured.
  rewrite (bind_OK _ _ _ _ _ (getBinding_OK _ _ _ Hx)), Hx, Hslot.
  rewrite bool_decide_eq_false_2 by (by intros [? ?]).
  unfold hardAssert. simpl. rewrite (bind_OK _ _ _ _ _ eq_refl).
  unfold closureCount, localCount. simpl. rewrite !Nat.add_0_r.
  destruct (isAccessedByNestedFunction x).
  - unfold nextClosureSlot. rewrite (bind_OK _ _ _ _ _ eq_refl). by eexists.
  - by eexists.
Qed.

Section Lexical.

Variable functionScope blockScope : nat.

(** The loop over the lexical declarations of a block, none of which has
    a slot: it returns, and numbers the slots from [l] on. *)
Lemma computeLexicalSlots_numbered decls : ∀ l s,
  unslotted s decls →
  ∃ l' s',
    computeLexicalSlots functionScope blockScope decls l s = OK (l', s') ∧
    stackDepth l' = (stackDepth l + localCount s decls)%nat ∧
    localClosureSlots l' =
      localClosureSlots l ++
      map ClosureSlot (seq (length (localClosureSlots l)) (closureCount s decls)) ∧
    length (bindingStore s') = length (bindingStore s) ∧
    (∀ b, b ∉ decls → bindingStore s' !! b = bindingStore s !! b) ∧
    (∀ b, captured s' b = captured s b) ∧
    (∀ i b, decls !! i = Some b →
            slotOf s' b = Some (declaredSlot s l (take i decls) b)) ∧
    prologueOf s' blockScope =
      prologueOf s blockScope ++
      imap (λ i b, InitLexicalDeclaration (declaredSlot s l (take i decls) b)) decls.
Proof.
  induction decls as [|b decls IH]; intros l s [Hnd Hun]; simpl.
  - exists l, s. split; [done|]. unfold localCount, closureCount. simpl.
    rewrite !app_nil_r, Nat.add_0_r. by split_and!.
  - apply NoDup_cons in Hnd as [Hb Hnd].
    destruct (Hun b ltac:(left)) as (x & Hx & Hslot).
    rewrite (bind_OK _ _ _ _ _ (getBinding_OK _ _ _ Hx)).
    rewrite Hslot, bool_decide_eq_false_2 by (by intros [? ?]).
    destruct (createLocalOrClosureSlot_next functionScope b l s x Hx Hslot)
      as (s1 & Hcreate & Hstore1 & Hprol1).
    set (sl := declaredSlot s l [] b) in *.
    set (l1 := if captured s b then _ else _) in *.
    rewrite !bind_assoc, (bind_OK _ _ _ _ _ Hcreate). cbn beta iota.
    rewrite !bind_assoc.
    assert (bindingStore s1 !! b = Some x) as Hx1 by (by rewrite Hstore1).
    rewrite (bind_OK _ _ _ _ _ (setSlot_OK _ _ _ _ Hx1)).
    rewrite !bind_assoc, (bind_OK _ _ _ _ _ eq_refl), bind_ret_l.
    match goal with
    | |- context [computeLexicalSlots _ _ _ _ ?st] => set (s2 := st)
    end.
    assert (∀ b', captured s2 b' = captured s b') as Hcap.
    { intros b'. unfold captured, s2. simpl. rewrite Hstore1.
      destruct (decide (b' = b)) as [->|Hne].
      - rewrite list_lookup_insert_eq by (by eapply lookup_lt_Some). by rewrite Hx.
      - by rewrite list_lookup_insert_ne. }
    destruct (counts_ext s s2 decls Hcap) as [Hlc Hcc].
    destruct (IH l1 s2) as (l' & s' & Hrun & Hd & Hc & Hlen & Hout & Hcap' & Hslots & Hprol).
    { split; [done|]. intros b' Hb'. destruct (Hun b' ltac:(by right)) as (x' & Hx' & Hs').
      exists x'. split; [|done]. unfold s2. simpl. rewrite Hstore1.
      rewrite list_lookup_insert_ne; [done|]. intros ->. done. }
    exists l', s'. split; [done|].
    rewrite captured_cons_local, captured_cons_closure.
    assert (stackDepth l1 = (stackDepth l + if captured s b then 0 else 1)%nat ∧
            localClosureSlots l1 =
              localClosureSlots l ++
              (if captured s b then [ClosureSlot (length (localClosureSlots l))] else []))
      as [Hd1 Hc1].
    { unfold l1, sl, declaredSlot, closureCount. destruct (captured s b); simpl.
      - by rewrite !Nat.add_0_r.
      - split; [lia|by rewrite app_nil_r]. }
    split_and!.
    + rewrite Hd, Hd1, Hlc. lia.
    + rewrite Hc, Hc1, Hcc. rewrite <- app_assoc. f_equal.
      destruct (captured s b); simpl; [|by rewrite app_nil_r].
      rewrite length_app. simpl. by rewrite Nat.add_1_r.
    + rewrite Hlen. unfold s2. simpl. by rewrite length_insert, Hstore1.
    + intros b' [Hne Hb']%not_elem_of_cons. rewrite Hout by done. unfold s2. simpl.
      rewrite list_lookup_insert_ne by done. by rewrite Hstore1.
    + intros b'. by rewrite Hcap', Hcap.
    + assert (∀ before b', declaredSlot s2 l1 before b' = declaredSlot s l (b :: before) b')
        as Hds.
      { intros before b'. unfold declaredSlot.
        rewrite Hcap, captured_cons_local, captured_cons_closure.
        destruct (counts_ext s s2 before Hcap) as [-> ->]. rewrite Hd1, Hc1.
        destruct (captured s b'); f_equal; destruct (captured s b);
          rewrite ?length_app, ?app_nil_r; simpl; lia. }
      intros [|i] b' Hi; simpl in Hi.
      * injection Hi as <-. simpl. unfold slotOf. rewrite (Hout b Hb). unfold s2. simpl.
        rewrite list_lookup_insert_eq by (rewrite Hstore1; by eapply lookup_lt_Some).
        done.
      * simpl. rewrite (Hslots i b' Hi). by rewrite Hds.
    + assert (∀ before b', declaredSlot s2 l1 before b' = declaredSlot s l (b :: before) b')
        as Hds.
      { intros before b'. unfold declaredSlot.
        rewrite Hcap, captured_cons_local, captured_cons_closure.
        destruct (counts_ext s s2 before Hcap) as [-> ->]. rewrite Hd1, Hc1.
        destruct (captured s b'); f_equal; destruct (captured s b);
          rewrite ?length_app, ?app_nil_r; simpl; lia. }
      rewrite Hprol. unfold s2 at 1. unfold prologueOf at 1. simpl.
      rewrite lookup_insert_eq. simpl. rewrite <- app_assoc. f_equal.
      * unfold prologueOf. simpl. by rewrite Hprol1.
      * simpl. f_equal. apply imap_ext. intros i b' _. simpl. by rewrite Hds.
Qed.

(** X11: the loop over the lexical declarations of a block, when they are
    different bindings without a slot, returns; a declaration that is
    accessed by a nested function gets the next closure slot of the
    function and any other one the next local slot, in the order of the
    declarations, the prologue of the block gets one
    [InitLexicalDeclaration] step for each declaration in this order, and
    no other binding is changed. *)
Theorem computeLexicalSlots_assigns decls l s :
  unslotted s decls →
  ∃ l' s',
    computeLexicalSlots functionScope blockScope decls l s = OK (l', s') ∧
    stackDepth l' = (stackDepth l + localCount s decls)%nat ∧
    localClosureSlots l' =
      localClosureSlots l ++
      map ClosureSlot (seq (length (localClosureSlots l)) (closureCount s decls)) ∧
    (∀ i b, decls !! i = Some b →
            slotOf s' b = Some (declaredSlot s l (take i decls) b)) ∧
    (∀ b, b ∉ decls → bindingStore s' !! b = bindingStore s !! b) ∧
    prologueOf s' blockScope =
      prologueOf s blockScope ++
      imap (λ i b, InitLexicalDeclaration (declaredSlot s l (take i decls) b)) decls.
Proof.
  intros (l' & s' & ? & ? & ? & _ & ? & _ & ? & ?)%(computeLexicalSlots_numbered decls l).
  exists l', s'. by split_and!.
Qed.

End Lexical.

Lemma computeLexicalSlots_assigns_witness :
  ∃ l' s',
    computeLexicalSlots 0 1 [0; 1; 2]%nat noLocals (emptyState sampleLexicals) =
      OK (l', s') ∧
    stackDepth l' = 2%nat ∧
    localClosureSlots l' = [ClosureSlot 0] ∧
    slotOf s' 0 = Some (LocalSlot 0) ∧
    slotOf s' 1 = Some (ClosureSlot 0) ∧
    slotOf s' 2 = Some (LocalSlot 1).
Proof.
  destruct (computeLexicalSlots_assigns 0 1 [0; 1; 2]%nat noLocals
              (emptyState sampleLexicals)) as (l' & s' & Hrun & Hd & Hc & Hslots & _).
  - split; [apply (bool_decide_unpack _); by vm_compute|].
    intros b Hb. apply list_elem_of_lookup in Hb as [i Hi].
    destruct i as [|[|[|i]]]; simplify_eq/=; eexists; by split.
  - exists l', s'. split; [exact Hrun|]. split; [exact Hd|]. split; [exact Hc|].
    split; [exact (Hslots 0%nat 0%nat eq_refl)|].
    split; [exact (Hslots 1%nat 1%nat eq_refl)|exact (Hslots 2%nat 2%nat eq_refl)].
Defined.

(** *** Blocks *)

Section BlockSlots.

Variable scopes : gmap nat Scope.

(** The loop over the nested function declarations of a block, when it
    returns: how far it has moved the stack depth. *)
Lemma computeNestedFunctionSlots_depth fs bs decls : ∀ l s l' s',
  unslotted s (map binding decls) →
  computeNestedFunctionSlots scopes fs bs decls l s = OK (l', s') →
  stackDepth l' = (stackDepth l + localCount s (map binding decls))%nat ∧
  (∀ b, b ∉ map binding decls → bindingStore s' !! b = bindingStore s !! b) ∧
  (∀ b, captured s' b = captured s b).
Proof.
  induction decls as [|d decls IH]; intros l s l' s' [Hnd Hun]; simpl.
  - intros [= <- <-]. unfold localCount. simpl. by rewrite Nat.add_0_r.
  - apply NoDup_cons in Hnd as [Hb Hnd].
    destruct (Hun (binding d) ltac:(left)) as (x & Hx & Hslot).
    rewrite (bind_OK _ _ _ _ _ (getBinding_OK _ _ _ Hx)).
    rewrite Hslot, bool_decide_eq_false_2 by (by intros [? ?]).
    destruct (createLocalOrClosureSlot_next fs (binding d) l s x Hx Hslot)
      as (s1 & Hcreate & Hstore1 & Hprol1).
    set (sl := declaredSlot s l [] (binding d)) in *.
    set (l1 := if captured s (binding d) then _ else _) in *.
    rewrite !bind_assoc, (bind_OK _ _ _ _ _ Hcreate). cbn beta iota.
    rewrite !bind_assoc.
    assert (bindingStore s1 !! binding d = Some x) as Hx1 by (by rewrite Hstore1).
    rewrite (bind_OK _ _ _ _ _ (setSlot_OK _ _ _ _ Hx1)).
    set (s2 := set_bindingStore _ s1).
    intros H.
    assert (∃ s3, bindingStore s3 = bindingStore s2 ∧
                  computeNestedFunctionSlots scopes fs bs decls l1 s3 = OK (l', s'))
      as (s3 & Hstore3 & Hrun).
    { revert H. destruct (scopes !! func d) as [info|]; [|discriminate].
      destruct (type info); try discriminate.
      rewrite !bind_assoc, (bind_OK _ _ _ _ _ eq_refl), bind_ret_l.
      intros H. eexists. split; [|exact H]. done. }
    clear H.
    assert (∀ b', captured s3 b' = captured s b') as Hcap.
    { intros b'. unfold captured. rewrite Hstore3. unfold s2. simpl. rewrite Hstore1.
      destruct (decide (b' = binding d)) as [->|Hne].
      - rewrite list_lookup_insert_eq by (by eapply lookup_lt_Some). by rewrite Hx.
      - by rewrite list_lookup_insert_ne. }
    destruct (counts_ext s s3 (map binding decls) Hcap) as [Hlc _].
    apply IH in Hrun as (Hd & Hout & Hcap').
    2: { split; [done|]. intros b' Hb'.
         destruct (Hun b' ltac:(by right)) as (x' & Hx' & Hs').
         exists x'. split; [|done]. rewrite Hstore3. unfold s2. simpl. rewrite Hstore1.
         rewrite list_lookup_insert_ne; [done|]. intros Heq. by rewrite Heq in Hb. }
    rewrite captured_cons_local. split_and!.
    + rewrite Hd, Hlc. unfold l1. destruct (captured s (binding d)); simpl; lia.
    + intros b' [Hne Hb']%not_elem_of_cons. rewrite Hout by done.
      rewrite Hstore3. unfold s2. simpl.
      rewrite list_lookup_insert_ne by done. by rewrite Hstore1.
    + intros b'. by rewrite Hcap', Hcap.
Qed.

(** [computeBlockSlots] returns the stack depth that it was called with. *)
Lemma computeBlockSlots_depth fs blockScope l s l' s' :
  computeBlockSlots scopes fs blockScope l s = OK (l', s') →
  stackDepth l' = stackDepth l.
Proof.
  destruct blockScope as [t i bs v lx n cs th ps f c]. simpl.
  intros (l1 & s1 & _ & H)%bind_inv_OK.
  apply bind_inv_OK in H as (l2 & s2 & _ & H).
  apply bind_inv_OK in H as (l3 & s3 & _ & H).
  by apply bind_inv_OK in H as ([] & s4 & _ & [= <- _]).
Qed.

Lemma children_depth fs children : ∀ l s l' s',
  foldM (λ l child,
           match type child with
           | BlockScope => computeBlockSlots scopes fs child l
           | FunctionScope =>
               let* l' := computeFunctionSlots_start child in
               computeBlockSlots scopes (scopeId child) child l' ;;
               computeFunctionSlots_finish child ;;
               ret l
           | ModuleScope => throw Unexpected
           end) children l s = OK (l', s') →
  stackDepth l' = stackDepth l.
Proof.
  induction children as [|child children IH]; intros l s l' s'; simpl.
  - by intros [= <- _].
  - intros (l1 & s1 & Hchild & H)%bind_inv_OK. apply IH in H as ->.
    destruct (type child); [discriminate| |by eapply computeBlockSlots_depth].
    apply bind_inv_OK in Hchild as (l0 & s0 & _ & H).
    apply bind_inv_OK in H as (l2 & s2 & _ & H).
    by apply bind_inv_OK in H as ([] & s3 & _ & [= <- _]).
Qed.

(** X12: when [computeBlockSlots] returns for a block whose declarations
    are different bindings without a slot, the stack depth that it counts
    with is the one before the block again, so that the blocks that follow
    use the same local slots, and the [epiloguePopCount] of a block scope
    is the number of its own declarations that have got a local slot,
    whatever blocks and functions are nested in it. *)
Theorem computeBlockSlots_epilogue fs blockScope l s l' s' :
  unslotted s (declarations blockScope) →
  computeBlockSlots scopes fs blockScope l s = OK (l', s') →
  stackDepth l' = stackDepth l ∧
  (type blockScope = BlockScope →
   epiloguePopCount s' !! scopeId blockScope =
     Some (localCount s (declarations blockScope))).
Proof.
  intros Hun H. split; [by eapply computeBlockSlots_depth|].
  destruct blockScope as [t i bs v lx n cs th ps f c]. simpl in *.
  intros ->. unfold declarations in Hun. simpl in Hun.
  destruct Hun as [Hnd Hun]. apply NoDup_app in Hnd as (Hnd1 & Hdisj & Hnd2).
  apply bind_inv_OK in H as (l1 & s1 & Hnested & H).
  apply computeNestedFunctionSlots_depth in Hnested as (Hd1 & Hout1 & Hcap1).
  2: { split; [done|]. intros b Hb. apply Hun. set_solver. }
  apply bind_inv_OK in H as (l2 & s2 & Hlex & H).
  destruct (computeLexicalSlots_numbered fs i lx l1 s1)
    as (l2' & s2' & Hlex' & Hd2 & _).
  { split; [done|]. intros b Hb.
    destruct (Hun b ltac:(set_solver)) as (x & Hx & Hslot).
    exists x. split; [|done]. rewrite Hout1; [done|]. intros Hb'. by eapply Hdisj. }
  rewrite Hlex in Hlex'. injection Hlex' as <- <-.
  apply bind_inv_OK in H as (l3 & s3 & Hd3%children_depth & H).
  apply bind_inv_OK in H as ([] & s4 & [= <-] & [= _ <-]). simpl.
  rewrite lookup_insert_eq. f_equal.
  destruct (counts_ext s s1 lx Hcap1) as [Hlc _].
  unfold declarations, localCount in *. simpl. rewrite filter_app, length_app. lia.
Qed.

End BlockSlots.


Lemma computeBlockSlots_epilogue_witness :
  computeBlockSlots ∅ 0 sampleBlockScope noLocals (emptyState sampleBlockBindings) =
    OK sampleBlockSlots ∧
  stackDepth sampleBlockSlots.1 = 0%nat ∧
  epiloguePopCount sampleBlockSlots.2 !! 1%nat = Some 2%nat.
Proof.
  split; [vm_compute; reflexivity|].
  destruct (computeBlockSlots_epilogue ∅ 0 sampleBlockScope noLocals
              (emptyState sampleBlockBindings) sampleBlockSlots.1 sampleBlockSlots.2)
    as [Hd He].
  - split; [apply (bool_decide_unpack _); by vm_compute|].
    intros b Hb. apply list_elem_of_lookup in Hb as [i Hi].
    destruct i as [|[|[|i]]]; simplify_eq/=; eexists; by split.
  - vm_compute. reflexivity.
  - split; [exact Hd|]. exact (He eq_refl).
Defined.

End Pass2Facts.


(** ** The compiler to IL *)

Module SrcToILFacts.

Import SrcToIL.

Local Open Scope Z_scope.

(** Unfolds the updates of the fields of states and of cursors. *)
Tactic Notation "fields" :=
  unfold predeclared;
  unfold moveCursor, pushBreakScope, set_breakScope, set_stackDepth, set_scope,
    set_unreachable, set_curBlock, set_blockObjects, set_funcBlocks,
    set_predeclaredBlocks, set_labels, set_nextBlockID, set_scopeObjects;
  cbn [curBlock stackDepth breakScope scope unreachable nextBlockID blockObjects
       labels predeclaredBlocks funcBlocks scopeObjects].

Tactic Notation "fields" "in" hyp(H) :=
  unfold predeclared in H;
  unfold moveCursor, pushBreakScope, set_breakScope, set_stackDepth, set_scope,
    set_unreachable, set_curBlock, set_blockObjects, set_funcBlocks,
    set_predeclaredBlocks, set_labels, set_nextBlockID, set_scopeObjects in H;
  cbn [curBlock stackDepth breakScope scope unreachable nextBlockID blockObjects
       labels predeclaredBlocks funcBlocks scopeObjects] in H.

(** *** Emitting an operation *)

Section Emitting.

Variable T : Tables.

Lemma checkOperands_state opc expectedTypes i ops s u s' :
  checkOperands T opc expectedTypes i ops s = OK (u, s') → s' = s.
Proof.
  revert i s. induction expectedTypes as [|ty tys IH]; intros i s; simpl.
  - by intros [= _ <-].
  - intros (u1 & s1 & H1 & H2)%bind_inv_OK. apply IH in H2 as ->.
    destruct (ops !! i) as [operand|].
    + destruct (negb _); [discriminate|].
      destruct operand; try (by injection H1 as _ <-);
        destruct (_ || _); (discriminate || by injection H1 as _ <-).
    + destruct (endsWithQuestionMark ty); [by injection H1 as _ <-|discriminate].
Qed.

Lemma targetBlockID_state operand s target s' :
  targetBlockID operand s = OK (target, s') →
  s' = s ∧ ∃ l, operand = Some (LabelOperand l) ∧ labels s !! l = Some target.
Proof.
  destruct operand as [[l| | | | |]|]; try discriminate.
  unfold targetBlockID, bind, get, ret. simpl.
  destruct (labels s !! l) as [t|] eqn:Hl; [|discriminate].
  intros [= <- <-]. eauto.
Qed.

Lemma checkTarget_state mismatch target depth s u s' :
  checkTarget mismatch target depth s = OK (u, s') →
  s' = s ∧
  ∀ i, target = Some i →
       ∃ bl, blockOf s i = Some bl ∧ expectedStackDepthAtEntry bl = depth.
Proof.
  destruct target as [i|]; simpl.
  - unfold bind, get, blockOf. simpl.
    destruct (lookupBlock (funcBlocks s) i) as [b|] eqn:Hb; [|discriminate]. simpl.
    destruct (blockObjects s !! b) as [[bl|]|] eqn:Hbl; try discriminate. simpl.
    destruct (expectedStackDepthAtEntry bl =? depth) eqn:E; [|discriminate].
    intros [= <-]. split; [done|]. intros ? [= <-]. exists bl.
    rewrite Hb. simpl. rewrite Hbl. split; [done|lia].
  - intros [= <-]. split; [done|]. discriminate.
Qed.

Lemma pushOperation_pushed b operation s u s' :
  pushOperation b operation s = OK (u, s') ↔ pushed b operation s s'.
Proof.
  unfold pushOperation, pushed, bind, get, modify. simpl. split.
  - destruct (blockObjects s !! b) as [[bl|]|]; try discriminate.
    intros [= <-]. eauto.
  - intros (bl & -> & ->). by destruct u.
Qed.

(** [addOp], when it returns, has emitted the operation. *)
Lemma addOp_emitted cur opc ops s cur' s' :
  addOp T cur opc ops s = OK (cur', s') → emitted T opc ops cur s cur' s'.
Proof.
  unfold addOp, emitted.
  intros ([] & s1 & ->%checkOperands_state & H)%bind_inv_OK.
  destruct (_ <? _)%nat; [discriminate|].
  destruct (unreachable cur); [by injection H as <- <-|].
  apply bind_inv_OK in H as ([] & s2 & Hpush%pushOperation_pushed & H).
  apply bind_inv_OK in H as ([] & s3 & H & [= <- <-]).
  split; [|done].
  enough (s3 = s2) as -> by done.
  destruct opc; try (by injection H as <-).
  - apply bind_inv_OK in H as (t1 & ? & [-> _]%targetBlockID_state & H).
    apply bind_inv_OK in H as (t2 & ? & [-> _]%targetBlockID_state & H).
    apply bind_inv_OK in H as ([] & ? & [-> _]%checkTarget_state & H).
    by apply checkTarget_state in H as [-> _].
  - apply bind_inv_OK in H as (t1 & ? & [-> _]%targetBlockID_state & H).
    by apply checkTarget_state in H as [-> _].
Qed.

(** The first half of the stack-depth discipline: a [Jump] that [addOp]
    accepts and whose target block exists leaves the stack at the depth
    that the target expects, and so do both targets of a [Branch]. *)
Lemma addOp_target_checked cur opc ops s cur' s' l i :
  addOp T cur opc ops s = OK (cur', s') →
  unreachable cur = false →
  opc = Jump ∧ ops !! 0%nat = Some (LabelOperand l) ∨
  opc = Branch ∧ (ops !! 0%nat = Some (LabelOperand l) ∨
                  ops !! 1%nat = Some (LabelOperand l)) →
  labels s !! l = Some (Some i) →
  ∃ bl, blockOf s' i = Some bl ∧ expectedStackDepthAtEntry bl = stackDepth cur'.
Proof.
  unfold addOp. intros ([] & s1 & ->%checkOperands_state & H)%bind_inv_OK Hr Hops Hl.
  destruct (_ <? _)%nat; [discriminate|]. rewrite Hr in H.
  apply bind_inv_OK in H as ([] & s2 & Hpush%pushOperation_pushed & H).
  apply bind_inv_OK in H as ([] & s3 & H & [= <- <-]). simpl.
  assert (labels s2 = labels s) as Hlabels by (by destruct Hpush as (? & _ & ->)).
  destruct Hops as [[-> Hop]|[-> Hop]].
  - apply bind_inv_OK in H as (t1 & ? & [-> (l' & Hl1 & Ht1)]%targetBlockID_state & H).
    apply checkTarget_state in H as [-> H].
    rewrite Hop in Hl1. injection Hl1 as <-. rewrite Hlabels, Hl in Ht1.
    injection Ht1 as <-. by apply H.
  - apply bind_inv_OK in H as (t1 & ? & [-> (l1 & Hl1 & Ht1)]%targetBlockID_state & H).
    apply bind_inv_OK in H as (t2 & ? & [-> (l2 & Hl2 & Ht2)]%targetBlockID_state & H).
    apply bind_inv_OK in H as ([] & ? & [-> H1]%checkTarget_state & H).
    apply checkTarget_state in H as [-> H2].
    rewrite Hlabels in Ht1, Ht2.
    destruct Hop as [Hop|Hop].
    + rewrite Hop in Hl1. injection Hl1 as <-. rewrite Hl in Ht1.
      injection Ht1 as <-. by apply H1.
    + rewrite Hop in Hl2. injection Hl2 as <-. rewrite Hl in Ht2.
      injection Ht2 as <-. by apply H2.
Qed.

(** The second half: the block that [createBlock] makes of a predeclared
    block expects the stack depth of the cursor that it is created from;
    it is empty, and the cursor returned is at its start, at that depth. *)
Lemma createBlock_records_depth cur b s cur' s' :
  createBlock cur (Some b) s = OK (cur', s') →
  blockObjects s !! b = Some None →
  blockAt s' cur' =
    Some {| id := block (nextBlockID s);
            expectedStackDepthAtEntry := stackDepth cur; operations := [] |} ∧
  cur' = {| curBlock := b; stackDepth := stackDepth cur; breakScope := breakScope cur;
            scope := scope cur; unreachable := false |}.
Proof.
  unfold createBlock, blockAt, bind, get, modify, ret. simpl.
  destruct (predeclaredBlocks s !! b) as [deps|] eqn:Hb; [|discriminate].
  simpl. intros [= <- <-] Hnone. simpl. split; [|done].
  rewrite list_lookup_insert_eq; [done|]. by eapply lookup_lt_Some.
Qed.

Lemma addOp_Jump_forward cur l s bl :
  SwitchTables T →
  unreachable cur = false →
  blockObjects s !! curBlock cur = Some (Some bl) →
  labels s !! l = Some None →
  addOp T cur Jump [LabelOperand l] s =
  OK (cur,
      set_blockObjects
        (<[curBlock cur :=
             Some {| id := id bl;
                     expectedStackDepthAtEntry := expectedStackDepthAtEntry bl;
                     operations := operations bl ++
                       [{| opcode := Jump; operands := [LabelOperand l];
                           stackDepthBefore := stackDepth cur;
                           stackDepthAfter := stackDepth cur;
                           staticInfo := None |}] |}]> (blockObjects s)) s).
Proof.
  intros HT Hr Hbl Hl. unfold addOp.
  rewrite (Jump_operands T HT). simpl. unfold bind at 1. simpl.
  pose proof (Jump_minOperandCount T HT) as Hmin.
  destruct (Nat.ltb_spec 1 (minOperandCount T Jump)) as [?|_]; [lia|].
  rewrite Hr, (Jump_stackChange T HT), Z.add_0_r.
  unfold pushOperation, targetBlockID, bind, get, modify, ret. simpl.
  rewrite Hbl. simpl. rewrite Hl. simpl. by destruct cur.
Qed.

Lemma addOp_Pop_1 cur s bl :
  SwitchTables T →
  unreachable cur = false →
  blockObjects s !! curBlock cur = Some (Some bl) →
  addOp T cur Pop [countOperand 1] s =
  OK (set_stackDepth (stackDepth cur - 1) cur,
      set_blockObjects
        (<[curBlock cur :=
             Some {| id := id bl;
                     expectedStackDepthAtEntry := expectedStackDepthAtEntry bl;
                     operations := operations bl ++
                       [{| opcode := Pop; operands := [CountOperand 1];
                           stackDepthBefore := stackDepth cur;
                           stackDepthAfter := stackDepth cur - 1;
                           staticInfo := None |}] |}]> (blockObjects s)) s).
Proof.
  intros HT Hr Hbl. unfold addOp.
  rewrite (Pop_operands T HT). simpl. unfold bind at 1. simpl.
  pose proof (one_MAX_COUNT T HT) as Hmax.
  destruct (Z.ltb_spec (MAX_COUNT T) 1) as [?|_]; [lia|]. simpl.
  pose proof (Pop_minOperandCount T HT) as Hmin.
  destruct (Nat.ltb_spec 1 (minOperandCount T Pop)) as [?|_]; [lia|].
  unfold countOperand. rewrite Hr, (Pop_stackChange T HT).
  unfold pushOperation, bind, get, modify, ret. simpl.
  rewrite Hbl. done.
Qed.

End Emitting.

(** *** Blocks and labels *)

Lemma updateLabels_length deps i ls : length (updateLabels deps i ls) = length ls.
Proof.
  unfold updateLabels. revert ls.
  induction deps as [|l deps IH]; intros ls; simpl; [done|].
  by rewrite IH, length_insert.
Qed.

Lemma updateLabels_elem deps i ls l :
  l ∈ deps → (l < length ls)%nat → updateLabels deps i ls !! l = Some (Some i).
Proof.
  unfold updateLabels. revert ls.
  induction deps as [|l' deps IH]; intros ls Hin Hlt; simpl; [by inversion Hin|].
  destruct (decide (l ∈ deps)) as [Hd|Hd].
  - apply IH; [done|]. by rewrite length_insert.
  - assert (l = l') as <- by (inversion Hin; by subst).
    clear IH Hin. revert ls Hlt.
    assert (∀ ls : list (option BlockID), ls !! l = Some (Some i) →
      fold_left (λ ls l0, <[l0:=Some i]> ls) deps ls !! l = Some (Some i)) as Hkeep.
    { clear Hd. induction deps as [|l' deps IH]; intros ls Hls; simpl; [done|].
      apply IH. destruct (decide (l' = l)) as [->|Hne].
      - apply list_lookup_insert_eq. by eapply lookup_lt_Some.
      - by rewrite list_lookup_insert_ne. }
    intros ls Hlt. apply Hkeep. by apply list_lookup_insert_eq.
Qed.

Lemma labelOfBlock_predeclared b s deps :
  predeclaredBlocks s !! b = Some deps →
  labelOfBlock b s =
  OK (LabelOperand (length (labels s)),
      set_predeclaredBlocks (<[b := deps ++ [length (labels s)]]> (predeclaredBlocks s))
        (set_labels (labels s ++ [blockId s b]) s)).
Proof.
  intros Hb. unfold labelOfBlock, bind, get, modify, ret. simpl. by rewrite Hb.
Qed.

Lemma labelOfBlock_label b s operand s' :
  labelOfBlock b s = OK (operand, s') → ∃ l, operand = LabelOperand l.
Proof.
  unfold labelOfBlock. intros (s0 & ? & _ & H)%bind_inv_OK.
  apply bind_inv_OK in H as ([] & ? & _ & H).
  apply bind_inv_OK in H as ([] & ? & _ & [= <- _]). eauto.
Qed.

Lemma createBlock_cursor cur predeclaredBlock s cur' s' :
  createBlock cur predeclaredBlock s = OK (cur', s') →
  stackDepth cur' = stackDepth cur ∧ breakScope cur' = breakScope cur ∧
  unreachable cur' = false.
Proof.
  unfold createBlock. intros (s0 & ? & _ & H)%bind_inv_OK.
  apply bind_inv_OK in H as ([] & ? & _ & H).
  apply bind_inv_OK in H as (b & ? & _ & H).
  by apply bind_inv_OK in H as ([] & ? & _ & [= <- _]).
Qed.

(** A block that has just been created of a predeclared block and to which
    an operation could be added holds this operation and no other. *)
Lemma createBlock_emitted T cur b s c0 s0 opc ops c1 s1 :
  createBlock cur (Some b) s = OK (c0, s0) →
  addOp T c0 opc ops s0 = OK (c1, s1) →
  curBlock c1 = b ∧
  blockAt s1 c1 =
    Some {| id := block (nextBlockID s);
            expectedStackDepthAtEntry := stackDepth cur;
            operations := [operationAt T c0 opc ops] |} ∧
  stackDepth c1 = stackDepth cur + calcStaticStackChangeOfOp T opc ops ∧
  breakScope c1 = breakScope cur.
Proof.
  intros Hcreate Hadd%addOp_emitted. unfold emitted in Hadd.
  pose proof (createBlock_cursor _ _ _ _ _ Hcreate) as (Hd & Hbs & Hr).
  rewrite Hr in Hadd. destruct Hadd as [(bl & Hbl & ->) ->].
  revert Hcreate Hbl. unfold createBlock, bind, get, modify, ret. simpl.
  destruct (predeclaredBlocks s !! b) as [deps|]; [|discriminate]. simpl.
  intros [= <- <-]. fields. intros Hbl.
  assert (b < length (blockObjects s))%nat as Hlt.
  { apply lookup_lt_Some in Hbl. by rewrite length_insert in Hbl. }
  rewrite list_lookup_insert_eq in Hbl by done. injection Hbl as <-.
  unfold blockAt, operationAt. fields.
  rewrite list_lookup_insert_eq by (by rewrite length_insert). done.
Qed.

Lemma predeclareBlock_OK s :
  predeclareBlock s = OK (length (blockObjects s), predeclared s).
Proof. done. Qed.

(** *** Binary expressions *)

Section Expressions.

Variable T : Tables.
Variable SM : ScopeModel.

(** C6: compiling [x / y | 0], a [|] whose left operand is a [/] binary
    expression and whose right operand is the numeric literal 0, is the code
    of [x], then the code of [y], then one call of [addOp] for
    [BinOp DIVIDE_AND_TRUNC], and that call, when it returns, has appended
    exactly this one operation at the cursor (nothing when the cursor is
    unreachable): no [BinOp] with [|] or [/] is emitted for the expression. *)
Theorem compileExpression_divide_and_trunc (x y : Expression) (cur : Cursor) :
  compileExpression T SM
    (BinaryExpression "|" (BinaryExpression "/" x y) (NumericLiteral 0)) cur
  = (if unreachable cur then ret cur else
     let* cur := compileExpression T SM x cur in
     let* cur := compileExpression T SM y cur in
     addOp T cur BinOp [opOperand "DIVIDE_AND_TRUNC"]) ∧
  ∀ cur2 s2 cur3 s3,
    addOp T cur2 BinOp [opOperand "DIVIDE_AND_TRUNC"] s2 = OK (cur3, s3) →
    emitted T BinOp [OpOperand "DIVIDE_AND_TRUNC"] cur2 s2 cur3 s3.
Proof.
  split; [|intros *; apply addOp_emitted].
  simpl. by destruct (unreachable cur).
Qed.

(** The operations of [(7 / 2) | 0] in an empty entry block. *)
Example compileExpression_sampleDivideAndTrunc :
  ∃ cur s,
    compileExpression sampleTables sampleScopeModel sampleDivideAndTrunc bodyCur
      newFunction = OK (cur, s) ∧
    instruction <$> operationsAt s cur =
      [(Literal, [LiteralOperand (IL.NumberValue (IL.Int 7))]);
       (Literal, [LiteralOperand (IL.NumberValue (IL.Int 2))]);
       (BinOp, [OpOperand "DIVIDE_AND_TRUNC"])].
Proof. eexists _, _. split; [vm_compute; reflexivity|]. vm_compute. reflexivity. Qed.

(** *** Array literals *)

Section Arrays.

Variable compile : Expression → Cursor → C Cursor.

Lemma endsInElision_cons (element : option Expression) elements :
  endsInElision (element :: elements) =
  match elements with
  | [] => match element with None => true | Some _ => false end
  | _ => endsInElision elements
  end.
Proof. unfold endsInElision. destruct elements; [by destruct element|done]. Qed.

(** The loop of the source, from any entry on and whatever the flag is
    when it starts, stores the elements that are present, and the flag it
    ends with says whether the last entry is an elision. *)
Lemma compileArrayElements_present indexOfArrayInstance elements :
  ∀ i flag cur s,
    compileArrayElements T compile indexOfArrayInstance i elements flag cur s =
    (let* cur :=
       foldM (storeElement T compile indexOfArrayInstance)
             (presentElementsFrom i elements) cur in
     ret (match elements with [] => flag | _ => endsInElision elements end, cur)) s.
Proof.
  induction elements as [|[element|] elements IH]; intros i flag cur s.
  - done.
  - rewrite endsInElision_cons.
    change (presentElementsFrom i (Some element :: elements))
      with ((i, element) :: presentElementsFrom (S i) elements).
    destruct element; cbn [compileArrayElements foldM storeElement fst snd];
      try reflexivity; unfold bind;
      repeat match goal with
        | |- context [match ?c with OK _ => _ | Err _ => _ end] =>
            lazymatch c with
            | context [compileArrayElements] => fail
            | context [foldM] => fail
            | _ => destruct c as [[? ?]|]; [|reflexivity]
            end
        end;
      rewrite IH; reflexivity.
  - rewrite endsInElision_cons.
    change (presentElementsFrom i (None :: elements))
      with (presentElementsFrom (S i) elements).
    simpl compileArrayElements. rewrite IH.
    unfold bind. destruct (foldM _ _ _ _) as [[c1 s1]|]; [|done].
    by destruct elements.
Qed.

Lemma compileArrayExpression_refines (elements : list (option Expression))
    (cur : Cursor) (s : State) :
  compileArrayExpression T compile elements cur s =
  compileArrayExpression_spec T compile elements cur s.
Proof.
  unfold compileArrayExpression, compileArrayExpression_spec, bind.
  destruct (addOp T cur ArrayNew [] s) as [[cur0 s0]|]; [|done].
  destruct (setStaticInfo cur0 _ s0) as [[[] s1]|]; [|done].
  pose proof (compileArrayElements_present (stackDepth cur) elements 0 false cur0 s1)
    as H.
  unfold bind in H. rewrite H. unfold presentElements.
  destruct (foldM _ _ _ _) as [[c2 s2]|]; [|done]. simpl.
  destruct elements; [done|]. by destruct (endsInElision _).
Qed.

End Arrays.

(** C10: the code of an array literal at a reachable cursor is the code
    that the specification describes. The elements that are present are
    stored at their index with one [ObjectSet] each, the elided ones are
    passed over without any operation, and exactly when the literal ends in
    an elision, one more [ObjectSet] follows, which stores the number of
    elements of the literal as the property [length] of the new array. *)
Theorem compileExpression_array_elisions (elements : list (option Expression))
    (cur : Cursor) (s : State) :
  compileExpression T SM (ArrayExpression elements) cur s =
  if unreachable cur then OK (cur, s)
  else compileArrayExpression_spec T (compileExpression T SM) elements cur s.
Proof.
  cbn [compileExpression]. destruct (unreachable cur); [done|].
  apply compileArrayExpression_refines.
Qed.

(** The operations of [[1, , 3, , ]] and of [[1, , 3]]. *)
Example compileExpression_sampleArrays :
  ∃ cur s cur' s',
    compileExpression sampleTables sampleScopeModel
      (ArrayExpression sampleArrayEndingInElision) bodyCur newFunction = OK (cur, s) ∧
    compileExpression sampleTables sampleScopeModel
      (ArrayExpression sampleArray) bodyCur newFunction = OK (cur', s') ∧
    instruction <$> operationsAt s cur =
      (instruction <$> operationsAt s' cur') ++
      [(LoadVar, [IndexOperand 0]);
       (Literal, [LiteralOperand (IL.StringValue "length")]);
       (Literal, [LiteralOperand (IL.NumberValue (IL.Int 4))]);
       (ObjectSet, [])] ∧
    length (filter (λ i, bool_decide (i.1 = ObjectSet))
                   (instruction <$> operationsAt s' cur')) = 2%nat.
Proof.
  eexists _, _, _, _. split; [vm_compute; reflexivity|].
  split; [vm_compute; reflexivity|]. split; vm_compute; reflexivity.
Qed.

End Expressions.

(** *** What compiling an expression keeps *)

Lemma grows_refl s : grows s s.
Proof. by intros b. Qed.

Lemma grows_trans s1 s2 s3 : grows s1 s2 → grows s2 s3 → grows s1 s3.
Proof. intros H12 H23 b Hb. by apply H23, H12. Qed.

Section Preserving.

Variable T : Tables.
Variable n : nat.
Variable old : nat → Prop.

Lemma preserves_ret cur : preserves n old cur (ret cur).
Proof. intros s cur' s' [= <- <-] Hk. eauto using grows_refl. Qed.

Lemma preserves_throw cur e : preserves n old cur (throw e).
Proof. intros s cur' s'. discriminate. Qed.

Lemma preservesState_ret {A} (Q : A → Prop) a : Q a → preservesState n old Q (ret a).
Proof. intros Ha s a' s' [= <- <-] Hk. eauto using grows_refl. Qed.

Lemma preservesState_throw {A} (Q : A → Prop) e : preservesState n old Q (throw e).
Proof. intros s a s'. discriminate. Qed.

(** A computation that only reads the state. *)
Lemma preservesState_reads {A} (c : C A) :
  (∀ s a s', c s = OK (a, s') → s' = s) → preservesState n old (λ _, True) c.
Proof. intros Hc s a s' ->%Hc Hk. eauto using grows_refl. Qed.

Lemma preserves_bind cur c k :
  preserves n old cur c → (∀ cur1, preserves n old cur1 (k cur1)) →
  preserves n old cur (bind c k).
Proof.
  intros Hc Hk s cur' s' (cur1 & s1 & H1 & H2)%bind_inv_OK Hkept.
  destruct (Hc _ _ _ H1 Hkept) as (Hkept1 & Hg1 & Hc1 & Hr1).
  destruct (Hk _ _ _ _ H2 Hkept1) as (Hkept2 & Hg2 & Hc2 & Hr2).
  split; [done|]. split; [by eapply grows_trans|]. split; auto.
Qed.

Lemma preserves_state cur c :
  preserves n old cur c → preservesState n old (λ _, True) c.
Proof. intros Hc s cur' s' H Hk. by destruct (Hc _ _ _ H Hk) as (? & ? & _). Qed.

Lemma preservesState_weaken {A} (Q Q' : A → Prop) c :
  preservesState n old Q c → (∀ a, Q a → Q' a) → preservesState n old Q' c.
Proof. intros Hc HQ s a s' H Hk. destruct (Hc _ _ _ H Hk) as (? & ? & ?). eauto. Qed.

(** A step that does not move the cursor [cur], before a computation
    from [cur]. *)
Lemma preserves_after {A} (Q : A → Prop) cur (c : C A) k :
  preservesState n old Q c → (∀ a, Q a → preserves n old cur (k a)) →
  preserves n old cur (bind c k).
Proof.
  intros Hc Hk s cur' s' (a & s1 & H1 & H2)%bind_inv_OK Hkept.
  destruct (Hc _ _ _ H1 Hkept) as (Hkept1 & Hg1 & Ha).
  destruct (Hk _ Ha _ _ _ H2 Hkept1) as (Hkept2 & Hg2 & Hc2 & Hr2).
  split; [done|]. split; [by eapply grows_trans|]. split; [|done].
  intros Hcur. by apply Hc2, Hg1.
Qed.

Lemma preservesState_bind {A B} (Q : A → Prop) (Q' : B → Prop) (c : C A) k :
  preservesState n old Q c → (∀ a, Q a → preservesState n old Q' (k a)) →
  preservesState n old Q' (bind c k).
Proof.
  intros Hc Hk s b s' (a & s1 & H1 & H2)%bind_inv_OK Hkept.
  destruct (Hc _ _ _ H1 Hkept) as (Hkept1 & Hg1 & Ha).
  destruct (Hk _ Ha _ _ _ H2 Hkept1) as (Hkept2 & Hg2 & Hb).
  eauto using grows_trans.
Qed.

Lemma preservesState_foldM {A B} (f : A → B → C A) (xs : list B) :
  (∀ a x, x ∈ xs → preservesState n old (λ _, True) (f a x)) →
  ∀ a, preservesState n old (λ _, True) (foldM f xs a).
Proof.
  induction xs as [|x xs IH]; intros Hf a; simpl.
  - by apply preservesState_ret.
  - eapply preservesState_bind; [apply Hf; left|].
    intros a' _. apply IH. intros a'' y Hy. apply Hf. by right.
Qed.

Lemma preserves_foldM {B} (f : Cursor → B → C Cursor) (xs : list B) :
  (∀ cur x, x ∈ xs → preserves n old cur (f cur x)) →
  ∀ cur, preserves n old cur (foldM f xs cur).
Proof.
  induction xs as [|x xs IH]; intros Hf cur; simpl.
  - apply preserves_ret.
  - apply preserves_bind; [apply Hf; left|].
    intros cur'. apply IH. intros cur'' y Hy. apply Hf. by right.
Qed.

(** **** The primitives *)

Lemma predeclareBlock_preserves : preservesState n old (λ b, ¬ old b) predeclareBlock.
Proof.
  intros s b s' [= <- <-] [Hwf Hlen Hold]. split; [split|split].
  - intros b. fields. intros Hb.
    destruct (decide (b = length (blockObjects s))) as [->|Hne].
    + by rewrite lookup_app_r, Nat.sub_diag.
    + rewrite lookup_insert_ne in Hb by done. apply Hwf in Hb.
      rewrite lookup_app_l; [done|]. by eapply lookup_lt_Some.
  - fields. rewrite length_app. simpl. lia.
  - intros b Hb. destruct (Hold b Hb) as [Hlt Hpre]. split; [done|]. fields.
    rewrite lookup_insert_ne; [done|]. lia.
  - intros b [bl Hb]. exists bl. fields.
    rewrite lookup_app_l; [done|]. by eapply lookup_lt_Some.
  - intros Hb. apply Hold in Hb as [Hlt _]. lia.
Qed.

Lemma labelOfBlock_preserves b : preservesState n old (λ _, True) (labelOfBlock b).
Proof.
  intros s l s' H [Hwf Hlen Hold]. revert H.
  unfold labelOfBlock, bind, get, modify, ret. simpl.
  destruct (predeclaredBlocks s !! b) as [deps|] eqn:Hb; intros [= _ <-].
  - split; [split|split; [by intros b'|done]]; fields; try done.
    + intros b'. fields. destruct (decide (b' = b)) as [->|Hne].
      * intros _. apply Hwf. by rewrite Hb.
      * rewrite lookup_insert_ne by done. apply Hwf.
    + intros b' Hb'. destruct (Hold b' Hb') as [Hlt Hpre]. split; [done|].
      fields. destruct (decide (b' = b)) as [->|Hne].
      * by rewrite lookup_insert_eq.
      * by rewrite lookup_insert_ne.
  - split; [split|split; [by intros b'|done]]; fields; done.
Qed.

Lemma createBlock_preserves cur predeclaredBlock :
  (∀ b, predeclaredBlock = Some b → ¬ old b) →
  preservesState n old (λ cur', unreachable cur' = false)
    (createBlock cur predeclaredBlock).
Proof.
  intros Hnew s cur' s' H [Hwf Hlen Hold]. revert H.
  unfold createBlock, bind, get, modify, ret. simpl.
  destruct predeclaredBlock as [b|]; simpl.
  - destruct (predeclaredBlocks s !! b) as [deps|] eqn:Hb; [|discriminate]. simpl.
    intros [= <- <-].
    assert (blockObjects s !! b = Some None) as Hnone by (apply Hwf; by rewrite Hb).
    split; [split|split; [|done]]; fields.
    + intros b'. fields. destruct (decide (b' = b)) as [->|Hne].
      * rewrite lookup_delete_eq. by intros [? ?].
      * rewrite lookup_delete_ne by done. rewrite list_lookup_insert_ne by done.
        apply Hwf.
    + by rewrite length_insert.
    + intros b' Hb'. destruct (Hold b' Hb') as [Hlt Hpre]. split; [done|].
      fields. rewrite lookup_delete_ne; [done|]. intros ->. by eapply Hnew.
    + intros b' [bl Hb']. exists bl. fields.
      rewrite list_lookup_insert_ne; [done|]. intros ->. congruence.
  - intros [= <- <-]. split; [split|split; [|done]]; fields.
    + intros b Hb. apply Hwf in Hb. fields. rewrite lookup_app_l; [done|].
      by eapply lookup_lt_Some.
    + rewrite length_app. simpl. lia.
    + done.
    + intros b [bl Hb]. exists bl. fields. rewrite lookup_app_l; [done|].
      by eapply lookup_lt_Some.
Qed.

(** The block that [createBlock] returns a cursor in is created. *)
Lemma createBlock_created cur predeclaredBlock s cur' s' :
  createBlock cur predeclaredBlock s = OK (cur', s') →
  wellFormed s → created s' (curBlock cur').
Proof.
  intros H Hwf. revert H. unfold createBlock, bind, get, modify, ret. simpl.
  destruct predeclaredBlock as [b|]; simpl.
  - destruct (predeclaredBlocks s !! b) as [deps|] eqn:Hb; [|discriminate]. simpl.
    intros [= <- <-]. eexists. fields. apply list_lookup_insert_eq.
    eapply lookup_lt_Some, Hwf. by rewrite Hb.
  - intros [= <- <-]. eexists. fields. by rewrite lookup_app_r, Nat.sub_diag.
Qed.

(** The cursor of a block that has just been created is moved to. *)
Lemma createBlock_moveCursor_preserves cur cur0 predeclaredBlock
    (f : Cursor → Cursor) :
  (∀ b, predeclaredBlock = Some b → ¬ old b) →
  (∀ cur', curBlock (f cur') = curBlock cur') →
  (∀ cur', unreachable (f cur') = unreachable cur) →
  preserves n old cur
    (let* cur' := createBlock cur0 predeclaredBlock in ret (f cur')).
Proof.
  intros Hnew Hblock Hreach s cur' s' (c1 & s1 & H1 & [= <- <-])%bind_inv_OK Hkept.
  destruct (createBlock_preserves _ _ Hnew _ _ _ H1 Hkept) as (Hkept' & Hg & _).
  split; [done|]. split; [done|]. rewrite Hblock, Hreach. split; [|done].
  intros _. eapply createBlock_created; [done|]. by destruct Hkept.
Qed.

Lemma pushed_kept b operation s s' :
  pushed b operation s s' → kept n old s → kept n old s' ∧ grows s s' ∧ created s' b.
Proof.
  intros (bl & Hbl & ->) [Hwf Hlen Hold].
  assert (b < length (blockObjects s))%nat by by eapply lookup_lt_Some.
  split; [split|split]; fields.
  - intros b' Hb'. apply Hwf in Hb'. fields. rewrite list_lookup_insert_ne; [done|].
    intros ->. congruence.
  - by rewrite length_insert.
  - done.
  - intros b' [bl' Hb']. destruct (decide (b' = b)) as [->|Hne].
    + eexists. fields. by apply list_lookup_insert_eq.
    + exists bl'. fields. by rewrite list_lookup_insert_ne.
  - eexists. fields. by apply list_lookup_insert_eq.
Qed.

Lemma addOp_preserves cur opc ops : preserves n old cur (addOp T cur opc ops).
Proof.
  intros s cur' s' H%addOp_emitted Hkept. unfold emitted in H.
  destruct (unreachable cur) eqn:Hr.
  - destruct H as [-> ->]. eauto using grows_refl.
  - destruct H as [Hpush ->].
    destruct (pushed_kept _ _ _ _ Hpush Hkept) as (? & ? & ?). by fields.
Qed.

Lemma setStaticInfo_preserves cur k :
  preservesState n old (λ _, True) (setStaticInfo cur k).
Proof.
  intros s [] s' H Hkept. pose proof Hkept as [Hwf Hlen Hold].
  revert H. unfold setStaticInfo.
  destruct (unreachable cur); [intros [= <-]; eauto using grows_refl|].
  unfold modify. intros [= <-].
  destruct (blockObjects s !! curBlock cur) as [[bl|]|] eqn:Hbl;
    [|by eauto using grows_refl..].
  destruct (last (operations bl)); [|by eauto using grows_refl].
  assert (curBlock cur < length (blockObjects s))%nat by by eapply lookup_lt_Some.
  split; [split|split; [|done]]; fields.
  - intros b' Hb'. apply Hwf in Hb'. fields. rewrite list_lookup_insert_ne; [done|].
    congruence.
  - by rewrite length_insert.
  - done.
  - intros b' [bl' Hb']. destruct (decide (curBlock cur = b')) as [Heq|Hne].
    + eexists. fields. rewrite <- Heq. by apply list_lookup_insert_eq.
    + exists bl'. fields. by rewrite list_lookup_insert_ne.
Qed.

End Preserving.

Lemma elem_of_expressionSize (e : Expression) (es : list Expression) :
  e ∈ es → (expressionSize e ≤ list_sum (map expressionSize es))%nat.
Proof.
  induction es as [|e' es IH]; intros He; [by inversion He|].
  simpl. inversion He; subst; [lia|]. specialize (IH ltac:(done)). lia.
Qed.

Lemma elem_of_elementSize (e : Expression) (es : list (option Expression)) :
  Some e ∈ es →
  (expressionSize e ≤ list_sum (map (from_option expressionSize 0%nat) es))%nat.
Proof.
  induction es as [|e' es IH]; intros He; [by inversion He|].
  simpl. inversion He; subst; [simpl; lia|]. specialize (IH ltac:(done)). lia.
Qed.

Lemma elem_of_memberSize (m : ObjectMember) (ms : list ObjectMember) :
  m ∈ ms → (memberSize m ≤ list_sum (map memberSize ms))%nat.
Proof.
  induction ms as [|m' ms IH]; intros Hm; [by inversion Hm|].
  simpl. inversion Hm; subst; [lia|]. specialize (IH ltac:(done)). lia.
Qed.

Lemma elem_of_presentElementsFrom i e j (es : list (option Expression)) :
  (i, e) ∈ presentElementsFrom j es → Some e ∈ es.
Proof.
  revert j. induction es as [|[e'|] es IH]; intros j; simpl.
  - by inversion 1.
  - inversion 1; subst; [left|right; eauto].
  - right. eauto.
Qed.

Section PreservingExpressions.

Variable T : Tables.
Variable SM : ScopeModel.
Hypothesis HSM : WellBehaved SM.
Variable n : nat.
Variable old : nat → Prop.

Lemma preserves_ext cur (c c' : C Cursor) :
  (∀ s, c s = c' s) → preserves n old cur c' → preserves n old cur c.
Proof. intros Heq Hc s cur' s' H. rewrite Heq in H. by apply Hc. Qed.

Lemma createBlock_Some_preserves cur b :
  ¬ old b →
  preservesState n old (λ cur', unreachable cur' = false) (createBlock cur (Some b)).
Proof. intros Hb. apply createBlock_preserves. by intros ? [= <-]. Qed.

Lemma compileDup_preserves cur : preserves n old cur (compileDup T cur).
Proof. apply addOp_preserves. Qed.

Lemma valueAtTopOfStack_preserves cur0 cur :
  preserves n old cur (valueAtTopOfStack T cur0 cur).
Proof. apply addOp_preserves. Qed.

Lemma compileIncr_preserves cur : preserves n old cur (compileIncr T cur).
Proof. apply preserves_bind; [apply addOp_preserves|intros ?; apply addOp_preserves]. Qed.

Lemma compileDecr_preserves cur : preserves n old cur (compileDecr T cur).
Proof. apply preserves_bind; [apply addOp_preserves|intros ?; apply addOp_preserves]. Qed.

Lemma getBinOpCode_preserves operator :
  preservesState n old (λ _, True) (getBinOpCode operator).
Proof.
  apply preservesState_reads. intros s a s'. unfold getBinOpCode.
  repeat case_match; (discriminate || by intros [= _ <-]).
Qed.

Lemma getUnOpCode_preserves operator :
  preservesState n old (λ _, True) (getUnOpCode operator).
Proof.
  apply preservesState_reads. intros s a s'. unfold getUnOpCode.
  repeat case_match; (discriminate || by intros [= _ <-]).
Qed.

Lemma getBinOpFromAssignmentExpression_preserves operator :
  preservesState n old (λ _, True) (getBinOpFromAssignmentExpression operator).
Proof.
  apply preservesState_reads. intros s a s'. unfold getBinOpFromAssignmentExpression.
  repeat case_match; (discriminate || by intros [= _ <-]).
Qed.

Lemma resolveLValue_preserves lVal cur :
  preservesState n old (λ _, True) (resolveLValue SM lVal cur).
Proof using HSM.
  unfold resolveLValue. destruct lVal; try apply preservesState_throw.
  - eapply preservesState_bind; [apply (resolveIdentifier_preserves SM HSM)|].
    intros accessor _. by apply preservesState_ret.
  - destruct computed; [by apply preservesState_ret|].
    destruct lVal2; try apply preservesState_throw. by apply preservesState_ret.
Qed.

(** An expression is smaller than the one it is a part of. *)
Ltac smaller :=
  repeat match goal with
    | H : _ ∈ _ |- _ =>
        first [ apply elem_of_expressionSize in H
              | apply elem_of_elementSize in H
              | apply elem_of_memberSize in H ]
    end;
  cbn [expressionSize memberSize] in *; lia.

(** One step of a proof that a computation from [cur] preserves, by the
    form of the computation; [IH] is the same for the expressions that are
    smaller than the one at hand. *)
Ltac preserving_step IH :=
  lazymatch goal with
  | |- preserves _ _ _ (ret _) => apply preserves_ret
  | |- preserves _ _ _ (throw _) => apply preserves_throw
  | |- preserves _ _ _ (compileError _) => apply preserves_throw
  | |- preserves _ _ _ (featureNotSupported _) => apply preserves_throw
  | |- preserves _ _ _ (addOp _ _ _ _) => apply addOp_preserves
  | |- preserves _ _ _ (compileDup _ _) => apply compileDup_preserves
  | |- preserves _ _ _ (compileIncr _ _) => apply compileIncr_preserves
  | |- preserves _ _ _ (compileDecr _ _) => apply compileDecr_preserves
  | |- preserves _ _ _ (valueAtTopOfStack _ _ _) => apply valueAtTopOfStack_preserves
  | |- preserves _ _ _ (accessorLoad _ _ _) => apply (accessorLoad_preserves SM HSM)
  | |- preserves _ _ _ (accessorStore _ _ _ _) =>
      apply (accessorStore_preserves SM HSM); intros ?
  | |- preserves _ _ _ (compileExpression _ _ _ _) => apply IH; smaller
  | |- preserves _ _ _ (foldM _ _ _) => apply preserves_foldM; intros ? ? ?
  | |- preserves _ _ ?cur (bind (createBlock _ _) (λ x, ret (moveCursor ?cur x))) =>
      apply (createBlock_moveCursor_preserves _ _ _ _ _ (moveCursor cur));
      [by intros ? [= <-] | done | done]
  | |- preserves _ _ ?cur (bind ?c _) =>
      lazymatch c with
      | predeclareBlock =>
          eapply preserves_after; [apply predeclareBlock_preserves|intros ? ?]
      | labelOfBlock _ =>
          eapply preserves_after; [apply labelOfBlock_preserves|intros ? _]
      | createBlock _ _ =>
          eapply preserves_after;
          [apply createBlock_Some_preserves; assumption|intros ? _]
      | setStaticInfo _ _ =>
          eapply preserves_after; [apply setStaticInfo_preserves|intros ? _]
      | getBinOpCode _ =>
          eapply preserves_after; [apply getBinOpCode_preserves|intros ? _]
      | getUnOpCode _ =>
          eapply preserves_after; [apply getUnOpCode_preserves|intros ? _]
      | getBinOpFromAssignmentExpression _ =>
          eapply preserves_after;
          [apply getBinOpFromAssignmentExpression_preserves|intros ? _]
      | resolveIdentifier _ _ _ =>
          eapply preserves_after;
          [apply (resolveIdentifier_preserves SM HSM)|intros ? _]
      | resolveLValue _ _ _ =>
          eapply preserves_after; [apply resolveLValue_preserves|intros ? _]
      | compileFunction _ _ _ =>
          eapply preserves_after;
          [apply (compileFunction_preserves SM HSM)|intros ? _]
      | context [cur] => apply preserves_bind; [|intros ?]
      | _ => eapply preserves_after; [eapply preserves_state|intros ? _]
      end
  | |- preserves _ _ _ (if ?b then _ else _) => destruct b eqn:?
  | |- preserves _ _ _ (match ?x with _ => _ end) => destruct x eqn:?
  end.

Lemma compileTemplateParts_preserves compile expressions :
  (∀ e, e ∈ expressions → ∀ cur, preserves n old cur (compile e cur)) →
  ∀ strings cur,
    preserves n old cur (compileTemplateParts T compile expressions strings cur).
Proof.
  induction expressions as [|e expressions IH]; intros He strings cur; simpl.
  - apply preserves_ret.
  - apply preserves_bind; [apply He; left|intros cur1].
    apply preserves_bind; [apply addOp_preserves|intros cur2].
    apply preserves_bind; [|intros cur3; apply IH; intros e' He'; apply He; by right].
    destruct strings as [|s strings]; [apply preserves_ret|].
    destruct (negb _); [|apply preserves_ret].
    apply preserves_bind; [apply addOp_preserves|intros ?; apply addOp_preserves].
Qed.

(** Compiling an expression creates no block that was predeclared before,
    and returns a cursor in a created block when it starts in one, a
    reachable one when it starts from a reachable one. *)
Lemma compileExpression_preserves expression :
  ∀ cur, preserves n old cur (compileExpression T SM expression cur).
Proof using HSM.
  remember (expressionSize expression) as k eqn:Hk. revert expression Hk.
  induction k as [k IH] using lt_wf_ind. intros expression -> cur.
  assert (∀ e, (expressionSize e < expressionSize expression)%nat →
               ∀ cur, preserves n old cur (compileExpression T SM e cur)) as IH'
    by (intros e He; by eapply IH).
  clear IH.
  destruct expression; cbn [compileExpression];
    (destruct (unreachable cur) eqn:Hr; [apply preserves_ret|]).
  - apply addOp_preserves.
  - apply addOp_preserves.
  - apply addOp_preserves.
  - apply addOp_preserves.
  - unfold compileIdentifier. repeat preserving_step IH'.
  - unfold compileBinaryExpression. repeat preserving_step IH'.
  - unfold compileUpdateExpression, storeLValue, loadLValue.
    destruct expression; try apply preserves_throw.
    destruct (operator =? "++")%string; [|destruct (operator =? "--")%string];
      rewrite ?bind_ret_l, ?bind_throw; repeat preserving_step IH'.
  - unfold compileUnaryExpression. repeat preserving_step IH'.
  - unfold compileAssignmentExpression, storeLValue, loadLValue, loadProperty.
    repeat preserving_step IH'.
  - unfold compileLogicalExpression. repeat preserving_step IH'.
  - unfold compileCallExpression.
    assert (∀ cur,
      preserves n old cur
        (foldM (λ cur arg,
                  match arg with
                  | SpreadElement _ => compileError "Unsupported syntax"
                  | _ => compileExpression T SM arg cur
                  end) arguments cur)) as Hargs.
    { intros cur0. repeat preserving_step IH'. }
    destruct expression; try apply preserves_throw.
    all: apply preserves_bind; [|intros cur1].
    all: try (apply preserves_bind; [repeat preserving_step IH'|intros cur2]).
    all: try (apply preserves_bind; [apply Hargs|intros cur3]).
    all: repeat preserving_step IH'.
  - unfold compileMemberExpression. repeat preserving_step IH'.
  - eapply preserves_ext; [apply compileArrayExpression_refines|].
    unfold compileArrayExpression_spec, storeLength.
    apply preserves_bind; [apply addOp_preserves|intros cur0].
    eapply preserves_after; [apply setStaticInfo_preserves|intros _ _].
    apply preserves_bind; [|intros cur1; repeat preserving_step IH'].
    apply preserves_foldM. intros cur1 [i e] He%elem_of_presentElementsFrom.
    unfold storeElement. cbn [fst snd]. repeat preserving_step IH'.
  - unfold compileObjectExpression.
    apply preserves_bind; [apply addOp_preserves|intros cur0].
    apply preserves_foldM. intros cur1 property Hproperty.
    repeat preserving_step IH'.
  - unfold compileConditionalExpression. repeat preserving_step IH'.
  - apply addOp_preserves.
  - unfold compileArrowFunctionExpression. repeat preserving_step IH'.
  - unfold compileTemplateLiteral.
    destruct (mapM _ _) as [strings|]; [|apply preserves_throw].
    destruct (negb _); [apply preserves_throw|].
    destruct strings as [|firstString strings]; [apply preserves_throw|].
    apply preserves_bind; [apply addOp_preserves|intros cur0].
    apply compileTemplateParts_preserves. intros e He cur1. apply IH'. smaller.
  - apply preserves_throw.
  - apply preserves_throw.
  - apply preserves_throw.
Qed.

End PreservingExpressions.
(** *** Switch statements *)

Section Switch.

Variable T : Tables.
Variable SM : ScopeModel.

(** The switch without cases, from the cursor [cur1] after the
    discriminant: the jump goes to the break block, which holds [Pop 1]. *)
Lemma compileSwitchCases_empty compileS b cur1 s1 bl1 deps :
  SwitchTables T →
  unreachable cur1 = false →
  blockObjects s1 !! curBlock cur1 = Some (Some bl1) →
  predeclaredBlocks s1 !! b = Some deps →
  blockObjects s1 !! b = Some None →
  ∃ s',
    compileSwitchCases T SM compileS [] [] b [] cur1 s1 =
      OK ({| curBlock := b; stackDepth := stackDepth cur1 - 1;
             breakScope := breakScope cur1; scope := scope cur1;
             unreachable := false |}, s') ∧
    blockObjects s' !! curBlock cur1 =
      Some (Some {| id := id bl1;
                    expectedStackDepthAtEntry := expectedStackDepthAtEntry bl1;
                    operations := operations bl1 ++
                      [{| opcode := Jump; operands := [LabelOperand (length (labels s1))];
                          stackDepthBefore := stackDepth cur1;
                          stackDepthAfter := stackDepth cur1;
                          staticInfo := None |}] |}) ∧
    labels s' !! length (labels s1) = Some (Some (block (nextBlockID s1))) ∧
    blockObjects s' !! b =
      Some (Some {| id := block (nextBlockID s1);
                    expectedStackDepthAtEntry := stackDepth cur1;
                    operations :=
                      [{| opcode := Pop; operands := [CountOperand 1];
                          stackDepthBefore := stackDepth cur1;
                          stackDepthAfter := stackDepth cur1 - 1;
                          staticInfo := None |}] |}).
Proof.
  intros HT Hr Hbl1 Hb Hnone.
  assert (b ≠ curBlock cur1) as Hne by (intros ->; congruence).
  unfold compileSwitchCases. simpl default.
  erewrite bind_OK; [|by apply labelOfBlock_predeclared].
  erewrite bind_OK; cycle 1.
  { apply addOp_Jump_forward; [done|done|exact Hbl1|].
    cbn. rewrite lookup_app_r, Nat.sub_diag by done.
    unfold blockId. by rewrite Hnone. }
  simpl foldM. rewrite !bind_ret_l.
  unfold createBlock, bind at 1 2 3 4 5, get, modify, ret. simpl.
  rewrite lookup_insert_eq. simpl.
  erewrite bind_OK; cycle 1.
  { apply addOp_Pop_1; [done|done|]. simpl.
    rewrite list_lookup_insert_eq; [done|].
    rewrite length_insert. by eapply lookup_lt_Some. }
  unfold ret. fields. rewrite Hr. eexists. split; [reflexivity|]. fields.
  assert (b < length (blockObjects s1))%nat by by eapply lookup_lt_Some.
  assert (curBlock cur1 < length (blockObjects s1))%nat by by eapply lookup_lt_Some.
  split; [|split].
  - rewrite !list_lookup_insert_ne by done.
    rewrite list_lookup_insert_eq; done.
  - apply updateLabels_elem; [set_solver|]. rewrite length_app. simpl. lia.
  - rewrite list_lookup_insert_eq; [done|]. by rewrite !length_insert.
Qed.

(** A switch statement without cases is compiled without error when its
    discriminant is, from a reachable cursor in a created block of a
    well-formed state. The discriminant is compiled, the operation after its
    code is a [Jump] whose target is the break block, the break block holds
    [Pop 1] and nothing else, it is entered at the stack depth that the
    discriminant leaves, and the cursor after the statement is in the break
    block, reachable, one value below that depth. *)
Lemma compileStatement_empty_switch disc cur s cur1 s1 :
  SwitchTables T →
  WellBehaved SM →
  wellFormed s →
  created s (curBlock cur) →
  unreachable cur = false →
  compileExpression T SM disc cur (predeclared s) = OK (cur1, s1) →
  ∃ cur' s' bl1 jump,
    compileStatement T SM (SwitchStatement disc []) cur s = OK (cur', s') ∧
    blockAt s1 cur1 = Some bl1 ∧
    blockAt s' cur1 =
      Some {| id := id bl1;
              expectedStackDepthAtEntry := expectedStackDepthAtEntry bl1;
              operations := operations bl1 ++ [jump] |} ∧
    opcode jump = Jump ∧
    targetsOf s' jump = [block (nextBlockID s1)] ∧
    blockAt s' cur' =
      Some {| id := block (nextBlockID s1);
              expectedStackDepthAtEntry := stackDepth cur1;
              operations := [popOne (stackDepth cur1)] |} ∧
    stackDepth cur' = stackDepth cur1 - 1 ∧
    unreachable cur' = false.
Proof.
  intros HT HSM Hwf Hcur Hr Hdisc.
  pose (b := length (blockObjects s)).
  assert (kept (S b) (λ b', b' = b) (predeclared s)) as Hkept.
  { destruct (predeclareBlock_preserves 0 (λ _, False) s _ _ (predeclareBlock_OK s))
      as ([Hwf' _ _] & _); [by split; [|lia|]|].
    split; [done| |].
    - fields. rewrite length_app. simpl. unfold b. lia.
    - intros ? ->. split; [lia|]. fields. unfold b. by rewrite lookup_insert_eq. }
  destruct (compileExpression_preserves T SM HSM _ _ disc cur _ _ _ Hdisc Hkept)
    as ([Hwf1 _ Hold1] & _ & Hcur1 & Hr1).
  destruct Hcur1 as [bl1 Hbl1].
  { destruct Hcur as [bl Hbl]. exists bl. fields.
    rewrite lookup_app_l; [done|]. by eapply lookup_lt_Some. }
  specialize (Hr1 Hr).
  destruct (Hold1 b eq_refl) as [_ [deps Hb]].
  assert (blockObjects s1 !! b = Some None) as Hnone by (apply Hwf1; by rewrite Hb).
  destruct (compileSwitchCases_empty (compileStatement T SM) _ _ _ _ _
              HT Hr1 Hbl1 Hb Hnone) as (s' & Hcases & Hjump & Hl & Hpop).
  exists {| curBlock := b; stackDepth := stackDepth cur1 - 1;
            breakScope := breakScope cur1; scope := scope cur1;
            unreachable := false |}, s', bl1,
         {| opcode := Jump; operands := [LabelOperand (length (labels s1))];
            stackDepthBefore := stackDepth cur1; stackDepthAfter := stackDepth cur1;
            staticInfo := None |}.
  split; [|split; [|split; [|split; [|split; [|split; [|split]]]]]].
  - cbn [compileStatement]. rewrite Hr.
    cbn [compileNopSpecialForm]. rewrite bind_ret_l.
    unfold compileSwitchStatement. cbn [predeclareBlocks]. rewrite !bind_ret_l.
    erewrite bind_OK; [|apply predeclareBlock_OK].
    erewrite bind_OK; [|exact Hdisc]. exact Hcases.
  - unfold blockAt. by rewrite Hbl1.
  - unfold blockAt. by rewrite Hjump.
  - done.
  - unfold targetsOf. simpl. by rewrite Hl.
  - unfold blockAt. cbn [curBlock]. by rewrite Hpop.
  - done.
  - done.
Qed.

(** The end of a switch statement: the cursor is in the break block,
    which holds [Pop 1] and nothing else, one value below the stack depth
    that the discriminant left. *)
Lemma compileSwitchCases_break compileS testBlocks consequentBlocks breakBlock cases
    cur1 s1 cur' s' :
  SwitchTables T →
  compileSwitchCases T SM compileS testBlocks consequentBlocks breakBlock cases
    cur1 s1 = OK (cur', s') →
  ∃ n,
    curBlock cur' = breakBlock ∧
    blockAt s' cur' =
      Some {| id := block n;
              expectedStackDepthAtEntry := stackDepth cur1;
              operations := [popOne (stackDepth cur1)] |} ∧
    stackDepth cur' = stackDepth cur1 - 1 ∧
    breakScope cur' = breakScope cur1 ∧
    unreachable cur' = unreachable cur1.
Proof.
  intros HT. unfold compileSwitchCases.
  intros (o & sl & [l ->]%labelOfBlock_label & H)%bind_inv_OK.
  apply bind_inv_OK in H as (curJ & sJ & HJ%addOp_emitted & H).
  apply bind_inv_OK in H as (v & sv & Htests & H).
  apply bind_inv_OK in H as ([] & sd & _ & H).
  apply bind_inv_OK in H as (k & sc & _ & H).
  apply bind_inv_OK in H as (bc & sb & Hcreate & H).
  apply bind_inv_OK in H as (bc' & sp & Hpop & H).
  assert (curJ = pushBreakScope cur1 breakBlock) as ->.
  { unfold emitted in HJ. fields. fields in HJ.
    destruct (unreachable cur1); [by destruct HJ|].
    destruct HJ as [_ ->]. unfold operationAt. fields.
    rewrite (Jump_stackChange T HT), Z.add_0_r. done. }
  destruct (createBlock_emitted _ _ _ _ _ _ _ _ _ _ Hcreate Hpop)
    as (Hb & Hbl & Hd & Hbs).
  revert H. unfold popBreakScope, moveCursor. fields. rewrite Hbs. fields.
  intros [= <- <-]. exists (nextBlockID sc). fields.
  pose proof (createBlock_cursor _ _ _ _ _ Hcreate) as (Hd0 & _ & _).
  pose proof (Pop_stackChange T HT) as Hpop1.
  unfold blockAt in *. fields. rewrite Hbl, Hd. unfold operationAt, countOperand.
  rewrite Hd0, Hpop1. unfold popOne. fields. done.
Qed.

(** A switch statement that is compiled has its discriminant compiled
    before its cases, which are compiled from the cursor that the
    discriminant leaves. The break block, in which the cursor is after the
    statement, holds [Pop 1] and nothing else, so that the stack depth after
    the statement is one less than after the discriminant. *)
Lemma compileStatement_switch_break disc cases cur s cur' s' :
  SwitchTables T →
  unreachable cur = false →
  compileStatement T SM (SwitchStatement disc cases) cur s = OK (cur', s') →
  ∃ testBlocks consequentBlocks breakBlock s0 cur1 s1,
    compileExpression T SM disc cur s0 = OK (cur1, s1) ∧
    compileSwitchCases T SM (compileStatement T SM) testBlocks consequentBlocks
      breakBlock cases cur1 s1 = OK (cur', s') ∧
    (∃ n,
       blockAt s' cur' =
         Some {| id := block n;
                 expectedStackDepthAtEntry := stackDepth cur1;
                 operations := [popOne (stackDepth cur1)] |}) ∧
    stackDepth cur' = stackDepth cur1 - 1.
Proof.
  intros HT Hr. cbn [compileStatement]. rewrite Hr.
  cbn [compileNopSpecialForm]. rewrite bind_ret_l. unfold compileSwitchStatement.
  intros (testBlocks & st & _ & H)%bind_inv_OK.
  apply bind_inv_OK in H as (consequentBlocks & sc & _ & H).
  apply bind_inv_OK in H as (breakBlock & s0 & _ & H).
  apply bind_inv_OK in H as (cur1 & s1 & Hdisc & Hcases).
  exists testBlocks, consequentBlocks, breakBlock, s0, cur1, s1.
  destruct (compileSwitchCases_break _ _ _ _ _ _ _ _ _ HT Hcases)
    as (n & _ & Hbl & Hd & _).
  split; [done|]. split; [done|]. split; [eauto|]. done.
Qed.

(** The code of an arrow function leaves the cursor as it is: the function
    is compiled, and nothing is pushed for its value. *)
Lemma compileExpression_arrow node cur s cur1 s1 :
  compileExpression T SM (ArrowFunctionExpression node) cur s = OK (cur1, s1) →
  cur1 = cur.
Proof.
  cbn [compileExpression]. destruct (unreachable cur); [by intros [= <- _]|].
  unfold compileArrowFunctionExpression.
  by intros ([] & s2 & _ & [= <- _])%bind_inv_OK.
Qed.

(** A switch statement on an arrow function, whatever its cases are, leaves
    the stack one value below the depth at which it started when it is
    compiled. *)
Lemma compileStatement_switch_arrow node cases cur s cur' s' :
  SwitchTables T →
  unreachable cur = false →
  compileStatement T SM (SwitchStatement (ArrowFunctionExpression node) cases) cur s =
    OK (cur', s') →
  stackDepth cur' = stackDepth cur - 1.
Proof.
  intros HT Hr H.
  destruct (compileStatement_switch_break _ _ _ _ _ _ HT Hr H)
    as (? & ? & ? & s0 & cur1 & s1 & Hdisc & _ & _ & Hd).
  by apply compileExpression_arrow in Hdisc as ->.
Qed.

End Switch.

(** The table and the scope model of the examples are as the theorems on
    switch statements take them. *)
Lemma sampleTables_switch : SwitchTables sampleTables.
Proof. by constructor; try (cbn; lia). Qed.

Lemma sampleScopeModel_wellBehaved : WellBehaved sampleScopeModel.
Proof.
  split; intros n old.
  - intros name cur. by apply preservesState_ret.
  - intros accessor cur. apply addOp_preserves.
  - intros accessor value cur Hvalue. apply preserves_bind; [apply Hvalue|].
    intros cur1. apply addOp_preserves.
  - intros node cur. by apply preservesState_ret.
Qed.

Lemma newFunction_wellFormed : wellFormed newFunction.
Proof. intros b [deps Hb]. cbn in Hb. by rewrite lookup_empty in Hb. Qed.

Lemma newFunction_created : created newFunction (curBlock bodyCur).
Proof. by exists entryBlock. Qed.

(** C9: the switch statement without cases [switch (() => 1) {}] at the
    start of a function is compiled without error, and it does not leave the
    stack depth unchanged. The code of the discriminant, an arrow function,
    pushes nothing: the entry block holds the [Jump] to the break block and
    nothing else. The break block is entered at depth 0 and its [Pop 1]
    takes the depth from 0 to -1, the depth of the cursor after the
    statement. *)
Theorem compileStatement_empty_switch_loses_depth :
  ∃ cur' s',
    sampleArrowSwitch [] = OK (cur', s') ∧
    stackDepth bodyCur = 0 ∧
    operationsAt s' bodyCur =
      [{| opcode := Jump; operands := [LabelOperand 0];
          stackDepthBefore := 0; stackDepthAfter := 0; staticInfo := None |}] ∧
    targetsOf s' {| opcode := Jump; operands := [LabelOperand 0];
                    stackDepthBefore := 0; stackDepthAfter := 0;
                    staticInfo := None |} = [block 1] ∧
    blockOf s' (block 1) =
      Some {| id := block 1; expectedStackDepthAtEntry := 0;
              operations := [popOne 0] |} ∧
    blockAt s' cur' = blockOf s' (block 1) ∧
    stackDepthAfter (popOne 0) = -1 ∧
    unreachable cur' = false ∧
    stackDepth cur' = -1.
Proof.
  destruct (sampleArrowSwitch []) as [[cur' s']|e] eqn:H; [|by vm_compute in H].
  exists cur', s'. split; [done|].
  vm_compute in H. injection H as <- <-. by vm_compute.
Qed.

(** C7: a switch statement with cases on an arrow function does not keep a
    discriminant on the stack and does not leave the stack depth unchanged.
    The code of the discriminant pushes nothing. [switch (() => 1) { default: }]
    at the start of a function is compiled without error: the entry block
    holds the [Jump] to the test block and nothing else, the break block is
    entered at depth 0, and its [Pop 1] takes the depth from 0 to -1, the
    depth of the cursor after the statement. For
    [switch (() => 1) { case 1: }] the test block is to load the value under
    the top of the empty stack, the index -1, and the compiler fails with
    the internal error that this index is out of range. *)
Theorem compileStatement_switch_loses_depth :
  (∃ cur' s',
     sampleArrowSwitch [(None, [])] = OK (cur', s') ∧
     stackDepth bodyCur = 0 ∧
     operationsAt s' bodyCur =
       [{| opcode := Jump; operands := [LabelOperand 0];
           stackDepthBefore := 0; stackDepthAfter := 0; staticInfo := None |}] ∧
     blockOf s' (block 3) =
       Some {| id := block 3; expectedStackDepthAtEntry := 0;
               operations := [popOne 0] |} ∧
     blockAt s' cur' = blockOf s' (block 3) ∧
     stackDepthAfter (popOne 0) = -1 ∧
     unreachable cur' = false ∧
     stackDepth cur' = -1) ∧
  sampleArrowSwitch [(Some (NumericLiteral 1), [])] =
    Err (InternalCompileError (IndexOutOfRange (-1))).
Proof.
  split; [|by vm_compute].
  destruct (sampleArrowSwitch [(None, [])]) as [[cur' s']|e] eqn:H;
    [|by vm_compute in H].
  exists cur', s'. split; [done|].
  vm_compute in H. injection H as <- <-. by vm_compute.
Qed.
(** *** Stack depths at the edges *)

(** C1: two functions that are compiled without error and whose compiled
    code has an edge at which the stack depths do not agree. In
    [function () { if (true) { let x = 1; return; } else { } return; }] the
    block after the [if] is created from the cursor of the consequent, which
    the [return] has left unreachable with [x] still counted, so that it
    expects the stack at depth 1, and the [Jump] that ends the block of the
    alternate leaves the stack at depth 0. In
    [function () { while (true) { let x = 1; break; } }] the [Jump] of the
    [break], in the body block of the loop, leaves the stack at depth 1,
    with [x] on it, and its target, the exit block of the loop, expects the
    stack at depth 0. In both the target was only predeclared when the jump
    was emitted, so that [addOp] has not compared the depths. *)
Theorem compileFunctionBody_depths_disagree :
  (∃ cur s,
     compileFunctionBody sampleTables sampleScopeModel sampleReturnFromBlock
       newFunction = OK (cur, s) ∧
     operations <$> blockOf s (block 2) =
       Some [{| opcode := Jump; operands := [LabelOperand 3];
                stackDepthBefore := 0; stackDepthAfter := 0; staticInfo := None |}] ∧
     targetsOf s {| opcode := Jump; operands := [LabelOperand 3];
                    stackDepthBefore := 0; stackDepthAfter := 0;
                    staticInfo := None |} = [block 3] ∧
     expectedStackDepthAtEntry <$> blockOf s (block 3) = Some 1) ∧
  (∃ cur s,
     compileFunctionBody sampleTables sampleScopeModel [sampleBreakFromBlock]
       newFunction = OK (cur, s) ∧
     disagreeingEdges s =
       [(block 2,
         {| opcode := Jump; operands := [LabelOperand 3];
            stackDepthBefore := 1; stackDepthAfter := 1; staticInfo := None |},
         block 3)] ∧
     expectedStackDepthAtEntry <$> blockOf s (block 3) = Some 0).
Proof.
  split.
  - eexists _, _. split; [vm_compute; reflexivity|].
    split; [|split]; vm_compute; reflexivity.
  - eexists _, _. split; [vm_compute; reflexivity|].
    split; vm_compute; reflexivity.
Qed.

(** *** The whole of [addOp] *)

Section Accepting.

Variable T : Tables.

Lemma checkOperands_accepted opc expectedTypes i ops s u s' :
  checkOperands T opc expectedTypes i ops s = OK (u, s') ↔
  s' = s ∧
  ∀ j expectedType,
    expectedTypes !! j = Some expectedType →
    operandAccepted T expectedType (ops !! (i + j)%nat).
Proof.
  revert i s. induction expectedTypes as [|ty tys IH]; intros i s; simpl.
  - destruct u. split; [by intros [= <-]|by intros [-> _]].
  - split.
    + intros (u1 & s1 & H1 & H2)%bind_inv_OK. apply IH in H2 as [-> H2].
      assert (s1 = s ∧ operandAccepted T ty (ops !! i)) as [-> Hi].
      { unfold operandAccepted. destruct (ops !! i) as [operand|].
        - destruct (String.eqb_spec (operandType operand) ty) as [Hty|]; [|discriminate].
          simpl in H1.
          destruct operand as [?|?|idx|cnt|?|?]; try (by injection H1 as _ <-).
          + destruct (Z.ltb_spec idx 0); [discriminate|].
            destruct (Z.ltb_spec (MAX_INDEX T) idx); [discriminate|].
            injection H1 as _ <-. repeat split; [done|lia..].
          + destruct (Z.ltb_spec cnt 0); [discriminate|].
            destruct (Z.ltb_spec (MAX_COUNT T) cnt); [discriminate|].
            injection H1 as _ <-. repeat split; [done|lia..].
        - destruct (endsWithQuestionMark ty); [by injection H1 as _ <-|discriminate]. }
      split; [done|]. intros [|j] ty' Hj.
      * injection Hj as <-. by rewrite Nat.add_0_r.
      * rewrite Nat.add_succ_r. by apply H2.
    + intros [-> H]. unfold bind.
      pose proof (H 0%nat ty eq_refl) as Hi. rewrite Nat.add_0_r in Hi.
      assert ((match ops !! i with
               | Some operand =>
                   if negb (String.eqb (operandType operand) ty) then
                     throw (InternalCompileError
                              (OperandTypeMismatch ty (operandType operand) opc))
                   else
                     match operand with
                     | IndexOperand index =>
                         if (index <? 0) || (MAX_INDEX T <? index)
                         then throw (InternalCompileError (IndexOutOfRange index))
                         else ret tt
                     | CountOperand count =>
                         if (count <? 0) || (MAX_COUNT T <? count)
                         then throw (InternalCompileError (CountOutOfRange count))
                         else ret tt
                     | _ => ret tt
                     end
               | None => if endsWithQuestionMark ty then ret tt else throw TypeError
               end) s = OK (tt, s)) as ->.
      { unfold operandAccepted in Hi. destruct (ops !! i) as [operand|].
        - destruct Hi as [<- Hr]. rewrite String.eqb_refl. simpl.
          destruct operand as [?|?|idx|cnt|?|?]; try done.
          + destruct (Z.ltb_spec idx 0); [lia|].
            destruct (Z.ltb_spec (MAX_INDEX T) idx); [lia|]. done.
          + destruct (Z.ltb_spec cnt 0); [lia|].
            destruct (Z.ltb_spec (MAX_COUNT T) cnt); [lia|]. done.
        - by rewrite Hi. }
      apply IH. split; [done|]. intros j ty' Hj.
      rewrite Nat.add_succ_l, <- Nat.add_succ_r. by apply (H (S j)).
Qed.

Lemma targetBlockID_target operand s target :
  targetBlockID operand s = OK (target, s) ↔
  ∃ l, operand = Some (LabelOperand l) ∧ labels s !! l = Some target.
Proof.
  split.
  - intros H. by apply targetBlockID_state in H as [_ H].
  - intros (l & -> & Hl). unfold targetBlockID, bind, get. simpl. by rewrite Hl.
Qed.

Lemma checkTarget_expects mismatch target depth s :
  checkTarget mismatch target depth s = OK (tt, s) ↔
  ∀ i, target = Some i →
       ∃ bl, blockOf s i = Some bl ∧ expectedStackDepthAtEntry bl = depth.
Proof.
  split.
  - intros H. by apply checkTarget_state in H as [_ H].
  - destruct target as [i|]; [|done]. intros H.
    destruct (H i eq_refl) as (bl & Hbl & Hd).
    unfold checkTarget, bind, get. simpl. revert Hbl. unfold blockOf.
    destruct (lookupBlock (funcBlocks s) i) as [b|]; [|done]. simpl.
    destruct (blockObjects s !! b) as [[bl'|]|]; try done. simpl.
    intros [= ->]. by rewrite Hd, Z.eqb_refl.
Qed.

(** X1: [addOp] returns exactly when every operand is accepted for the
    type that the table of the opcode gives, at least [minOperandCount]
    operands are given and, at a reachable cursor, the cursor is in a
    created block and the targets of a [Jump] or of a [Branch] that are
    known expect the stack depth after the operation. It has then done
    nothing at an unreachable cursor, and appended the one operation and
    moved the stack depth at a reachable one. *)
Theorem addOp_returns cur opc ops s cur' s' :
  addOp T cur opc ops s = OK (cur', s') ↔
  operandsAccepted T opc ops ∧
  (minOperandCount T opc ≤ length ops)%nat ∧
  emitted T opc ops cur s cur' s' ∧
  (unreachable cur = false → targetsExpect s' opc ops (stackDepth cur')).
Proof.
  unfold addOp, operandsAccepted, emitted. split.
  - intros ([] & s1 & [-> Hops]%checkOperands_accepted & H)%bind_inv_OK.
    split; [done|].
    destruct (Nat.ltb_spec (length ops) (minOperandCount T opc)); [discriminate|].
    split; [done|].
    destruct (unreachable cur); [by injection H as <- <-|].
    apply bind_inv_OK in H as ([] & s2 & Hpush%pushOperation_pushed & H).
    apply bind_inv_OK in H as ([] & s3 & H & [= <- <-]).
    enough (s3 = s2 ∧
            targetsExpect s3 opc ops (stackDepth cur + calcStaticStackChangeOfOp T opc ops))
      as [-> ?] by done.
    unfold targetsExpect.
    destruct opc; try (by injection H as <-).
    + apply bind_inv_OK in H as (t1 & ? & [-> (l1 & Hl1 & Ht1)]%targetBlockID_state & H).
      apply bind_inv_OK in H as (t2 & ? & [-> (l2 & Hl2 & Ht2)]%targetBlockID_state & H).
      apply bind_inv_OK in H as ([] & ? & [-> H1]%checkTarget_state & H).
      apply checkTarget_state in H as [-> H2].
      split; [done|]. split; [by exists l1, t1|by exists l2, t2].
    + apply bind_inv_OK in H as (t1 & ? & [-> (l1 & Hl1 & Ht1)]%targetBlockID_state & H).
      apply checkTarget_state in H as [-> H1].
      split; [done|]. by exists l1, t1.
  - intros (Hops & Hmin & Hem & Htargets).
    assert (checkOperands T opc (opcodes T opc) 0 ops s = OK (tt, s)) as Hcheck
      by (by apply checkOperands_accepted).
    unfold bind at 1. rewrite Hcheck.
    destruct (Nat.ltb_spec (length ops) (minOperandCount T opc)); [lia|].
    destruct (unreachable cur); [by destruct Hem as [-> ->]|].
    destruct Hem as [Hpush ->]. specialize (Htargets eq_refl).
    apply (pushOperation_pushed _ _ _ tt) in Hpush.
    unfold bind at 1. unfold operationAt in Hpush. rewrite Hpush.
    unfold operationAt in Htargets. revert Htargets. fields. unfold targetsExpect.
    destruct opc; try done.
    + intros [(l1 & t1 & Hl1 & Ht1 & H1) (l2 & t2 & Hl2 & Ht2 & H2)].
      unfold bind.
      assert (targetBlockID (ops !! 0%nat) s' = OK (t1, s')) as ->
        by (apply targetBlockID_target; eauto).
      assert (targetBlockID (ops !! 1%nat) s' = OK (t2, s')) as ->
        by (apply targetBlockID_target; eauto).
      rewrite (proj2 (checkTarget_expects BranchTrueDepthMismatch _ _ _) H1).
      by rewrite (proj2 (checkTarget_expects BranchFalseDepthMismatch _ _ _) H2).
    + intros (l1 & t1 & Hl1 & Ht1 & H1).
      unfold bind.
      assert (targetBlockID (ops !! 0%nat) s' = OK (t1, s')) as ->
        by (apply targetBlockID_target; eauto).
      by rewrite (proj2 (checkTarget_expects JumpDepthMismatch _ _ _) H1).
Qed.

End Accepting.

(** *** Creating a predeclared block *)

Lemma updateLabels_other deps i ls l :
  l ∉ deps → updateLabels deps i ls !! l = ls !! l.
Proof.
  unfold updateLabels. revert ls.
  induction deps as [|l' deps IH]; intros ls Hl; simpl; [done|].
  apply not_elem_of_cons in Hl as [Hne Hl].
  rewrite IH by done. by apply list_lookup_insert_ne.
Qed.

(** X2: creating a predeclared block resolves exactly the labels that were
    taken of it while it was predeclared: each of them stands for the new
    block afterwards, whose identifier is the next free one, every other
    label stands for what it stood for, and the block is no longer
    predeclared. A block that is not predeclared cannot be created. *)
Theorem createBlock_resolves_labels cur b s :
  match predeclaredBlocks s !! b with
  | None => createBlock cur (Some b) s = Err Unexpected
  | Some deps =>
      ∃ cur' s',
        createBlock cur (Some b) s = OK (cur', s') ∧
        curBlock cur' = b ∧
        nextBlockID s' = S (nextBlockID s) ∧
        predeclaredBlocks s' = delete b (predeclaredBlocks s) ∧
        length (labels s') = length (labels s) ∧
        ∀ l, (l < length (labels s))%nat →
             labels s' !! l =
               if bool_decide (l ∈ deps) then Some (Some (block (nextBlockID s)))
               else labels s !! l
  end.
Proof.
  unfold createBlock, bind, get, modify, ret. simpl.
  destruct (predeclaredBlocks s !! b) as [deps|]; [|done]. simpl.
  eexists _, _. split; [done|]. fields.
  repeat split; [apply updateLabels_length|].
  intros l Hl. case_bool_decide.
  - by apply updateLabels_elem.
  - by apply updateLabels_other.
Qed.

(** X3: a block is created once. After a predeclared block has been
    created, creating it again is an internal error, and a label that is
    taken of it stands for the block at once and is not kept for later. *)
Theorem createBlock_once cur b s cur' s' :
  createBlock cur (Some b) s = OK (cur', s') →
  (b < length (blockObjects s))%nat →
  (∀ cur2, createBlock cur2 (Some b) s' = Err Unexpected) ∧
  ∃ s2,
    labelOfBlock b s' = OK (LabelOperand (length (labels s')), s2) ∧
    labels s2 = labels s' ++ [Some (block (nextBlockID s))] ∧
    predeclaredBlocks s2 = predeclaredBlocks s'.
Proof.
  unfold createBlock at 1. unfold bind, get, modify, ret. simpl.
  destruct (predeclaredBlocks s !! b) as [deps|] eqn:Hb; [|discriminate]. simpl.
  intros [= <- <-] Hlt. split.
  - intros cur2. unfold createBlock, bind, get, modify, ret. simpl.
    by rewrite lookup_delete_eq.
  - unfold labelOfBlock, blockId, bind, get, modify, ret. simpl.
    rewrite lookup_delete_eq. simpl. eexists. split; [done|]. fields.
    by rewrite list_lookup_insert_eq.
Qed.

Lemma createBlock_once_witness :
  ∃ s2,
    labelOfBlock 1 (resultOf (createBlock bodyCur (Some 1%nat) (predeclared newFunction))
                      (bodyCur, newFunction)).2 =
    OK (LabelOperand 0, s2) ∧ labels s2 = [Some (block 1)].
Proof.
  destruct (createBlock_once bodyCur 1 (predeclared newFunction)
              (resultOf (createBlock bodyCur (Some 1%nat) (predeclared newFunction))
                 (bodyCur, newFunction)).1
              (resultOf (createBlock bodyCur (Some 1%nat) (predeclared newFunction))
                 (bodyCur, newFunction)).2) as [_ (s2 & H1 & H2 & _)].
  - reflexivity.
  - simpl. lia.
  - exists s2. split; [exact H1|exact H2].
Defined.

(** *** Blocks of statements *)

Section Blocks.

Variable T : Tables.
Variable SM : ScopeModel.

Lemma unreachable_skips (compile : Statement → Cursor → C Cursor) statements cur s :
  unreachable cur = true →
  foldM (λ cur statement, if unreachable cur then ret cur else compile statement cur)
    statements cur s = OK (cur, s).
Proof.
  intros Hr. induction statements as [|statement statements IH]; simpl; [done|].
  unfold bind. by rewrite Hr.
Qed.

Lemma compileStatement_return argument cur s cur' s' :
  compileStatement T SM (ReturnStatement argument) cur s = OK (cur', s') →
  unreachable cur' = true.
Proof.
  cbn [compileStatement]. destruct (unreachable cur) eqn:Hr; [by intros [= <- <-]|].
  unfold compileNopSpecialForm. rewrite bind_ret_l. unfold compileReturnStatement.
  intros (c1 & s1 & _ & H)%bind_inv_OK.
  by apply bind_inv_OK in H as (c2 & s2 & _ & [= <- <-]).
Qed.

(** X4: what follows a [return] in a block is not compiled: the block
    compiles to the same code, or fails with the same error, as the block
    that ends with the [return], whatever the statements behind it are. *)
Theorem compileStatement_after_return before argument rest cur s :
  compileStatement T SM (BlockStatement (before ++ ReturnStatement argument :: rest))
    cur s =
  compileStatement T SM (BlockStatement (before ++ [ReturnStatement argument])) cur s.
Proof.
  cbn [compileStatement]. destruct (unreachable cur); [done|].
  unfold compileNopSpecialForm. rewrite !bind_ret_l. unfold compileBlockStatement.
  unfold bind at 1 3. destruct (startScope cur s) as [[[frame cur0] s0]|e]; [|done].
  set (f := λ cur1 s1, if unreachable cur1 then ret cur1
                       else compileStatement T SM s1 cur1).
  enough (foldM f (before ++ ReturnStatement argument :: rest) cur0 s0 =
          foldM f (before ++ [ReturnStatement argument]) cur0 s0) as Heq
    by (unfold bind; by rewrite Heq).
  rewrite !foldM_app. unfold bind.
  destruct (foldM f before cur0 s0) as [[cur1 s1]|e]; [|done].
  simpl. unfold bind.
  destruct (f cur1 (ReturnStatement argument) s1) as [[cur2 s2]|e] eqn:H; [|done].
  apply unreachable_skips.
  revert H. unfold f. destruct (unreachable cur1) eqn:Hr.
  - by intros [= <- <-].
  - apply compileStatement_return.
Qed.

Lemma endScope_balanced frame cur s cur' s' :
  (∀ count, calcStaticStackChangeOfOp T Pop [CountOperand count] = - count) →
  endScope T frame cur s = OK (cur', s') →
  scope cur' = origScope frame ∧
  breakScope cur' = breakScope cur ∧
  unreachable cur' = unreachable cur ∧
  (unreachable cur = false → stackDepth cur' = stackDepthAtStart frame).
Proof.
  intros HPop. unfold endScope. intros (c1 & s1 & H & [= <- <-])%bind_inv_OK.
  fields. split; [done|].
  destruct (unreachable cur) eqn:Hr; [by injection H as <- <-|].
  apply bind_inv_OK in H as (sc & s2 & _ & H).
  destruct (Z.eqb_spec (stackDepth cur - stackDepthAtStart frame)
              (Z.of_nat (length (localVariables sc)))) as [Heq|]; [|discriminate].
  simpl in H. destruct (Z.ltb_spec 0 (Z.of_nat (length (localVariables sc)))).
  - apply addOp_emitted in H. unfold emitted in H. rewrite Hr in H.
    destruct H as [_ ->]. fields. unfold operationAt, countOperand. fields.
    cbn [stackDepthAfter]. rewrite HPop. repeat split; try done. intros _. lia.
  - injection H as <- <-. repeat split; try done. intros _. lia.
Qed.

(** X5: a block statement restores the scope of the cursor, and when its
    end can be reached the stack is as deep after it as before it: the
    variables that were declared in it have been popped. *)
Theorem compileStatement_block_balanced body cur s cur' s' :
  (∀ count, calcStaticStackChangeOfOp T Pop [CountOperand count] = - count) →
  compileStatement T SM (BlockStatement body) cur s = OK (cur', s') →
  scope cur' = scope cur ∧
  (unreachable cur' = false → stackDepth cur' = stackDepth cur).
Proof.
  intros HPop. cbn [compileStatement].
  destruct (unreachable cur); [by intros [= <- <-]|].
  unfold compileNopSpecialForm. rewrite bind_ret_l. unfold compileBlockStatement.
  intros ([frame cur0] & s0 & Hstart & H)%bind_inv_OK.
  apply bind_inv_OK in H as (cur1 & s1 & _ & H).
  apply (endScope_balanced _ _ _ _ _ HPop) in H as (Hscope & _ & Hr & Hdepth).
  revert Hstart. unfold startScope, bind, get, modify, ret. simpl.
  intros [= <- <- _]. cbn [origScope stackDepthAtStart] in *.
  split; [done|]. intros Hr'. apply Hdepth. congruence.
Qed.

End Blocks.

Lemma compileStatement_block_balanced_witness :
  compileStatement sampleTables sampleScopeModel (BlockStatement sampleBlock)
    bodyCur newFunction = OK sampleBlockResult ∧
  scope sampleBlockResult.1 = None ∧
  (unreachable sampleBlockResult.1 = false → stackDepth sampleBlockResult.1 = 0).
Proof.
  split; [vm_compute; reflexivity|].
  apply (compileStatement_block_balanced sampleTables sampleScopeModel sampleBlock
           bodyCur newFunction sampleBlockResult.1 sampleBlockResult.2).
  - reflexivity.
  - vm_compute; reflexivity.
Defined.

(** *** The maximum stack depth *)

Lemma maxDepthOfOperations_app ops1 ops2 m :
  maxDepthOfOperations (ops1 ++ ops2) m =
  maxDepthOfOperations ops2 (maxDepthOfOperations ops1 m).
Proof. unfold maxDepthOfOperations. by rewrite fold_left_app. Qed.

Lemma maxDepthOfOperations_max ops : ∀ m,
  m ≤ maxDepthOfOperations ops m ∧
  (∀ op, op ∈ ops →
         stackDepthBefore op ≤ maxDepthOfOperations ops m ∧
         stackDepthAfter op ≤ maxDepthOfOperations ops m) ∧
  (maxDepthOfOperations ops m = m ∨
   ∃ op, op ∈ ops ∧ (maxDepthOfOperations ops m = stackDepthBefore op ∨
                     maxDepthOfOperations ops m = stackDepthAfter op)).
Proof.
  induction ops as [|op ops IH]; intros m.
  - split; [done|]. split; [by intros op ?%elem_of_nil|by left].
  - change (maxDepthOfOperations (op :: ops) m)
      with (maxDepthOfOperations ops
              (let m1 := if m <? stackDepthBefore op then stackDepthBefore op else m in
               if m1 <? stackDepthAfter op then stackDepthAfter op else m1)).
    cbv zeta.
    set (m1 := if m <? stackDepthBefore op then stackDepthBefore op else m).
    set (m2 := if m1 <? stackDepthAfter op then stackDepthAfter op else m1).
    destruct (IH m2) as (Hge & Hall & Hatt).
    assert (m ≤ m2 ∧ stackDepthBefore op ≤ m2 ∧ stackDepthAfter op ≤ m2 ∧
            (m2 = m ∨ m2 = stackDepthBefore op ∨ m2 = stackDepthAfter op))
      as (? & ? & ? & Hm2).
    { clear. unfold m2, m1.
      destruct (Z.ltb_spec m (stackDepthBefore op));
        [destruct (Z.ltb_spec (stackDepthBefore op) (stackDepthAfter op))
        |destruct (Z.ltb_spec m (stackDepthAfter op))]; lia. }
    split; [lia|]. split.
    + intros op' [->|Hin]%elem_of_cons; [lia|by apply Hall].
    + destruct Hatt as [->|(op' & Hin & Hop')].
      * destruct Hm2 as [->|Hm2]; [by left|]. right. exists op. split; [by left|done].
      * right. exists op'. split; [by right|done].
Qed.

Lemma computeMaximumStackDepth_operationsOf s :
  computeMaximumStackDepth s = maxDepthOfOperations (operationsOf s) 0.
Proof.
  unfold computeMaximumStackDepth, operationsOf. generalize 0.
  induction (funcBlocks s) as [|entry entries IH]; intros m; simpl; [done|].
  rewrite IH, maxDepthOfOperations_app. f_equal.
  destruct (blockObjects s !! entry.2) as [[bl|]|]; simpl; [|done..].
  by rewrite app_nil_r.
Qed.

(** X13: the maximum stack depth that [computeMaximumStackDepth] assigns
    to a function is the largest stack depth before or after any operation
    of its blocks, and 0 when no depth is positive: no operation of the
    function has a larger depth, and the value is 0 or the depth before or
    after one of the operations. *)
Theorem computeMaximumStackDepth_maximum s :
  0 ≤ computeMaximumStackDepth s ∧
  (∀ op, op ∈ operationsOf s →
         stackDepthBefore op ≤ computeMaximumStackDepth s ∧
         stackDepthAfter op ≤ computeMaximumStackDepth s) ∧
  (computeMaximumStackDepth s = 0 ∨
   ∃ op, op ∈ operationsOf s ∧
         (computeMaximumStackDepth s = stackDepthBefore op ∨
          computeMaximumStackDepth s = stackDepthAfter op)).
Proof.
  rewrite computeMaximumStackDepth_operationsOf. apply maxDepthOfOperations_max.
Qed.

(** *** Declaring a variable and looking it up *)

Lemma lookupVariable_declared localVars x v :
  x ∉ localVars.*1 → lookupVariable (localVars ++ [(x, v)]) x = Some v.
Proof.
  unfold lookupVariable. induction localVars as [|[y w] localVars IH]; simpl.
  - intros _. by rewrite decide_True.
  - intros [Hne Hx]%not_elem_of_cons. rewrite decide_False by done.
    specialize (IH Hx). destruct (list_find _ (localVars ++ _)) as [[i e]|]; [|done].
    simpl in *. done.
Qed.

Section Declaring.

Variable T : Tables.
Variable SM : ScopeModel.
Context {V : Type}.
Variable moduleVariables globalVariables : gmap string V.

(** X14: a variable that [compileVariableDeclaration] has declared on
    the stack is found by [findVariable] from the scope of the declaration:
    as a local variable whose index is the stack depth at which the code of
    its initial value starts, and which is read-only exactly for a [const]
    declaration. The declarator is an identifier that was not declared in
    this scope before. *)
Theorem compileVariableDeclarator_declares kind scope d cur s cur' s' :
  compileVariableDeclarator T SM kind scope d cur s = OK (cur', s') →
  (∀ slotIndex,
     bindingInfo d ≠ Some {| closureAllocated := true; slotIndex := slotIndex |}) →
  ∃ x b sc,
    declaratorId d = Identifier x ∧ scope = Some b ∧
    scopeObjects s' !! b =
      Some {| localVariables :=
                localVariables sc ++
                [(x, {| index := stackDepth cur;
                        readonly := String.eqb kind "const" |})];
              parentScope := parentScope sc |} ∧
    (x ∉ (localVariables sc).*1) ∧
    ∀ c, SrcToIL.scope c = scope →
         findVariable moduleVariables globalVariables c x s' =
         OK (inl {| index := stackDepth cur; readonly := String.eqb kind "const" |}, s').
Proof.
  intros H Hstack. revert H. unfold compileVariableDeclarator.
  destruct (declaratorId d) as [| | | |x| | | | | | | | | | | | | | | |];
    try (destruct (bindingInfo d) as [[[] slotIndex]|];
         [by destruct (Hstack slotIndex)|discriminate..]).
  intros H.
  assert (∃ cur1 s1,
            (if negb (isNameString SM x) then
               compileError ("Invalid variable identifier: " +:+ x)
             else
               let* sc := scopeObject scope in
               if bool_decide (x ∈ (localVariables sc).*1) then
                 compileError ("Duplicate variable declaration: " +:+ x)
               else
                 declareVariable scope x
                   {| index := stackDepth cur; readonly := String.eqb kind "const" |} ;;
                 ret cur1) s1 = OK (cur', s')) as (cur1 & s1 & H').
  { destruct (bindingInfo d) as [[[] slotIndex]|]; [by destruct (Hstack slotIndex)|..];
      apply bind_inv_OK in H as (cur1 & s1 & _ & H); eauto. }
  clear H. rename H' into H.
  destruct (negb _); [discriminate|].
  apply bind_inv_OK in H as (sc & s2 & Hsc & H).
  assert (∃ b, scope = Some b ∧ scopeObjects s1 !! b = Some sc ∧ s2 = s1)
    as (b & -> & Hb & ->).
  { revert Hsc. unfold scopeObject. destruct scope as [b|]; [|discriminate].
    unfold bind, get. simpl. destruct (scopeObjects s1 !! b) eqn:Hb; [|discriminate].
    intros [= <- <-]. eauto. }
  case_bool_decide as Hx; [discriminate|].
  apply bind_inv_OK in H as ([] & s3 & Hdeclare & [= <- <-]).
  revert Hdeclare. unfold declareVariable. rewrite (bind_OK _ _ _ _ _ Hsc).
  unfold modify. intros [= <-]. simpl.
  assert (b < length (scopeObjects s1))%nat as Hlt by (by eapply lookup_lt_Some).
  exists x, b, sc. split; [done|]. split; [done|].
  split; [by apply list_lookup_insert_eq|]. split; [done|].
  intros c Hc. unfold findVariable. rewrite (bind_OK _ _ _ _ _ eq_refl), Hc.
  simpl. rewrite length_insert.
  destruct (length (scopeObjects s1)) eqn:Hlen; [lia|]. simpl.
  unfold bind, get. simpl. rewrite list_lookup_insert_eq by lia. simpl.
  by rewrite lookupVariable_declared.
Qed.

End Declaring.

Lemma compileVariableDeclarator_declares_witness :
  compileVariableDeclarator sampleTables sampleScopeModel "let" (Some 0%nat)
    sampleDeclarator (set_scope (Some 0%nat) bodyCur) sampleScoped =
    OK sampleDeclared ∧
  findVariable (V := unit) ∅ ∅ (set_scope (Some 0%nat) bodyCur) "x" sampleDeclared.2 =
    OK (inl {| index := 0; readonly := false |}, sampleDeclared.2).
Proof.
  split; [vm_compute; reflexivity|].
  destruct (compileVariableDeclarator_declares sampleTables sampleScopeModel
              (V := unit) ∅ ∅ "let" (Some 0%nat) sampleDeclarator
              (set_scope (Some 0%nat) bodyCur) sampleScoped
              sampleDeclared.1 sampleDeclared.2)
    as (x & b & sc & Hx & _ & _ & _ & Hfind).
  - vm_compute. reflexivity.
  - intros slotIndex. discriminate.
  - injection Hx as <-. apply (Hfind (set_scope (Some 0%nat) bodyCur)). reflexivity.
Defined.

End SrcToILFacts.

